(** * Adafruit PWM servo driver (PCA9685): a shallow embedding

    The driver of [Adafruit_PWMServoDriver.cpp] is embedded as follows.

    - Integers of the C++ code ([uint8_t], [uint16_t], [uint32_t]) are [Z]
      with the wrap-around written out.
    - [float] is IEEE-754 binary32 and [double] is IEEE-754 binary64, both
      with round-to-nearest-even, through the standard library's executable
      specification [SpecFloat].  A conversion of a floating value to an
      unsigned integer type is undefined when the truncated value does not
      fit; it returns [None] there.
    - The I2C transport ([Adafruit_I2CDevice]) is external to the driver: it
      is an arbitrary [Transport], a state with three operations that may
      fail.  Every theorem that does not fix a transport holds for all of
      them.
    - The methods thread a [world]: the fields of the driver object, the
      state of the transport and the log of the bus transactions and delays
      issued so far. *)

From Stdlib Require Import ZArith List Bool Lia.
From Stdlib Require Import QArith Qround Qabs Qpower Lqa.
From Stdlib Require Import SpecFloat.
Import ListNotations.

Local Open Scope Z_scope.

(** ** Register map and bit masks *)

(** Modelled from the spec: the header [Adafruit_PWMServoDriver.h] is not
    part of the sources.  The register addresses, the mode bits and the
    prescale range are the fixed constants of the PCA9685 that the spec
    names in its register map (MODE1, MODE2, PRESCALE, LED0_ON_L,
    ALLLED_ON_L), in its mode flags and in [PRESCALE_MIN, PRESCALE_MAX],
    with the values of the PCA9685 data sheet; the default oscillator is
    the spec's nominal 25 MHz. *)
Definition PCA9685_MODE1 : Z := 0x00.
Definition PCA9685_MODE2 : Z := 0x01.
Definition PCA9685_LED0_ON_L : Z := 0x06.
Definition PCA9685_ALLLED_ON_L : Z := 0xFA.
Definition PCA9685_PRESCALE : Z := 0xFE.

Definition MODE1_SLEEP : Z := 0x10.
Definition MODE1_AI : Z := 0x20.
Definition MODE1_EXTCLK : Z := 0x40.
Definition MODE1_RESTART : Z := 0x80.
Definition MODE2_OUTDRV : Z := 0x04.

Definition PCA9685_I2C_ADDRESS : Z := 0x40.
Definition FREQUENCY_OSCILLATOR : Z := 25000000.
Definition PCA9685_PRESCALE_MIN : Z := 3.
Definition PCA9685_PRESCALE_MAX : Z := 255.

(** ** Machine integers *)

Definition u8 (z : Z) : Z := z mod 256.
Definition u16 (z : Z) : Z := z mod 65536.
Definition u32 (z : Z) : Z := z mod 4294967296.

(** ** Floating point *)

Module IEEE.

(** The two formats: precision and the exponent of infinity. *)
Definition fprec : Z := 24.
Definition femax : Z := 128.
Definition dprec : Z := 53.
Definition demax : Z := 1024.

(** Integer to [double] and to [float]. *)
Definition double_of_Z (z : Z) : spec_float :=
  binary_normalize dprec demax z 0 false.
Definition float_of_Z (z : Z) : spec_float :=
  binary_normalize fprec femax z 0 false.

(** [float] to [double] and back. *)
Definition to_double (x : spec_float) : spec_float :=
  match x with
  | S754_finite s m e => binary_round dprec demax s m e
  | _ => x
  end.
Definition to_float (x : spec_float) : spec_float :=
  match x with
  | S754_finite s m e => binary_round fprec femax s m e
  | _ => x
  end.

Definition dmul := SFmul dprec demax.
Definition ddiv := SFdiv dprec demax.
Definition dadd := SFadd dprec demax.
Definition dsub := SFsub dprec demax.

(** The literals [4096.0] and [0.5]. *)
Definition d4096 : spec_float := double_of_Z 4096.
Definition dhalf : spec_float := binary_normalize dprec demax 1 (-1) false.

(** Truncation toward zero of a finite value. *)
Definition SFtrunc (x : spec_float) : option Z :=
  match x with
  | S754_zero _ => Some 0
  | S754_finite s m e => Some (cond_Zopp s (Z.shiftl (Zpos m) e))
  | _ => None
  end.

(** Conversion to an unsigned integer type of [bits] bits: the truncated
    value when it fits, undefined otherwise. *)
Definition to_unsigned (bits : Z) (x : spec_float) : option Z :=
  match SFtrunc x with
  | Some z => if (0 <=? z) && (z <? 2 ^ bits) then Some z else None
  | None => None
  end.

End IEEE.
Import IEEE.

(** ** The driver object *)

Record driver := mkDriver {
  _i2caddr : Z;
  i2c_dev : bool;
  _oscillator_freq : Z;
  _prescale : Z
}.

(** [calcPrescale]: the divisor for a frequency, from the oscillator
    frequency the driver assumes. *)
Definition calcPrescale (d : driver) (freq : spec_float) : option Z :=
  let prescaleval :=
    to_float
      (dsub
         (dadd (ddiv (double_of_Z (_oscillator_freq d))
                     (dmul (to_double freq) d4096))
               dhalf)
         (double_of_Z 1)) in
  let prescaleval :=
    if SFltb prescaleval (float_of_Z PCA9685_PRESCALE_MIN)
    then float_of_Z PCA9685_PRESCALE_MIN else prescaleval in
  let prescaleval :=
    if SFltb (float_of_Z PCA9685_PRESCALE_MAX) prescaleval
    then float_of_Z PCA9685_PRESCALE_MAX else prescaleval in
  to_unsigned 8 prescaleval.

(** ** The transport and the world *)

(** The I2C device the driver talks through.  [t_begin] is
    [Adafruit_I2CDevice::begin(addr_detect)], [t_write] is [write(buffer,
    len)] and [t_write_then_read] is [write_then_read]: each reports
    success, the last one also the bytes it read. *)
Record Transport := mkTransport {
  tstate : Type;
  t_begin : bool -> tstate -> bool * tstate;
  t_write : list Z -> tstate -> bool * tstate;
  t_write_then_read : list Z -> nat -> tstate -> (bool * list Z) * tstate
}.

(** What the driver did on the bus, oldest first. *)
Inductive event :=
| EvDelete
| EvNew (addr : Z)
| EvBegin (addr_detect : bool) (ok : bool)
| EvWrite (buffer : list Z) (ok : bool)
| EvWriteThenRead (buffer : list Z) (len : nat) (ok : bool) (data : list Z)
| EvDelay (ms : Z).

Section Driver.

Variable T : Transport.

Record world := mkWorld {
  drv : driver;
  bus : tstate T;
  trace : list event
}.

(** A method: it either is undefined (a null device, a float conversion
    out of range) or returns a result and the next world. *)
Definition M (A : Type) : Type := world -> option (A * world).

Definition ret {A} (a : A) : M A := fun w => Some (a, w).
Definition bind {A B} (c : M A) (k : A -> M B) : M B :=
  fun w => match c w with
           | Some (a, w') => k a w'
           | None => None
           end.
Definition undefined {A} : M A := fun _ => None.

Notation "x <- c ;; k" := (bind c (fun x => k))
  (at level 61, c at next level, right associativity).
Notation "c ;;; k" := (bind c (fun _ => k))
  (at level 61, right associativity).

Definition lift_option {A} (o : option A) : M A :=
  match o with Some a => ret a | None => undefined end.

Definition get_drv : M driver := fun w => Some (drv w, w).
Definition put_drv (d : driver) : M unit :=
  fun w => Some (tt, mkWorld d (bus w) (trace w)).
Definition log (ev : event) : M unit :=
  fun w => Some (tt, mkWorld (drv w) (bus w) (trace w ++ [ev])).

Definition set_prescale (p : Z) : M unit :=
  d <- get_drv ;;
  put_drv (mkDriver (_i2caddr d) (i2c_dev d) (_oscillator_freq d) p).
Definition set_i2c_dev (b : bool) : M unit :=
  d <- get_drv ;;
  put_drv (mkDriver (_i2caddr d) b (_oscillator_freq d) (_prescale d)).

(** Calls through the [i2c_dev] pointer; undefined on a null pointer. *)
Definition with_dev {A} (c : M A) : M A :=
  d <- get_drv ;; if i2c_dev d then c else undefined.

Definition dev_begin (addr_detect : bool) : M bool :=
  with_dev (fun w =>
    let (ok, b) := t_begin T addr_detect (bus w) in
    Some (ok, mkWorld (drv w) b (trace w ++ [EvBegin addr_detect ok]))).

Definition dev_write (buffer : list Z) : M bool :=
  with_dev (fun w =>
    let (ok, b) := t_write T buffer (bus w) in
    Some (ok, mkWorld (drv w) b (trace w ++ [EvWrite buffer ok]))).

Definition dev_write_then_read (buffer : list Z) (len : nat)
  : M (bool * list Z) :=
  with_dev (fun w =>
    let '(ok, data, b) := t_write_then_read T buffer len (bus w) in
    Some ((ok, data),
          mkWorld (drv w) b
                  (trace w ++ [EvWriteThenRead buffer len ok data]))).

Definition delay (ms : Z) : M unit := log (EvDelay ms).

(** [if (i2c_dev) delete i2c_dev; i2c_dev = new Adafruit_I2CDevice(...)] *)
Definition renew_dev : M unit :=
  d <- get_drv ;;
  (if i2c_dev d then log EvDelete else ret tt) ;;;
  log (EvNew (_i2caddr d)) ;;;
  set_i2c_dev true.

(** ** Low level I2C interface *)

Record ReadResult := mkReadResult { val : Z; success : bool }.

Definition read8 (addr : Z) : M ReadResult :=
  r <- dev_write_then_read [u8 addr] 1 ;;
  let buffer0 := u8 (nth 0 (snd r) (u8 addr)) in
  if negb (fst r) then ret (mkReadResult buffer0 false)
  else ret (mkReadResult buffer0 true).

Definition write8 (addr d : Z) : M unit :=
  dev_write [u8 addr; u8 d] ;;; ret tt.

(** ** Methods *)

Definition getOscillatorFrequency : M Z :=
  d <- get_drv ;; ret (_oscillator_freq d).

Definition setOscillatorFrequency (freq : Z) : M unit :=
  d <- get_drv ;;
  put_drv (mkDriver (_i2caddr d) (i2c_dev d) (u32 freq) (_prescale d)).

Definition reset : M unit :=
  write8 PCA9685_MODE1 MODE1_RESTART ;;;
  delay 10.

Definition sleep : M unit :=
  r <- read8 PCA9685_MODE1 ;;
  let awake := val r in
  let sleep := u8 (Z.lor awake MODE1_SLEEP) in
  write8 PCA9685_MODE1 sleep ;;;
  delay 5.

Definition wakeup : M unit :=
  r <- read8 PCA9685_MODE1 ;;
  let sleep := val r in
  let wakeup := u8 (Z.land sleep (Z.lnot MODE1_SLEEP)) in
  write8 PCA9685_MODE1 wakeup.

Definition setExtClk (prescale : Z) : M unit :=
  r <- read8 PCA9685_MODE1 ;;
  let oldmode := val r in
  let newmode :=
    u8 (Z.lor (Z.land oldmode (Z.lnot MODE1_RESTART)) MODE1_SLEEP) in
  write8 PCA9685_MODE1 newmode ;;;
  let newmode := u8 (Z.lor newmode MODE1_EXTCLK) in
  write8 PCA9685_MODE1 newmode ;;;
  write8 PCA9685_PRESCALE prescale ;;;
  delay 5 ;;;
  write8 PCA9685_MODE1
    (Z.lor (Z.lor (Z.land newmode (Z.lnot MODE1_SLEEP)) MODE1_RESTART)
           MODE1_AI).

Definition readPrescale : M Z :=
  result <- read8 PCA9685_PRESCALE ;;
  if success result then ret (val result) else ret 0.

Definition setPWMFreq (freq : spec_float) : M unit :=
  let freq := if SFltb freq (float_of_Z 1) then float_of_Z 1 else freq in
  let freq :=
    if SFltb (float_of_Z 3500) freq then float_of_Z 3500 else freq in
  d <- get_drv ;;
  prescale <- lift_option (calcPrescale d freq) ;;
  r <- read8 PCA9685_MODE1 ;;
  let oldmode := val r in
  let newmode :=
    u8 (Z.lor (Z.land oldmode (Z.lnot MODE1_RESTART)) MODE1_SLEEP) in
  write8 PCA9685_MODE1 newmode ;;;
  write8 PCA9685_PRESCALE prescale ;;;
  write8 PCA9685_MODE1 oldmode ;;;
  delay 5 ;;;
  write8 PCA9685_MODE1 (Z.lor (Z.lor oldmode MODE1_RESTART) MODE1_AI) ;;;
  p <- readPrescale ;;
  set_prescale p.

Definition setOutputMode (totempole : bool) : M unit :=
  r <- read8 PCA9685_MODE2 ;;
  let oldmode := val r in
  let newmode :=
    if totempole then u8 (Z.lor oldmode MODE2_OUTDRV)
    else u8 (Z.land oldmode (Z.lnot MODE2_OUTDRV)) in
  write8 PCA9685_MODE2 newmode.

Definition begin (prescale : Z) : M bool :=
  renew_dev ;;;
  ok <- dev_begin true ;;
  if negb ok then ret false
  else
    reset ;;;
    (if prescale =? 0 then setPWMFreq (float_of_Z 1000)
     else setExtClk prescale) ;;;
    setOscillatorFrequency FREQUENCY_OSCILLATOR ;;;
    p <- readPrescale ;;
    set_prescale p ;;;
    if p =? 0 then ret false else ret true.

Definition getPWM (num : Z) (off : bool) : M Z :=
  let buffer0 := u8 (PCA9685_LED0_ON_L + 4 * num) in
  let buffer0 := if off then u8 (buffer0 + 2) else buffer0 in
  r <- dev_write_then_read [buffer0] 2 ;;
  let b0 := u8 (nth 0 (snd r) buffer0) in
  let b1 := u8 (nth 1 (snd r) 0) in
  ret (Z.lor b0 (Z.shiftl b1 8)).

Definition setPWM (num on off : Z) : M bool :=
  dev_write [u8 (PCA9685_LED0_ON_L + 4 * num);
             u8 on; u8 (Z.shiftr on 8);
             u8 off; u8 (Z.shiftr off 8)].

Definition setPin (num val : Z) (invert : bool) : M bool :=
  let val := Z.min val 4095 in
  if invert then
    if val =? 0 then setPWM num 4096 0
    else if val =? 4095 then setPWM num 0 4096
    else setPWM num 0 (4095 - val)
  else
    if val =? 4095 then setPWM num 4096 0
    else if val =? 0 then setPWM num 0 4096
    else setPWM num 0 val.

Definition writeMicroseconds (num Microseconds : Z) : M bool :=
  let pulse := double_of_Z Microseconds in
  let pulselength := double_of_Z 1000000 in
  d <- get_drv ;;
  set_prescale (u8 (_prescale d + 1)) ;;;
  d <- get_drv ;;
  let pulselength := dmul pulselength (double_of_Z (_prescale d)) in
  let pulselength := ddiv pulselength (double_of_Z (_oscillator_freq d)) in
  let pulse := ddiv pulse pulselength in
  off <- lift_option (to_unsigned 16 pulse) ;;
  setPWM num 0 off.

Definition beginBarebones : M bool :=
  renew_dev ;;;
  dev_begin false ;;;
  r <- read8 PCA9685_MODE1 ;;
  let old_mode := val r in
  let new_mode :=
    u8 (Z.lor (Z.land old_mode (Z.lnot MODE1_SLEEP)) MODE1_AI) in
  (if negb (new_mode =? old_mode) then write8 PCA9685_MODE1 new_mode
   else ret tt) ;;;
  setOscillatorFrequency FREQUENCY_OSCILLATOR ;;;
  ret true.

Definition setAllOff : M bool :=
  let on := 0 in
  let off := 4096 in
  dev_write [u8 PCA9685_ALLLED_ON_L;
             u8 on; u8 (Z.shiftr on 8);
             u8 off; u8 (Z.shiftr off 8)].

Definition isFreqSet (freq : spec_float) : M bool :=
  d <- get_drv ;;
  new_prescale <- lift_option (calcPrescale d freq) ;;
  ret (new_prescale =? _prescale d).

End Driver.

Arguments drv {T} w.
Arguments bus {T} w.
Arguments trace {T} w.
Arguments mkWorld {T} drv bus trace.

(** ** Two transports to run the driver on *)

(** A chip that answers: a register file with auto-increment.  A write
    stores its data bytes from the register named by its first byte, a read
    returns the registers from there. *)
Module Chip.

Definition regs := Z -> Z.

Fixpoint store (r : regs) (addr : Z) (data : list Z) : regs :=
  match data with
  | [] => r
  | b :: data' =>
      store (fun a => if a =? addr then b else r a) (u8 (addr + 1)) data'
  end.

Fixpoint load (r : regs) (addr : Z) (len : nat) : list Z :=
  match len with
  | O => []
  | S len' => r addr :: load r (u8 (addr + 1)) len'
  end.

Definition transport : Transport :=
  {| tstate := regs;
     t_begin := fun _ r => (true, r);
     t_write := fun buffer r =>
       match buffer with
       | addr :: data => (true, store r addr data)
       | [] => (true, r)
       end;
     t_write_then_read := fun buffer len r =>
       match buffer with
       | addr :: _ => ((true, load r addr len), r)
       | [] => ((false, []), r)
       end |}.

(** The registers after power-on: MODE1 is 0x11, PRESCALE is 0x1E. *)
Definition power_on : regs :=
  fun a => if a =? PCA9685_MODE1 then 0x11
           else if a =? PCA9685_PRESCALE then 0x1E else 0.

Definition fresh : world transport :=
  @mkWorld transport (mkDriver PCA9685_I2C_ADDRESS false 0 0) power_on [].

End Chip.

(** A bus with nothing on it: every transaction fails. *)
Module Dead.

Definition transport : Transport :=
  {| tstate := unit;
     t_begin := fun _ _ => (false, tt);
     t_write := fun _ _ => (false, tt);
     t_write_then_read := fun _ _ _ => ((false, []), tt) |}.

Definition fresh : world transport :=
  @mkWorld transport (mkDriver PCA9685_I2C_ADDRESS false 0 0) tt [].

End Dead.

(** The world after a call, when the call is defined. *)
Definition after {T A} (c : M T A) (w : world T) : world T :=
  match c w with Some (_, w') => w' | None => w end.
Definition result {T A} (c : M T A) (w : world T) : option A :=
  match c w with Some (a, _) => Some a | None => None end.

(** ** Sequences of calls *)

(** The public methods, as commands. *)
Inductive command :=
| CBegin (prescale : Z)
| CReset
| CSleep
| CWakeup
| CSetExtClk (prescale : Z)
| CSetPWMFreq (freq : spec_float)
| CSetOutputMode (totempole : bool)
| CReadPrescale
| CGetPWM (num : Z) (off : bool)
| CSetPWM (num on off : Z)
| CSetPin (num val : Z) (invert : bool)
| CWriteMicroseconds (num Microseconds : Z)
| CBeginBarebones
| CSetAllOff
| CIsFreqSet (freq : spec_float)
| CGetOscillatorFrequency
| CSetOscillatorFrequency (freq : Z).

Definition done {T : Transport} {A} (m : M T A) : M T unit :=
  bind T m (fun _ => ret T tt).

Definition exec (T : Transport) (c : command) : M T unit :=
  match c with
  | CBegin prescale => done (begin T prescale)
  | CReset => reset T
  | CSleep => sleep T
  | CWakeup => wakeup T
  | CSetExtClk prescale => setExtClk T prescale
  | CSetPWMFreq freq => setPWMFreq T freq
  | CSetOutputMode totempole => setOutputMode T totempole
  | CReadPrescale => done (readPrescale T)
  | CGetPWM num off => done (getPWM T num off)
  | CSetPWM num on off => done (setPWM T num on off)
  | CSetPin num val invert => done (setPin T num val invert)
  | CWriteMicroseconds num us => done (writeMicroseconds T num us)
  | CBeginBarebones => done (beginBarebones T)
  | CSetAllOff => done (setAllOff T)
  | CIsFreqSet freq => done (isFreqSet T freq)
  | CGetOscillatorFrequency => done (getOscillatorFrequency T)
  | CSetOscillatorFrequency freq => setOscillatorFrequency T freq
  end.

Fixpoint run (T : Transport) (cs : list command) : M T unit :=
  match cs with
  | [] => ret T tt
  | c :: cs' => bind T (exec T c) (fun _ => run T cs')
  end.

(** The channel of a command is one of the sixteen outputs. *)
Definition channel_ok (c : command) : Prop :=
  match c with
  | CGetPWM num _ | CSetPWM num _ _ | CSetPin num _ _
  | CWriteMicroseconds num _ => 0 <= num <= 15
  | _ => True
  end.

(** The commands that program the prescaler. *)
Definition programs_prescale (c : command) : bool :=
  match c with
  | CBegin _ | CSetExtClk _ | CSetPWMFreq _ => true
  | _ => false
  end.

(** ** Register writes in the log *)

(** A write of [buffer] reaches register [reg]: the data bytes go to the
    registers from the address byte on. *)
Definition writes_register (reg : Z) (ev : event) : bool :=
  match ev with
  | EvWrite (addr :: data) _ =>
      (addr <=? reg) && (reg <? addr + Z.of_nat (length data))
  | _ => false
  end.

(** The byte a write puts into MODE1, if it reaches MODE1. *)
Definition mode1_written (ev : event) : option Z :=
  match ev with
  | EvWrite (addr :: data) _ =>
      if writes_register PCA9685_MODE1 ev
      then Some (nth (Z.to_nat (PCA9685_MODE1 - addr)) data 0)
      else None
  | _ => None
  end.

Definition sleep_bit (mode : Z) : bool := negb (Z.land mode MODE1_SLEEP =? 0).

(** The byte of the most recent write of MODE1 in a log. *)
Definition last_mode1 (tr : list event) : option Z :=
  fold_left (fun acc ev =>
               match mode1_written ev with Some d => Some d | None => acc end)
            tr None.

(** Every write of PRESCALE in the log comes after a write of MODE1, and the
    most recent one before it set the sleep bit. *)
Definition prescale_written_asleep (tr : list event) : Prop :=
  forall pre ev post,
    tr = pre ++ ev :: post ->
    writes_register PCA9685_PRESCALE ev = true ->
    exists mode, last_mode1 pre = Some mode /\ sleep_bit mode = true.

(** The same, as a check along the log: [asleep] is whether the most recent
    write of MODE1 set the sleep bit; the result is [None] when a write of
    PRESCALE is met while it is not. *)
Fixpoint guard (asleep : bool) (tr : list event) : option bool :=
  match tr with
  | [] => Some asleep
  | ev :: tr' =>
      if writes_register PCA9685_PRESCALE ev && negb asleep then None
      else guard (match mode1_written ev with
                  | Some d => sleep_bit d
                  | None => asleep
                  end) tr'
  end.

(** The devices allocated and not deleted along a log. *)
Fixpoint live (tr : list event) : Z :=
  match tr with
  | [] => 0
  | EvNew _ :: tr' => live tr' + 1
  | EvDelete :: tr' => live tr' - 1
  | _ :: tr' => live tr'
  end.

(** ** Vocabulary of the properties *)

Section Logic.

Variable T : Transport.

(** The device pointer is set. *)
Definition held (w : world T) : Prop := i2c_dev (drv w) = true.

(** Total correctness: from a world in [P] the call is defined and ends
    in [Q]. *)
Definition triple {A} (P : world T -> Prop) (c : M T A)
           (Q : A -> world T -> Prop) : Prop :=
  forall w, P w -> exists a w', c w = Some (a, w') /\ Q a w'.

(** A defined call appends a segment to the log; [P] holds of it. *)
Definition emits {A} (c : M T A) (P : list event -> Prop) : Prop :=
  forall w a w', c w = Some (a, w') ->
                 exists seg, trace w' = trace w ++ seg /\ P seg.

(** A defined call leaves the oscillator frequency of the driver as it
    was. *)
Definition keeps_oscillator {A} (c : M T A) : Prop :=
  forall w a w', c w = Some (a, w') ->
                 _oscillator_freq (drv w') = _oscillator_freq (drv w).

(** A defined call keeps [I]. *)
Definition preserves {A} (I : world T -> Prop) (c : M T A) : Prop :=
  forall w a w', c w = Some (a, w') -> I w -> I w'.

(** The log accounts for the device: one is live exactly when the pointer
    is set. *)
Definition balanced (w : world T) : Prop :=
  live (trace w) = if i2c_dev (drv w) then 1 else 0.

End Logic.

(** No event of the segment writes PRESCALE. *)
Definition quiet (seg : list event) : Prop :=
  Forall (fun ev => writes_register PCA9685_PRESCALE ev = false) seg.

(** Run from a log whose sleep state is in [P], the segment passes the
    check and leaves a sleep state in [Q]. *)
Definition passes (P Q : bool -> Prop) (seg : list event) : Prop :=
  forall s, P s -> exists s', guard s seg = Some s' /\ Q s'.

Definition any : bool -> Prop := fun _ => True.
Definition asleep : bool -> Prop := fun s => s = true.

(** The mapping of the spec, in its words: the pair (on, off) for a clamped
    value. *)
Definition fully_on : Z * Z := (4096, 0).
Definition fully_off : Z * Z := (0, 4096).

Definition duty_ticks (v : Z) (invert : bool) : Z * Z :=
  if invert then
    if v =? 0 then fully_on
    else if v =? 4095 then fully_off
    else (0, 4095 - v)
  else
    if v =? 4095 then fully_on
    else if v =? 0 then fully_off
    else (0, v).

(** ** Worlds and sessions to run *)

Definition world121 : world Chip.transport :=
  @mkWorld Chip.transport (mkDriver PCA9685_I2C_ADDRESS true 25000000 121)
           Chip.power_on [].

Definition session : list command :=
  [CBegin 0; CSetPWM 0 0 2048; CSetPWMFreq (float_of_Z 50);
   CSetPin 15 4095 false; CSetExtClk 30; CWriteMicroseconds 3 1500;
   CSetAllOff].

(** ** Values of floats and rounding *)

Section RoundingDefs.

Local Open Scope Q_scope.

Definition pow2 (e : Z) : Q := (2 # 1) ^ e.

(** The nearest integer, ties to even. *)
Definition rne (y : Q) : Z :=
  let n := Qfloor y in
  match Qcompare (y - inject_Z n) (1 # 2) with
  | Lt => n
  | Eq => if Z.even n then n else (n + 1)%Z
  | Gt => (n + 1)%Z
  end.

(** Where [y] lies from the integer [m]: on it, below, at or above the
    middle of [m] and [m + 1]. *)
Definition inloc (y : Q) (m : Z) (l : location) : Prop :=
  match l with
  | loc_Exact => y == inject_Z m
  | loc_Inexact Lt => inject_Z m < y < inject_Z m + (1 # 2)
  | loc_Inexact Eq => y == inject_Z m + (1 # 2)
  | loc_Inexact Gt => inject_Z m + (1 # 2) < y < inject_Z m + 1
  end.

Definition inrec (y : Q) (mrs : shr_record) : Prop :=
  inloc y (shr_m mrs) (loc_of_shr_record mrs).

(** The value of a finite float; 0 for the others. *)
Definition SF2Q (x : spec_float) : Q :=
  match x with
  | S754_finite s m e => inject_Z (cond_Zopp s (Z.pos m)) * pow2 e
  | _ => 0
  end.

(** The order of the values, infinities included; a NaN is not ordered. *)
Definition SFle (a b : spec_float) : Prop :=
  match a, b with
  | S754_nan, _ | _, S754_nan => False
  | S754_infinity true, _ => True
  | _, S754_infinity false => True
  | S754_infinity false, _ => False
  | _, S754_infinity true => False
  | _, _ => SF2Q a <= SF2Q b
  end.

Definition is_nan (x : spec_float) : bool :=
  match x with S754_nan => true | _ => false end.

Definition is_finite (x : spec_float) : bool :=
  match x with S754_zero _ | S754_finite _ _ _ => true | _ => false end.

(** A rational below, or above, the value of a float. *)
Definition Qle_SF (C : Q) (r : spec_float) : Prop :=
  match r with
  | S754_infinity false => True
  | S754_zero _ | S754_finite _ _ _ => C <= SF2Q r
  | _ => False
  end.

Definition SF_le_Q (r : spec_float) (C : Q) : Prop :=
  match r with
  | S754_infinity true => True
  | S754_zero _ | S754_finite _ _ _ => SF2Q r <= C
  | _ => False
  end.

(** [e] is the exponent the format gives a positive [X]: the least one,
    or the one that leaves [prec] digits. *)
Definition canon_exp (prec emax : Z) (X : Q) (e : Z) : Prop :=
  (e = emin prec emax /\ X < pow2 (emin prec emax + prec))
  \/ ((emin prec emax < e)%Z /\ pow2 (e + prec - 1) <= X < pow2 (e + prec)).

(** The float for a rounded mantissa [m] at exponent [e]: a carry out of
    the mantissa moves to the next exponent, an exponent too high gives
    infinity. *)
Definition finish (prec emax : Z) (sx : bool) (m e : Z) : spec_float :=
  let '(m2, e2) :=
    if (m =? 2 ^ prec)%Z then ((2 ^ (prec - 1))%Z, (e + 1)%Z) else (m, e) in
  match m2 with
  | Z0 => S754_zero sx
  | Zpos p =>
      if (e2 <=? emax - prec)%Z then S754_finite sx p e2
      else S754_infinity sx
  | Zneg _ => S754_nan
  end.

(** The rounded value: the nearest multiple of [2^e], ties to even. *)
Definition rv (X : Q) (e : Z) : Q := inject_Z (rne (X * pow2 (- e))) * pow2 e.

(** [r] is the rounding of a positive [X], with sign [sx]. *)
Definition rounds_pos (prec emax : Z) (sx : bool) (X : Q) (r : spec_float)
  : Prop :=
  exists e, canon_exp prec emax X e
            /\ r = finish prec emax sx (rne (X * pow2 (- e))) e.

(** [r] is the rounding of [q]; a zero comes with either sign. *)
Definition rounds (prec emax : Z) (q : Q) (r : spec_float) : Prop :=
  (q == 0 /\ exists s, r = S754_zero s)
  \/ (0 < q /\ rounds_pos prec emax false q r)
  \/ (q < 0 /\ rounds_pos prec emax true (- q) r).

(** The format holds [C]. *)
Definition representable (prec emax : Z) (C : Q) : Prop :=
  exists k e0, C == inject_Z k * pow2 e0 /\ (Z.abs k < 2 ^ prec)%Z
               /\ (emin prec emax <= e0)%Z /\ (e0 <= emax - prec)%Z.

End RoundingDefs.

(** ** The steps of [calcPrescale] *)

(** [op] maps an infinity to itself and any other float that is not a NaN
    to the rounding of [g] of its value. *)
Definition lifted (prec emax : Z) (g : Q -> Q)
           (op : spec_float -> spec_float) : Prop :=
  forall x, is_nan x = false ->
            match x with
            | S754_infinity s => op x = S754_infinity s
            | _ => rounds prec emax (g (SF2Q x)) (op x)
            end.

(** The prescale range, on integers. *)
Definition clampZ (z : Z) : Z :=
  Z.min PCA9685_PRESCALE_MAX (Z.max PCA9685_PRESCALE_MIN z).

(** The prescale a [prescaleval] gives: its floor, clamped. *)
Definition prescale_of (v : spec_float) : Z :=
  match v with
  | S754_infinity false => PCA9685_PRESCALE_MAX
  | S754_infinity true => PCA9685_PRESCALE_MIN
  | _ => clampZ (Qfloor (SF2Q v))
  end.

(** The two [if]s of [calcPrescale]. *)
Definition clamp_prescaleval (prescaleval : spec_float) : spec_float :=
  let prescaleval :=
    if SFltb prescaleval (float_of_Z PCA9685_PRESCALE_MIN)
    then float_of_Z PCA9685_PRESCALE_MIN else prescaleval in
  if SFltb (float_of_Z PCA9685_PRESCALE_MAX) prescaleval
  then float_of_Z PCA9685_PRESCALE_MAX else prescaleval.

(** The [float] that [calcPrescale] clamps. *)
Definition prescaleval (d : driver) (freq : spec_float) : spec_float :=
  to_float
    (dsub
       (dadd (ddiv (double_of_Z (_oscillator_freq d))
                   (dmul (to_double freq) d4096))
             dhalf)
       (double_of_Z 1)).

(** The steps after the division. *)
Definition after_division (x : spec_float) : spec_float :=
  to_float (dsub (dadd x dhalf) (double_of_Z 1)).

Section Formula.

Local Open Scope Q_scope.

(** Truncation toward zero of a rational. *)
Definition Qtrunc (q : Q) : Z :=
  if Qle_bool 0 q then Qfloor q else Qceiling q.

(** The quotient of the formula, on rationals. *)
Definition quotient (osc : Z) (freq : spec_float) : Q :=
  match freq with
  | S754_finite _ _ _ => inject_Z osc / (SF2Q freq * 4096)
  | _ => 0
  end.

(** The formula of the spec, in its words: round by adding 0.5 and
    truncating, then subtract 1, then clamp. *)
Definition spec_prescale (osc : Z) (freq : spec_float) : Z :=
  clampZ (Qtrunc (inject_Z osc / (SF2Q freq * 4096) + (1 # 2)) - 1).

(** The rounded tick count of the spec, in its words: the pulse width
    over [tickDuration = 1,000,000 * (prescale + 1) / oscillatorFreq],
    rounded by adding 0.5 and truncating. *)
Definition spec_ticks (us prescale osc : Z) : Z :=
  Qtrunc (inject_Z us
          / (1000000 * inject_Z (prescale + 1) / inject_Z osc) + (1 # 2)).

(** [t] lies less than [2^-16] below the next integer. *)
Definition just_below_integer (t : Q) : Prop :=
  inject_Z (Qtrunc t) + 1 - (1 # 65536) < t.

End Formula.

(** ** The steps of [writeMicroseconds] *)

(** Microseconds per tick, in [double]: [pulselength] after its two
    updates, for the stored prescale before the call. *)
Definition tickDuration (prescale osc : Z) : spec_float :=
  ddiv (dmul (double_of_Z 1000000) (double_of_Z (prescale + 1)))
       (double_of_Z osc).

(** [pulse] after its division. *)
Definition pulse_of (us prescale osc : Z) : spec_float :=
  ddiv (double_of_Z us) (tickDuration prescale osc).

(** The world with the stored prescale set to [p]. *)
Definition with_prescale {T} (p : Z) (w : world T) : world T :=
  mkWorld (mkDriver (_i2caddr (drv w)) (i2c_dev (drv w))
                    (_oscillator_freq (drv w)) p)
          (bus w) (trace w).

(** ** The steps of [setPWMFreq] *)

(** The two [if]s of [setPWMFreq]. *)
Definition clamp_freq (freq : spec_float) : spec_float :=
  let freq := if SFltb freq (float_of_Z 1) then float_of_Z 1 else freq in
  if SFltb (float_of_Z 3500) freq then float_of_Z 3500 else freq.


(** ** Vocabulary of the further properties *)

(** The byte [read8] returns for the data the transport hands back: the
    first byte, or what the one-byte buffer held (the register address)
    when none came. *)
Definition byte_read (reg : Z) (data : list Z) : Z :=
  u8 (nth 0 data (u8 reg)).

(** What [renew_dev] logs: the old device is deleted when there is one. *)
Definition renewal (d : driver) : list event :=
  (if i2c_dev d then [EvDelete] else []) ++ [EvNew (_i2caddr d)].

(** A call repeated [n] times. *)
Fixpoint times {T A} (n : nat) (c : M T A) : M T unit :=
  match n with
  | O => ret T tt
  | S n' => bind T c (fun _ => times n' c)
  end.

(** The commands that are defined wherever the device is held: all but
    [writeMicroseconds], with a frequency that is not a NaN for
    [setPWMFreq] and a positive finite one for [isFreqSet]. *)
Definition safe (c : command) : Prop :=
  match c with
  | CWriteMicroseconds _ _ => False
  | CSetPWMFreq freq =>
      valid_binary fprec femax freq = true /\ is_nan freq = false
  | CIsFreqSet freq =>
      valid_binary fprec femax freq = true
      /\ SFltb (float_of_Z 0) freq = true /\ is_finite freq = true
  | _ => True
  end.

(** * Properties *)

(** ** Running methods *)

Section Run.

Variable T : Transport.

Local Abbreviation triple := (triple T).
Local Abbreviation held := (held T).

Lemma bind_Some {A B} (c : M T A) (k : A -> M T B) w b w'' :
  bind T c k w = Some (b, w'') <->
  exists a w', c w = Some (a, w') /\ k a w' = Some (b, w'').
Proof.
  unfold bind. split.
  - destruct (c w) as [[a w']|]; [eauto | discriminate].
  - intros (a & w' & -> & H). exact H.
Qed.

Lemma with_dev_Some {A} (c : M T A) w a w' :
  with_dev T c w = Some (a, w') <->
  i2c_dev (drv w) = true /\ c w = Some (a, w').
Proof.
  unfold with_dev, bind, get_drv, undefined.
  destruct (i2c_dev (drv w)); intuition congruence.
Qed.

Lemma triple_ret {A} (P : world T -> Prop) (a : A) Q :
  (forall w, P w -> Q a w) -> triple P (ret T a) Q.
Proof. intros H w Hw. exists a, w. split; [reflexivity | auto]. Qed.

Lemma triple_bind {A B} P (c : M T A) R (k : A -> M T B) Q :
  triple P c R -> (forall a, triple (R a) (k a) Q) ->
  triple P (bind T c k) Q.
Proof.
  intros Hc Hk w Hw. destruct (Hc w Hw) as (a & w' & E & Ha).
  destruct (Hk a w' Ha) as (b & w'' & E' & Hb).
  exists b, w''. split; [| exact Hb]. unfold bind. now rewrite E.
Qed.

Lemma triple_conseq {A} (P P' : world T -> Prop) (c : M T A)
      (Q Q' : A -> world T -> Prop) :
  triple P' c Q' -> (forall w, P w -> P' w) ->
  (forall a w, Q' a w -> Q a w) -> triple P c Q.
Proof.
  intros H HP HQ w Hw. destruct (H w (HP w Hw)) as (a & w' & E & Ha).
  eauto.
Qed.

Lemma triple_if {A} P (b : bool) (c1 c2 : M T A) Q :
  (b = true -> triple P c1 Q) -> (b = false -> triple P c2 Q) ->
  triple P (if b then c1 else c2) Q.
Proof. destruct b; auto. Qed.

Lemma triple_get_drv (P : world T -> Prop) :
  triple P (get_drv T) (fun d w => d = drv w /\ P w).
Proof. intros w Hw. exists (drv w), w. auto. Qed.

Lemma triple_log P ev :
  (forall d b tr, P (mkWorld d b tr) -> P (mkWorld d b (tr ++ [ev]))) ->
  triple P (log T ev) (fun _ w => P w).
Proof.
  intros H [d b tr] Hw. eexists tt, _. split; [reflexivity |].
  now apply H.
Qed.

Lemma held_renew_dev : triple (fun _ => True) (renew_dev T) (fun _ => held).
Proof.
  intros [d b tr] _. unfold renew_dev, bind, get_drv, set_i2c_dev, put_drv,
    log, ret; cbn.
  destruct (i2c_dev d); cbn; eexists tt, _; split; reflexivity.
Qed.

Lemma held_dev_begin ad : triple held (dev_begin T ad) (fun _ => held).
Proof.
  intros [d b tr] Hw. unfold held in Hw; cbn in Hw.
  unfold dev_begin, with_dev, bind, get_drv; cbn. rewrite Hw; cbn.
  destruct (t_begin T ad b) as [ok b']. eexists ok, _.
  split; [reflexivity | exact Hw].
Qed.

Lemma held_dev_write buf : triple held (dev_write T buf) (fun _ => held).
Proof.
  intros [d b tr] Hw. unfold held in Hw; cbn in Hw.
  unfold dev_write, with_dev, bind, get_drv; cbn. rewrite Hw; cbn.
  destruct (t_write T buf b) as [ok b']. eexists ok, _.
  split; [reflexivity | exact Hw].
Qed.

Lemma held_dev_write_then_read buf len :
  triple held (dev_write_then_read T buf len) (fun _ => held).
Proof.
  intros [d b tr] Hw. unfold held in Hw; cbn in Hw.
  unfold dev_write_then_read, with_dev, bind, get_drv; cbn. rewrite Hw; cbn.
  destruct (t_write_then_read T buf len b) as [[ok data] b'].
  eexists (ok, data), _. split; [reflexivity | exact Hw].
Qed.

Lemma held_read8 addr : triple held (read8 T addr) (fun _ => held).
Proof.
  unfold read8. eapply triple_bind; [apply held_dev_write_then_read |].
  intros [ok data]; cbn. destruct ok; cbn; apply triple_ret; auto.
Qed.

Lemma held_write8 addr d : triple held (write8 T addr d) (fun _ => held).
Proof.
  unfold write8. eapply triple_bind; [apply held_dev_write |].
  intros ok. apply triple_ret; auto.
Qed.

Lemma held_ret {A} (a : A) : triple held (ret T a) (fun _ => held).
Proof. apply triple_ret; auto. Qed.

Lemma held_if {A} (b : bool) (c1 c2 : M T A) :
  triple held c1 (fun _ => held) -> triple held c2 (fun _ => held) ->
  triple held (if b then c1 else c2) (fun _ => held).
Proof. destruct b; auto. Qed.

Lemma held_delay ms : triple held (delay T ms) (fun _ => held).
Proof. apply triple_log. auto. Qed.

Lemma held_setOscillatorFrequency f :
  triple held (setOscillatorFrequency T f) (fun _ => held).
Proof.
  intros [d b tr] Hw. eexists tt, _. split; [reflexivity | exact Hw].
Qed.

Lemma held_set_prescale p :
  triple held (set_prescale T p) (fun _ => held).
Proof.
  intros [d b tr] Hw. eexists tt, _. split; [reflexivity | exact Hw].
Qed.

Lemma held_readPrescale : triple held (readPrescale T) (fun _ => held).
Proof.
  unfold readPrescale. eapply triple_bind; [apply held_read8 |].
  intros r. destruct (success r); apply triple_ret; auto.
Qed.

End Run.

Create HintDb held.
#[local] Hint Resolve held_dev_begin held_dev_write held_dev_write_then_read
  held_read8 held_write8 held_delay held_setOscillatorFrequency
  held_set_prescale held_readPrescale held_renew_dev held_ret held_if : held.

(** Splits a defined run of a method into the runs of its steps. *)
Ltac run_step H :=
  match type of H with
  | bind _ _ _ _ = Some _ =>
      let a := fresh "a" in
      let w := fresh "w" in
      let H1 := fresh "R" in
      apply bind_Some in H; destruct H as (a & w & H1 & H)
  end.

(** Steps through a method that keeps the device pointer. *)
Ltac held_steps :=
  repeat first
    [ eapply triple_bind; [solve [eauto with held] | intros ?]
    | apply triple_if; intros ? ].

(** ** C10: barebones initialization *)

(** Claim C10.  [beginBarebones] returns [true] in every world and on every
    transport: the results of the bus acquisition, of the read of MODE1 and
    of the write of MODE1 play no part in what it returns. *)
Theorem beginBarebones_always_true :
  forall (T : Transport) (w : world T),
    exists w', beginBarebones T w = Some (true, w').
Proof.
  intros T w.
  assert (H : triple T (fun _ => True) (beginBarebones T)
                     (fun r _ => r = true)).
  { unfold beginBarebones.
    eapply triple_bind; [apply held_renew_dev | intros ?].
    held_steps; try (apply triple_ret; auto).
  }
  destruct (H w I) as (r & w' & E & ->). eauto.
Qed.

(** ** C4: duty to ticks *)

(** Claim C4.  [setPin] on a value, clamped to at most 4095, is [setPWM] on
    the pair the spec gives: fully on (4096, 0) for 4095, or for 0 when
    inverted; fully off (0, 4096) for 0, or for 4095 when inverted; (0, v)
    or, inverted, (0, 4095 - v) otherwise.  The two sentinel pairs go out as
    the bytes 0, 16, 0, 0 and 0, 0, 0, 16 after the register address. *)
Theorem setPin_duty_ticks :
  forall (T : Transport) (num val : Z) (invert : bool) (w : world T),
    let v := Z.min val 4095 in
    setPin T num val invert w =
      setPWM T num (fst (duty_ticks v invert)) (snd (duty_ticks v invert)) w
    /\ duty_ticks 4095 false = fully_on /\ duty_ticks 0 true = fully_on
    /\ duty_ticks 0 false = fully_off /\ duty_ticks 4095 true = fully_off
    /\ setPWM T num (fst fully_on) (snd fully_on) w =
         dev_write T [u8 (PCA9685_LED0_ON_L + 4 * num); 0; 16; 0; 0] w
    /\ setPWM T num (fst fully_off) (snd fully_off) w =
         dev_write T [u8 (PCA9685_LED0_ON_L + 4 * num); 0; 0; 0; 16] w.
Proof.
  intros T num val invert w v.
  split; [| repeat split].
  unfold setPin, duty_ticks. fold v.
  destruct invert; destruct (v =? 0); destruct (v =? 4095); reflexivity.
Qed.

(** ** Frame lemmas: what a bus call leaves alone *)

Section Frame.

Variable T : Transport.

Lemma dev_write_inv buf (w w' : world T) r :
  dev_write T buf w = Some (r, w') ->
  drv w' = drv w /\ trace w' = trace w ++ [EvWrite buf r].
Proof.
  unfold dev_write. intros H. apply with_dev_Some in H as [_ H].
  destruct (t_write T buf (bus w)) as [ok b]. inversion H; subst.
  auto.
Qed.

Lemma dev_write_then_read_inv buf len (w w' : world T) r :
  dev_write_then_read T buf len w = Some (r, w') ->
  drv w' = drv w /\
  trace w' = trace w ++ [EvWriteThenRead buf len (fst r) (snd r)].
Proof.
  unfold dev_write_then_read. intros H. apply with_dev_Some in H as [_ H].
  destruct (t_write_then_read T buf len (bus w)) as [[ok data] b].
  inversion H; subst. auto.
Qed.

Lemma dev_begin_inv ad (w w' : world T) r :
  dev_begin T ad w = Some (r, w') ->
  drv w' = drv w /\ trace w' = trace w ++ [EvBegin ad r].
Proof.
  unfold dev_begin. intros H. apply with_dev_Some in H as [_ H].
  destruct (t_begin T ad (bus w)) as [ok b]. inversion H; subst.
  auto.
Qed.

Lemma lift_option_inv {A} (o : option A) (w w' : world T) a :
  lift_option T o w = Some (a, w') -> o = Some a /\ w' = w.
Proof.
  destruct o; cbn; unfold ret, undefined; intros H; inversion H; auto.
Qed.

Lemma setPWM_inv num on off (w w' : world T) r :
  setPWM T num on off w = Some (r, w') -> drv w' = drv w.
Proof. intros H. now apply dev_write_inv in H. Qed.

End Frame.

(** ** C5: the prescaler is written asleep *)

Section Guard.

Variable T : Transport.

Local Abbreviation emits := (emits T).

Lemma guard_app tr1 tr2 s :
  guard s (tr1 ++ tr2) =
  match guard s tr1 with Some s' => guard s' tr2 | None => None end.
Proof.
  revert s. induction tr1 as [|ev tr1 IH]; intros s; cbn; [reflexivity |].
  destruct (writes_register PCA9685_PRESCALE ev && negb s);
    [reflexivity | apply IH].
Qed.

(** The check implies the property on the log. *)
Lemma guard_sound_from tr :
  forall (init : option Z) s,
    guard (match init with Some d => sleep_bit d | None => false end) tr
    = Some s ->
    forall pre ev post,
      tr = pre ++ ev :: post ->
      writes_register PCA9685_PRESCALE ev = true ->
      exists mode,
        fold_left (fun acc ev =>
                     match mode1_written ev with
                     | Some d => Some d
                     | None => acc
                     end) pre init = Some mode
        /\ sleep_bit mode = true.
Proof.
  induction tr as [|e tr IH]; intros init s G pre ev post E W.
  - destruct pre; discriminate.
  - cbn in G.
    destruct pre as [|e' pre]; cbn in E; inversion E; subst; clear E.
    + rewrite W in G. cbn.
      destruct init as [d|]; cbn in G.
      * destruct (sleep_bit d) eqn:S; [eauto | discriminate].
      * discriminate.
    + cbn.
      destruct (writes_register PCA9685_PRESCALE e' &&
                negb match init with
                     | Some d => sleep_bit d
                     | None => false
                     end); [discriminate |].
      destruct (mode1_written e') as [d|] eqn:M1.
      * apply (IH (Some d) s G pre ev post eq_refl W).
      * apply (IH init s G pre ev post eq_refl W).
Qed.

Lemma guard_sound tr s :
  guard false tr = Some s -> prescale_written_asleep tr.
Proof.
  intros G pre ev post E W.
  apply (guard_sound_from tr None s G pre ev post E W).
Qed.

Lemma emits_weaken {A} (c : M T A) (P Q : list event -> Prop) :
  emits c P -> (forall seg, P seg -> Q seg) -> emits c Q.
Proof.
  intros H HPQ w a w' E. destruct (H w a w' E) as (seg & E' & HP).
  eauto.
Qed.

Lemma emits_ret {A} (a : A) (P : list event -> Prop) :
  P [] -> emits (ret T a) P.
Proof.
  intros HP w a' w' E. inversion E; subst. exists [].
  now rewrite app_nil_r.
Qed.

Lemma emits_bind {A B} (c : M T A) (k : A -> M T B)
      (P Q R : list event -> Prop) :
  emits c P -> (forall a, emits (k a) Q) ->
  (forall s1 s2, P s1 -> Q s2 -> R (s1 ++ s2)) ->
  emits (bind T c k) R.
Proof.
  intros Hc Hk HR w b w'' E. apply bind_Some in E as (a & w' & E1 & E2).
  destruct (Hc w a w' E1) as (s1 & T1 & H1).
  destruct (Hk a w' b w'' E2) as (s2 & T2 & H2).
  exists (s1 ++ s2). split; [| auto].
  now rewrite T2, T1, app_assoc.
Qed.

Lemma quiet_app s1 s2 : quiet s1 -> quiet s2 -> quiet (s1 ++ s2).
Proof. apply Forall_app_2 || (intros; apply Forall_app; auto). Qed.

Lemma quiet_passes seg P : quiet seg -> passes P any seg.
Proof.
  intros Hq s _. revert s.
  induction Hq as [|ev seg Hev _ IH]; intros s; cbn.
  - exists s. split; [reflexivity | exact I].
  - rewrite Hev. cbn. apply IH.
Qed.

Lemma passes_app P Q R s1 s2 :
  passes P Q s1 -> passes Q R s2 -> passes P R (s1 ++ s2).
Proof.
  intros H1 H2 s Hs. destruct (H1 s Hs) as (s' & G1 & Hs').
  destruct (H2 s' Hs') as (s'' & G2 & Hs'').
  exists s''. split; [| exact Hs'']. now rewrite guard_app, G1.
Qed.

Lemma passes_weaken (P P' Q Q' : bool -> Prop) seg :
  passes P' Q' seg -> (forall s, P s -> P' s) -> (forall s, Q' s -> Q s) ->
  passes P Q seg.
Proof.
  intros H HP HQ s Hs. destruct (H s (HP s Hs)) as (s' & G & Hs').
  eauto.
Qed.

Lemma emits_bind_quiet {A B} (c : M T A) (k : A -> M T B) :
  emits c quiet -> (forall a, emits (k a) quiet) ->
  emits (bind T c k) quiet.
Proof.
  intros Hc Hk. eapply emits_bind; eauto using quiet_app.
Qed.

Lemma emits_bind_passes {A B} (c : M T A) (k : A -> M T B) P Q R :
  emits c (passes P Q) -> (forall a, emits (k a) (passes Q R)) ->
  emits (bind T c k) (passes P R).
Proof.
  intros Hc Hk. eapply emits_bind; eauto using passes_app.
Qed.

Lemma emits_if {A} (b : bool) (c1 c2 : M T A) P :
  emits c1 P -> emits c2 P -> emits (if b then c1 else c2) P.
Proof. destruct b; auto. Qed.

(** *** The primitives *)

Lemma quiet_ret {A} (a : A) : emits (ret T a) quiet.
Proof. apply emits_ret. constructor. Qed.

Lemma quiet_get_drv : emits (get_drv T) quiet.
Proof.
  intros w a w' E. inversion E; subst. exists [].
  rewrite app_nil_r. split; [reflexivity | constructor].
Qed.

Lemma quiet_put_drv d : emits (put_drv T d) quiet.
Proof.
  intros w a w' E. inversion E; subst. exists []. cbn.
  rewrite app_nil_r. split; [reflexivity | constructor].
Qed.

Lemma quiet_lift_option {A} (o : option A) : emits (lift_option T o) quiet.
Proof.
  intros w a w' E. apply lift_option_inv in E as [_ ->]. exists [].
  rewrite app_nil_r. split; [reflexivity | constructor].
Qed.

Lemma quiet_log ev :
  writes_register PCA9685_PRESCALE ev = false -> emits (log T ev) quiet.
Proof.
  intros Hev w a w' E. inversion E; subst. exists [ev]. cbn.
  split; [reflexivity | repeat constructor; exact Hev].
Qed.

Lemma quiet_dev_begin ad : emits (dev_begin T ad) quiet.
Proof.
  intros w a w' E. apply dev_begin_inv in E as [_ E]. eexists.
  split; [exact E | repeat constructor].
Qed.

Lemma quiet_dev_write_then_read buf len :
  emits (dev_write_then_read T buf len) quiet.
Proof.
  intros w a w' E. apply dev_write_then_read_inv in E as [_ E]. eexists.
  split; [exact E | repeat constructor].
Qed.

Lemma quiet_dev_write buf :
  writes_register PCA9685_PRESCALE (EvWrite buf true) = false ->
  emits (dev_write T buf) quiet.
Proof.
  intros Hb w a w' E. apply dev_write_inv in E as [_ E]. eexists.
  split; [exact E | repeat constructor]. destruct buf; exact Hb.
Qed.

End Guard.

Create HintDb quiet.
#[local] Hint Resolve quiet_get_drv quiet_put_drv quiet_lift_option
  quiet_dev_begin quiet_dev_write_then_read quiet_ret : quiet.
#[local] Hint Extern 1 (emits _ (log _ _) _) =>
  apply quiet_log; reflexivity : quiet.

(** Steps through a method whose calls all leave PRESCALE alone. *)
Ltac quiet_steps :=
  repeat first
    [ solve [eauto with quiet]
    | progress cbv zeta
    | match goal with
      | |- emits _ (bind _ _ _) _ => apply emits_bind_quiet; [| intros ?]
      | |- emits _ (if _ then _ else _) _ => apply emits_if
      | |- emits _ (match ?x with _ => _ end) _ => destruct x
      end ].

Section GuardMethods.

Variable T : Transport.

Lemma quiet_set_prescale p : emits T (set_prescale T p) (quiet).
Proof. unfold set_prescale. quiet_steps. Qed.

Lemma quiet_set_i2c_dev b : emits T (set_i2c_dev T b) (quiet).
Proof. unfold set_i2c_dev. quiet_steps. Qed.

Lemma quiet_delay ms : emits T (delay T ms) quiet.
Proof. apply quiet_log. reflexivity. Qed.

Lemma quiet_renew_dev : emits T (renew_dev T) quiet.
Proof.
  unfold renew_dev. quiet_steps. apply quiet_set_i2c_dev.
Qed.

Lemma quiet_read8 addr : emits T (read8 T addr) quiet.
Proof. unfold read8. quiet_steps. Qed.

Hint Resolve quiet_set_prescale quiet_set_i2c_dev quiet_delay
  quiet_renew_dev quiet_read8 : quiet.

Lemma quiet_readPrescale : emits T (readPrescale T) quiet.
Proof. unfold readPrescale. quiet_steps. Qed.

Lemma u8_range z : 0 <= u8 z < 256.
Proof. apply Z.mod_pos_bound. lia. Qed.

Lemma quiet_write8 addr d :
  u8 addr <> PCA9685_PRESCALE -> emits T (write8 T addr d) quiet.
Proof.
  intros Ha. unfold write8. quiet_steps. apply quiet_dev_write.
  unfold writes_register, PCA9685_PRESCALE in *.
  change (Z.of_nat (length [u8 d])) with 1.
  rewrite andb_false_iff, Z.leb_gt, Z.ltb_ge.
  pose proof (u8_range addr). lia.
Qed.

Lemma quiet_setOscillatorFrequency f :
  emits T (setOscillatorFrequency T f) quiet.
Proof. unfold setOscillatorFrequency. quiet_steps. Qed.

Lemma quiet_setPWM num on off :
  0 <= num <= 15 -> emits T (setPWM T num on off) quiet.
Proof.
  intros Hn. apply quiet_dev_write.
  unfold writes_register, PCA9685_LED0_ON_L, PCA9685_PRESCALE.
  match goal with
  | |- context [Z.of_nat (length ?l)] => change (Z.of_nat (length l)) with 4
  end.
  unfold u8. rewrite (Z.mod_small (6 + 4 * num)) by lia.
  rewrite andb_false_iff, Z.leb_gt, Z.ltb_ge. lia.
Qed.

Lemma quiet_setAllOff : emits T (setAllOff T) quiet.
Proof. apply quiet_dev_write. reflexivity. Qed.

(** A write of MODE1 decides the sleep state. *)
Lemma passes_write8_MODE1 d P :
  emits T (write8 T PCA9685_MODE1 d)
        (passes P (fun s => s = sleep_bit (u8 d))).
Proof.
  unfold write8. intros w a w' E. run_step E. inversion E; subst.
  apply dev_write_inv in R as [_ R]. eexists. split; [exact R |].
  intros s _. eexists. split; reflexivity.
Qed.

(** A write of PRESCALE passes when asleep. *)
Lemma passes_write8_PRESCALE p :
  emits T (write8 T PCA9685_PRESCALE p) (passes (asleep) (asleep)).
Proof.
  unfold write8. intros w a w' E. run_step E. inversion E; subst.
  apply dev_write_inv in R as [_ R]. eexists. split; [exact R |].
  intros s ->. exists true. split; reflexivity.
Qed.

Lemma emits_quiet_passes {A} (c : M T A) P :
  emits T c quiet -> emits T c (passes P any).
Proof. intros H. eapply emits_weaken; eauto using quiet_passes. Qed.

Lemma sleep_bit_testbit (x : Z) : sleep_bit x = Z.testbit x 4.
Proof.
  unfold sleep_bit, MODE1_SLEEP. change 16 with (2 ^ 4).
  destruct (Z.testbit x 4) eqn:B.
  - destruct (Z.eqb_spec (Z.land x (2 ^ 4)) 0) as [E|]; [| reflexivity].
    assert (B' : Z.testbit (Z.land x (2 ^ 4)) 4 = true)
      by (rewrite Z.land_spec, B, Z.pow2_bits_true by lia; reflexivity).
    rewrite E, Z.bits_0 in B'. discriminate.
  - replace (Z.land x (2 ^ 4)) with 0; [reflexivity |].
    symmetry. apply Z.bits_inj'. intros n Hn.
    rewrite Z.bits_0, Z.land_spec.
    destruct (Z.eq_dec n 4) as [->|Hn4].
    + now rewrite B.
    + rewrite Z.pow2_bits_false by lia. apply andb_false_r.
Qed.

Lemma testbit_u8 (x n : Z) : 0 <= n < 8 -> Z.testbit (u8 x) n = Z.testbit x n.
Proof.
  intros Hn. unfold u8. change 256 with (2 ^ 8).
  apply Z.mod_pow2_bits_low. lia.
Qed.

Lemma u8_idem (x : Z) : u8 (u8 x) = u8 x.
Proof. unfold u8. apply Z.mod_mod. lia. Qed.

Lemma sleep_bit_set (x : Z) :
  sleep_bit (u8 (Z.lor x MODE1_SLEEP)) = true.
Proof.
  rewrite sleep_bit_testbit, testbit_u8, Z.lor_spec by lia.
  apply orb_true_r.
Qed.

Lemma sleep_bit_kept (x : Z) :
  sleep_bit x = true -> sleep_bit (u8 (Z.lor x MODE1_EXTCLK)) = true.
Proof.
  rewrite !sleep_bit_testbit. intros H.
  rewrite testbit_u8, Z.lor_spec, H by lia. reflexivity.
Qed.

Lemma passes_setExtClk prescale :
  emits T (setExtClk T prescale) (passes any any).
Proof.
  unfold setExtClk.
  eapply emits_bind_passes;
    [apply emits_quiet_passes, quiet_read8 | intros r].
  eapply emits_bind_passes; [apply passes_write8_MODE1 | intros ?].
  eapply emits_bind_passes; [apply passes_write8_MODE1 | intros ?].
  eapply emits_bind_passes.
  { eapply emits_weaken; [apply passes_write8_PRESCALE |].
    intros seg H. eapply passes_weaken; [exact H | | intros s Hs; exact Hs].
    intros s ->. unfold asleep. rewrite u8_idem.
    apply sleep_bit_kept, sleep_bit_set. }
  intros ?.
  eapply emits_bind_passes;
    [apply emits_quiet_passes, quiet_delay | intros ?].
  eapply emits_weaken; [apply passes_write8_MODE1 with (P := any) |].
  intros seg H. eapply passes_weaken; [exact H | auto | intros; exact I].
Qed.

Lemma passes_setPWMFreq freq :
  emits T (setPWMFreq T freq) (passes any any).
Proof.
  unfold setPWMFreq.
  eapply emits_bind_passes;
    [apply emits_quiet_passes, quiet_get_drv | intros d].
  eapply emits_bind_passes;
    [apply emits_quiet_passes, quiet_lift_option | intros p].
  eapply emits_bind_passes;
    [apply emits_quiet_passes, quiet_read8 | intros r].
  eapply emits_bind_passes; [apply passes_write8_MODE1 | intros ?].
  eapply emits_bind_passes.
  { eapply emits_weaken; [apply passes_write8_PRESCALE |].
    intros seg H. eapply passes_weaken; [exact H | | intros s Hs; exact Hs].
    intros s ->. unfold asleep. rewrite u8_idem.
    apply sleep_bit_set. }
  intros ?.
  eapply emits_bind_passes.
  { eapply emits_weaken; [apply passes_write8_MODE1 with (P := asleep) |].
    intros seg H. eapply passes_weaken with (Q := any);
      [exact H | auto | intros; exact I]. }
  intros ?.
  apply emits_quiet_passes. quiet_steps.
  - apply quiet_write8. discriminate.
  - apply quiet_readPrescale.
Qed.

Hint Resolve quiet_readPrescale quiet_setOscillatorFrequency
  quiet_setAllOff : quiet.
Hint Extern 1 (emits _ (write8 _ _ _) _) =>
  apply quiet_write8; discriminate : quiet.
Hint Extern 1 (emits _ (setPWM _ _ _ _) _) =>
  apply quiet_setPWM; assumption : quiet.

Lemma quiet_reset : emits T (reset T) quiet.
Proof. unfold reset. quiet_steps. Qed.

Lemma quiet_sleep : emits T (sleep T) quiet.
Proof. unfold sleep. quiet_steps. Qed.

Lemma quiet_wakeup : emits T (wakeup T) quiet.
Proof. unfold wakeup. quiet_steps. Qed.

Lemma quiet_setOutputMode b : emits T (setOutputMode T b) quiet.
Proof. unfold setOutputMode. quiet_steps. Qed.

Lemma quiet_getPWM num off : emits T (getPWM T num off) quiet.
Proof. unfold getPWM. quiet_steps. Qed.

Lemma quiet_setPin num v invert :
  0 <= num <= 15 -> emits T (setPin T num v invert) quiet.
Proof. intros Hn. unfold setPin. quiet_steps. Qed.

Lemma quiet_writeMicroseconds num us :
  0 <= num <= 15 -> emits T (writeMicroseconds T num us) quiet.
Proof. intros Hn. unfold writeMicroseconds. quiet_steps. Qed.

Lemma quiet_beginBarebones : emits T (beginBarebones T) quiet.
Proof. unfold beginBarebones. quiet_steps. Qed.

Lemma quiet_isFreqSet f : emits T (isFreqSet T f) quiet.
Proof. unfold isFreqSet. quiet_steps. Qed.

Lemma quiet_getOscillatorFrequency :
  emits T (getOscillatorFrequency T) quiet.
Proof. unfold getOscillatorFrequency. quiet_steps. Qed.

Lemma passes_begin prescale : emits T (begin T prescale) (passes any any).
Proof.
  unfold begin.
  eapply emits_bind_passes;
    [apply emits_quiet_passes, quiet_renew_dev | intros ?].
  eapply emits_bind_passes;
    [apply emits_quiet_passes, quiet_dev_begin | intros ok].
  apply emits_if; [apply emits_quiet_passes, quiet_ret |].
  eapply emits_bind_passes;
    [apply emits_quiet_passes, quiet_reset | intros ?].
  eapply emits_bind_passes with (Q := any).
  { apply emits_if; [apply passes_setPWMFreq | apply passes_setExtClk]. }
  intros ?. apply emits_quiet_passes. quiet_steps.
Qed.

(** A command that does not program the prescaler does not write it. *)
Lemma quiet_exec c :
  channel_ok c -> programs_prescale c = false -> emits T (exec T c) quiet.
Proof.
  intros Hc Hp.
  destruct c; try discriminate; cbn in Hc;
    cbv beta iota delta [exec done];
    quiet_steps;
    auto using quiet_reset, quiet_sleep, quiet_wakeup, quiet_setOutputMode,
      quiet_getPWM, quiet_setPin, quiet_writeMicroseconds,
      quiet_beginBarebones, quiet_isFreqSet, quiet_getOscillatorFrequency.
Qed.

Lemma passes_exec c : channel_ok c -> emits T (exec T c) (passes any any).
Proof.
  intros Hc. destruct (programs_prescale c) eqn:Hp.
  - destruct c; try discriminate; cbv beta iota delta [exec done].
    + eapply emits_bind_passes; [apply passes_begin | intros ?].
      apply emits_quiet_passes, quiet_ret.
    + apply passes_setExtClk.
    + apply passes_setPWMFreq.
  - apply emits_quiet_passes, quiet_exec; assumption.
Qed.

Lemma passes_run cs :
  Forall channel_ok cs -> emits T (run T cs) (passes any any).
Proof.
  induction 1 as [|c cs Hc _ IH]; cbn [run].
  - apply emits_quiet_passes, quiet_ret.
  - eapply emits_bind_passes; [apply passes_exec, Hc | intros ?; exact IH].
Qed.

Lemma quiet_run cs :
  Forall channel_ok cs ->
  Forall (fun c => programs_prescale c = false) cs ->
  emits T (run T cs) quiet.
Proof.
  induction 1 as [|c cs Hc _ IH]; intros Hp; cbn [run].
  - apply quiet_ret.
  - inversion Hp; subst.
    apply emits_bind_quiet; [apply quiet_exec; assumption | intros ?; auto].
Qed.

End GuardMethods.

(** Claim C5, as stated, fails outside the sixteen channels: [setPWM] does
    not check its channel, and for channel 62 its write starts at the
    PRESCALE register.  After [begin] the chip is awake, so the run of
    [begin] and [setPWM] on channel 62 writes PRESCALE while the most recent
    write of MODE1 has the sleep bit clear. *)
Lemma prescale_written_awake :
  result (run Chip.transport [CBegin 0; CSetPWM 62 0 0]) Chip.fresh
  = Some tt
  /\ ~ prescale_written_asleep
        (trace (after (run Chip.transport [CBegin 0; CSetPWM 62 0 0])
                      Chip.fresh)).
Proof.
  split; [vm_compute; reflexivity |].
  intros H.
  specialize
    (H (firstn 12 (trace (after (run Chip.transport
                                      [CBegin 0; CSetPWM 62 0 0])
                                Chip.fresh)))
       (nth 12 (trace (after (run Chip.transport
                                   [CBegin 0; CSetPWM 62 0 0])
                             Chip.fresh)) EvDelete)
       (skipn 13 (trace (after (run Chip.transport
                                     [CBegin 0; CSetPWM 62 0 0])
                               Chip.fresh)))).
  destruct H as (mode & Hm & Hs).
  - vm_compute. reflexivity.
  - vm_compute. reflexivity.
  - vm_compute in Hm. inversion Hm; subst mode.
    vm_compute in Hs. discriminate Hs.
Qed.

(** Claim C5, amended.  Start with an empty log and run any sequence of
    calls of the public methods, on the sixteen channels, on any transport.
    In the log, every write of the PRESCALE register comes after a write of
    MODE1, and the most recent write of MODE1 before it set the sleep bit.
    The prescaler is written by [setPWMFreq] and [setExtClk] only (also
    when [begin] calls them): a sequence without these three writes no
    PRESCALE at all. *)
Theorem prescale_only_written_asleep :
  forall (T : Transport) (cs : list command) (w w' : world T),
    Forall channel_ok cs ->
    trace w = [] ->
    run T cs w = Some (tt, w') ->
    prescale_written_asleep (trace w')
    /\ (Forall (fun c => programs_prescale c = false) cs ->
        Forall (fun ev => writes_register PCA9685_PRESCALE ev = false)
               (trace w')).
Proof.
  intros T cs w w' Hcs Hw E. split.
  - destruct (passes_run T cs Hcs w tt w' E) as (seg & Htr & Hseg).
    rewrite Hw in Htr. cbn in Htr. rewrite Htr.
    destruct (Hseg false I) as (s & G & _).
    eapply guard_sound; eauto.
  - intros Hp.
    destruct (quiet_run T cs Hcs Hp w tt w' E) as (seg & Htr & Hseg).
    rewrite Hw in Htr. cbn in Htr. rewrite Htr. exact Hseg.
Qed.

Lemma prescale_only_written_asleep_witness :
  Forall channel_ok session
  /\ trace Chip.fresh = []
  /\ prescale_written_asleep
       (trace (after (run Chip.transport session) Chip.fresh)).
Proof.
  assert (Hc : Forall channel_ok session)
    by (repeat constructor; cbn; lia).
  split; [exact Hc |]. split; [reflexivity |].
  apply (prescale_only_written_asleep Chip.transport session Chip.fresh
           (after (run Chip.transport session) Chip.fresh) Hc eq_refl).
  vm_compute. reflexivity.
Defined.

(** Outside the sixteen channels the address byte of [setPWM] wraps: for
    channel 62 it is the PRESCALE register. *)
Lemma setPWM_channel_62 :
  forall (T : Transport) (on off : Z) (w w' : world T) (r : bool),
    setPWM T 62 on off w = Some (r, w') ->
    exists ev, trace w' = trace w ++ [ev]
               /\ writes_register PCA9685_PRESCALE ev = true.
Proof.
  intros T on off w w' r H. apply dev_write_inv in H as [_ H].
  eexists. split; [exact H | reflexivity].
Qed.

(** ** Rounding to nearest even, from the definitions of [SpecFloat] *)

Section RoundingBasics.

Local Open Scope Q_scope.

Lemma pow2_pos e : 0 < pow2 e.
Proof. apply Qpower_0_lt. reflexivity. Qed.

Lemma pow2_add a b : pow2 (a + b) == pow2 a * pow2 b.
Proof. apply Qpower_plus. discriminate. Qed.

Lemma pow2_le a b : (a <= b)%Z -> pow2 a <= pow2 b.
Proof. intros H. apply Qpower_le_compat_l; [exact H | discriminate]. Qed.

Lemma pow2_lt a b : (a < b)%Z -> pow2 a < pow2 b.
Proof. intros H. apply Qpower_lt_compat_l; [exact H | reflexivity]. Qed.

Lemma pow2_Z n : (0 <= n)%Z -> inject_Z (2 ^ n) == pow2 n.
Proof. intros H. apply (Zpower_Qpower 2 n H). Qed.

Lemma pow2_succ e : pow2 (e + 1) == 2 * pow2 e.
Proof. rewrite pow2_add. change (pow2 1) with (2#1). lra. Qed.

Lemma pow2_opp e : pow2 e * pow2 (- e) == 1.
Proof. rewrite <- pow2_add. replace (e + - e)%Z with 0%Z by lia. reflexivity. Qed.

Lemma Qfloor_eq y n : inject_Z n <= y < inject_Z (n + 1) -> Qfloor y = n.
Proof.
  intros [H1 H2].
  pose proof (Qfloor_le y). pose proof (Qlt_floor y).
  assert (inject_Z (Qfloor y) < inject_Z (n + 1)) by lra.
  assert (inject_Z n < inject_Z (Qfloor y + 1)) by lra.
  rewrite <- Zlt_Qlt in *. lia.
Qed.

Lemma rne_between y : (Qfloor y <= rne y <= Qfloor y + 1)%Z.
Proof.
  unfold rne. destruct (Qcompare _ _); try destruct (Z.even _); lia.
Qed.

Lemma rne_mono y y' : y <= y' -> (rne y <= rne y')%Z.
Proof.
  intros H. pose proof (Qfloor_resp_le _ _ H) as Hf.
  destruct (Z.eq_dec (Qfloor y) (Qfloor y')) as [E|N].
  - unfold rne. rewrite <- E.
    destruct (Qcompare_spec (y - inject_Z (Qfloor y)) (1#2));
    destruct (Qcompare_spec (y' - inject_Z (Qfloor y)) (1#2));
    try destruct (Z.even (Qfloor y)); try lia; lra.
  - pose proof (rne_between y). pose proof (rne_between y'). lia.
Qed.

Lemma rne_Z k : rne (inject_Z k) = k.
Proof.
  unfold rne. rewrite Qfloor_Z.
  destruct (Qcompare_spec (inject_Z k - inject_Z k) (1#2)); try lra; reflexivity.
Qed.

Lemma rne_le y k : y <= inject_Z k -> (rne y <= k)%Z.
Proof. intros H. rewrite <- (rne_Z k). now apply rne_mono. Qed.

Lemma rne_ge y k : inject_Z k <= y -> (k <= rne y)%Z.
Proof. intros H. rewrite <- (rne_Z k). now apply rne_mono. Qed.

Lemma rne_comp y y' : y == y' -> rne y = rne y'.
Proof. intros H. apply Z.le_antisymm; apply rne_mono; lra. Qed.

Lemma inloc_bounds y m l : inloc y m l -> inject_Z m <= y < inject_Z m + 1.
Proof. destruct l as [|[]]; cbn; lra. Qed.

Lemma inloc_comp y y' m l : y == y' -> inloc y m l -> inloc y' m l.
Proof. intros E. destruct l as [|[]]; cbn; lra. Qed.

Lemma inrec_of_loc y m l : inloc y m l -> inrec y (shr_record_of_loc m l).
Proof. destruct l as [|[]]; cbn; auto. Qed.

Lemma inject_Z_xO p : inject_Z (Z.pos p~0) == 2 * inject_Z (Z.pos p).
Proof. rewrite <- (inject_Z_mult 2). reflexivity. Qed.

Lemma inject_Z_xI p : inject_Z (Z.pos p~1) == 2 * inject_Z (Z.pos p) + 1.
Proof.
  change (Z.pos p~1) with (2 * Z.pos p + 1)%Z.
  rewrite inject_Z_plus, inject_Z_mult. reflexivity.
Qed.

Lemma shr_1_inrec y mrs :
  (0 <= shr_m mrs)%Z -> inrec y mrs ->
  inrec (y * (1 # 2)) (shr_1 mrs) /\ (0 <= shr_m (shr_1 mrs))%Z.
Proof.
  destruct mrs as [m r s]. unfold inrec. cbn [shr_m]. intros Hm H.
  destruct m as [|p|p]; [| | lia].
  - destruct r, s; cbn in *; change (inject_Z 0) with 0 in *;
      split; try lia; lra.
  - destruct p as [p|p|].
    + pose proof (inject_Z_xI p).
      destruct r, s; cbn -[inject_Z] in *; split; try lia; lra.
    + pose proof (inject_Z_xO p).
      destruct r, s; cbn -[inject_Z] in *; split; try lia; lra.
    + destruct r, s; cbn in *; change (inject_Z 0) with 0 in *;
        change (inject_Z 1) with 1 in *; split; try lia; lra.
Qed.

Lemma iter_pos_shr_1 p :
  forall y mrs,
    (0 <= shr_m mrs)%Z -> inrec y mrs ->
    inrec (y * pow2 (- Z.pos p)) (iter_pos shr_1 p mrs)
    /\ (0 <= shr_m (iter_pos shr_1 p mrs))%Z.
Proof.
  induction p as [p IH|p IH|]; intros y mrs Hm H; cbn [iter_pos].
  - destruct (shr_1_inrec y mrs Hm H) as [H1 Hm1].
    destruct (IH _ _ Hm1 H1) as [H2 Hm2].
    destruct (IH _ _ Hm2 H2) as [H3 Hm3].
    split; [| exact Hm3].
    assert (E : y * pow2 (- Z.pos p~1)
                == y * (1 # 2) * pow2 (- Z.pos p) * pow2 (- Z.pos p)).
    { replace (- Z.pos p~1)%Z with (-1 + (- Z.pos p + - Z.pos p))%Z by lia.
      rewrite !pow2_add. change (pow2 (-1)) with (1 # 2). ring. }
    eapply inloc_comp; [symmetry; exact E | exact H3].
  - destruct (IH _ _ Hm H) as [H2 Hm2].
    destruct (IH _ _ Hm2 H2) as [H3 Hm3].
    split; [| exact Hm3].
    assert (E : y * pow2 (- Z.pos p~0)
                == y * pow2 (- Z.pos p) * pow2 (- Z.pos p)).
    { replace (- Z.pos p~0)%Z with (- Z.pos p + - Z.pos p)%Z by lia.
      rewrite !pow2_add. ring. }
    eapply inloc_comp; [symmetry; exact E | exact H3].
  - destruct (shr_1_inrec y mrs Hm H) as [H1 Hm1].
    split; [| exact Hm1]. change (pow2 (- 1)) with (1 # 2). exact H1.
Qed.

Lemma digits2_size p : digits2_pos p = Pos.size p.
Proof. induction p; cbn; congruence. Qed.

Lemma Zdigits2_log2 p : Zdigits2 (Z.pos p) = (Z.log2 (Z.pos p) + 1)%Z.
Proof.
  cbn [Zdigits2]. rewrite digits2_size.
  destruct p; cbn; lia.
Qed.

Lemma Zdigits2_bounds p :
  let d := Zdigits2 (Z.pos p) in
  (1 <= d)%Z /\ (2 ^ (d - 1) <= Z.pos p < 2 ^ d)%Z.
Proof.
  cbv zeta. rewrite Zdigits2_log2.
  pose proof (Z.log2_nonneg (Z.pos p)).
  pose proof (Z.log2_spec (Z.pos p) ltac:(lia)).
  replace (Z.log2 (Z.pos p) + 1 - 1)%Z with (Z.log2 (Z.pos p)) by lia.
  replace (Z.log2 (Z.pos p) + 1)%Z with (Z.succ (Z.log2 (Z.pos p))) by lia.
  split; [lia | assumption].
Qed.

Lemma Zdigits2_unique (m d : Z) :
  (2 ^ (d - 1) <= m < 2 ^ d)%Z -> (1 <= d)%Z -> Zdigits2 m = d.
Proof.
  intros H Hd. assert (0 < m)%Z by (pose proof (Z.pow_pos_nonneg 2 (d-1)); lia).
  destruct m as [|p|p]; try lia.
  rewrite Zdigits2_log2.
  assert (Z.log2 (Z.pos p) = d - 1)%Z; [| lia].
  apply Z.log2_unique; [lia |].
  replace (Z.succ (d - 1)) with d by lia. exact H.
Qed.

Lemma inrec_Z k mrs : inrec (inject_Z k) mrs -> shr_m mrs = k.
Proof.
  intros H. apply inloc_bounds in H.
  assert (inject_Z (shr_m mrs) < inject_Z (k + 1)).
  { rewrite inject_Z_plus. change (inject_Z 1) with 1. lra. }
  assert (inject_Z k < inject_Z (shr_m mrs + 1)).
  { rewrite inject_Z_plus. change (inject_Z 1) with 1. lra. }
  rewrite <- Zlt_Qlt in *. lia.
Qed.

Lemma round_nearest_even_rne y mrs :
  inrec y mrs ->
  round_nearest_even (shr_m mrs) (loc_of_shr_record mrs) = rne y.
Proof.
  unfold inrec. intros H.
  assert (F : Qfloor y = shr_m mrs).
  { apply Qfloor_eq. apply inloc_bounds in H.
    rewrite inject_Z_plus. change (inject_Z 1) with 1. lra. }
  unfold rne. rewrite F.
  destruct (loc_of_shr_record mrs) as [|[]]; cbn in *;
    destruct (Qcompare_spec (y - inject_Z (shr_m mrs)) (1 # 2));
    try lra; reflexivity.
Qed.

Lemma pow2_le_inv a b : pow2 a <= pow2 b -> (a <= b)%Z.
Proof. intros H. apply (Qpower_le_compat_l_inv (2#1)); [exact H | reflexivity]. Qed.

Lemma pow2_lt_inv a b : pow2 a < pow2 b -> (a < b)%Z.
Proof. intros H. apply (Qpower_lt_compat_l_inv (2#1)); [exact H | reflexivity]. Qed.

Lemma SFle_trans a b c : SFle a b -> SFle b c -> SFle a c.
Proof.
  destruct a as [?|[]| |], b as [?|[]| |], c as [?|[]| |];
    cbn -[inject_Z cond_Zopp]; try tauto; lra.
Qed.

Lemma SFle_zero_zero s s' : SFle (S754_zero s) (S754_zero s').
Proof. cbn. lra. Qed.

Lemma iter_xO_pow (m d : positive) :
  Z.pos (Pos.iter xO m d) = (Z.pos m * 2 ^ Z.pos d)%Z.
Proof.
  change (Pos.iter xO m d) with (shift_pos d m).
  rewrite shift_pos_correct, Zpower_pos_nat, Zpower_nat_Z, positive_nat_Z.
  lia.
Qed.

Lemma Zdigits2_shift (m : positive) (d : Z) :
  (0 <= d)%Z -> Zdigits2 (Z.pos m * 2 ^ d) = (Zdigits2 (Z.pos m) + d)%Z.
Proof.
  intros Hd. destruct (Zdigits2_bounds m) as [H1 [Hlo Hhi]].
  set (dm := Zdigits2 (Z.pos m)) in *.
  assert (0 < 2 ^ d)%Z by (apply Z.pow_pos_nonneg; lia).
  apply Zdigits2_unique; [| lia].
  replace (dm + d - 1)%Z with (dm - 1 + d)%Z by lia.
  rewrite !Z.pow_add_r by lia. nia.
Qed.

Lemma new_location_spec (nb k q : Z) (y : Q) :
  (0 < nb)%Z -> (0 <= k < nb)%Z ->
  y * inject_Z nb == inject_Z (q * nb + k) ->
  inloc y q (new_location nb k).
Proof.
  intros Hnb Hk Hy.
  rewrite inject_Z_plus, inject_Z_mult in Hy.
  assert (HN : 0 < inject_Z nb)
    by (change 0 with (inject_Z 0); now rewrite <- Zlt_Qlt).
  assert (HK : 0 <= inject_Z k < inject_Z nb).
  { change 0 with (inject_Z 0). rewrite <- Zle_Qle, <- Zlt_Qlt. exact Hk. }
  assert (C : forall a b : Z, (2 * inject_Z a < inject_Z b <-> (2 * a < b)%Z)
                              /\ (2 * inject_Z a == inject_Z b <-> (2 * a = b)%Z)).
  { intros a b. change 2 with (inject_Z 2). rewrite <- inject_Z_mult.
    rewrite <- Zlt_Qlt, inject_Z_injective. tauto. }
  destruct (C k nb) as [Clt Ceq].
  set (N := inject_Z nb) in *. set (K := inject_Z k) in *.
  assert (Hcmp : match Z.compare (2 * k) nb with
                 | Lt => 2 * K < N | Eq => 2 * K == N | Gt => N < 2 * K end).
  { destruct (Z.compare_spec (2 * k) nb) as [E|L|G].
    - now apply Ceq.
    - now apply Clt.
    - destruct (Qlt_le_dec N (2 * K)) as [|Hle]; [assumption |].
      exfalso. apply Qle_lteq in Hle as [Hl|He].
      + apply Clt in Hl. lia.
      + apply Ceq in He. lia. }
  assert (Hk0 : (k =? 0)%Z = true -> K == 0).
  { intros E. apply Z.eqb_eq in E. unfold K. now rewrite E. }
  assert (Hk1 : (k =? 0)%Z = false -> 0 < K).
  { intros E. apply Z.eqb_neq in E. unfold K. change 0 with (inject_Z 0).
    rewrite <- Zlt_Qlt. lia. }
  clearbody N K. clear C.
  unfold new_location, new_location_even, new_location_odd.
  destruct (Z.even nb) eqn:Ev; destruct (k =? 0)%Z eqn:Ek;
    try (specialize (Hk0 eq_refl)); try (specialize (Hk1 eq_refl)).
  - cbn. apply (Qmult_inj_r _ _ N); lra.
  - destruct (Z.compare (2 * k) nb); cbn; nra.
  - cbn. apply (Qmult_inj_r _ _ N); lra.
  - destruct (Z.compare_spec (2 * k + 1) nb) as [E|L|G].
    + assert (2 * K < N) by (apply Clt; lia). cbn. nra.
    + assert (2 * K < N) by (apply Clt; lia). cbn. nra.
    + assert (N < 2 * K).
      { destruct (Z.compare_spec (2 * k) nb) as [E|L|G']; try lia; try assumption.
        rewrite <- E, Z.even_mul in Ev. discriminate. }
      cbn. nra.
Qed.

Lemma pow2_inv e : pow2 e == / pow2 (- e).
Proof.
  pose proof (pow2_opp e). pose proof (pow2_pos (- e)).
  apply (Qmult_inj_r _ _ (pow2 (- e))); [lra |].
  rewrite H. field. lra.
Qed.

Lemma scaled_lt X e k : X < pow2 (e + k) -> X * pow2 (- e) < pow2 k.
Proof.
  intros H. pose proof (pow2_pos (- e)) as Hp.
  assert (E : pow2 k == pow2 (e + k) * pow2 (- e)).
  { rewrite <- pow2_add. replace (e + k + - e)%Z with k by lia. reflexivity. }
  rewrite E. set (a := pow2 (e + k)) in *. set (b := pow2 (- e)) in *.
  clearbody a b. nra.
Qed.

Lemma scaled_le X e k : pow2 (e + k) <= X -> pow2 k <= X * pow2 (- e).
Proof.
  intros H. pose proof (pow2_pos (- e)) as Hp.
  assert (E : pow2 k == pow2 (e + k) * pow2 (- e)).
  { rewrite <- pow2_add. replace (e + k + - e)%Z with k by lia. reflexivity. }
  rewrite E. set (a := pow2 (e + k)) in *. set (b := pow2 (- e)) in *.
  clearbody a b. nra.
Qed.

Lemma Zpos_pow2_bounds (m : positive) :
  pow2 (Zdigits2 (Z.pos m) - 1) <= inject_Z (Z.pos m)
  /\ inject_Z (Z.pos m) + 1 <= pow2 (Zdigits2 (Z.pos m)).
Proof.
  destruct (Zdigits2_bounds m) as [Hd [Hlo Hhi]].
  set (d := Zdigits2 (Z.pos m)) in *. split.
  - rewrite <- pow2_Z by lia. now rewrite <- Zle_Qle.
  - rewrite <- pow2_Z by lia. change 1 with (inject_Z 1).
    rewrite <- inject_Z_plus, <- Zle_Qle. lia.
Qed.

Lemma Zpos_Q_pos (m : positive) e : 0 < inject_Z (Z.pos m) * pow2 e.
Proof.
  apply Qmult_lt_0_compat; [| apply pow2_pos].
  change 0 with (inject_Z 0). now rewrite <- Zlt_Qlt.
Qed.

Lemma shl_align_spec mx ex ex' :
  let '(mz, ez) := shl_align mx ex ex' in
  inject_Z (Z.pos mz) * pow2 ez == inject_Z (Z.pos mx) * pow2 ex
  /\ (Zdigits2 (Z.pos mz) + ez = Zdigits2 (Z.pos mx) + ex)%Z
  /\ ez = Z.min ex ex'.
Proof.
  unfold shl_align. destruct (ex' - ex)%Z as [|d|d] eqn:E.
  - split; [reflexivity |]. split; lia.
  - split; [reflexivity |]. split; lia.
  - rewrite iter_xO_pow. rewrite Zdigits2_shift by lia.
    split; [| split; lia].
    rewrite inject_Z_mult, pow2_Z by lia.
    rewrite <- Qmult_assoc, <- pow2_add.
    now replace (Z.pos d + ex')%Z with ex by lia.
Qed.

Lemma aligned_value s (m : positive) e ez :
  (ez <= e)%Z ->
  inject_Z (cond_Zopp s (Z.pos (fst (shl_align m e ez)))) * pow2 ez
  == SF2Q (S754_finite s m e).
Proof.
  intros Hz. pose proof (shl_align_spec m e ez) as H.
  destruct (shl_align m e ez) as [mz ez']. destruct H as (V & _ & Ez).
  cbn [fst SF2Q]. replace ez' with ez in V by lia.
  destruct s; cbn [cond_Zopp]; rewrite ?inject_Z_opp; lra.
Qed.

End RoundingBasics.

Section Rounding.

Local Open Scope Q_scope.

Variables prec emax : Z.
Hypothesis Hprec : (0 < prec)%Z.
Hypothesis Hemax : (prec < emax)%Z.

Abbreviation emin := (SpecFloat.emin prec emax).
Abbreviation fexp := (SpecFloat.fexp prec emax).

#[local] Set Default Proof Using "Hprec Hemax".

Lemma shr_fexp_spec mx ex lx X :
  (0 <= mx)%Z ->
  inloc (X * pow2 (- ex)) mx lx ->
  (ex <= fexp (Zdigits2 mx + ex))%Z ->
  exists mrs,
    shr_fexp prec emax mx ex lx = (mrs, fexp (Zdigits2 mx + ex))
    /\ inrec (X * pow2 (- fexp (Zdigits2 mx + ex))) mrs
    /\ (0 <= shr_m mrs)%Z.
Proof.
  intros Hm Hl He. unfold shr_fexp, shr.
  set (e := fexp (Zdigits2 mx + ex)) in *.
  assert (Hrec : inrec (X * pow2 (- ex)) (shr_record_of_loc mx lx))
    by now apply inrec_of_loc.
  assert (Hm0 : (0 <= shr_m (shr_record_of_loc mx lx))%Z)
    by (destruct lx as [|[]]; exact Hm).
  destruct (e - ex)%Z as [|p|p] eqn:En.
  - exists (shr_record_of_loc mx lx). replace e with ex by lia. auto.
  - destruct (iter_pos_shr_1 p _ _ Hm0 Hrec) as [H1 H2].
    eexists. split; [| split; [| exact H2]].
    + f_equal. lia.
    + eapply inloc_comp; [| exact H1].
      replace (- e)%Z with (- ex + - Z.pos p)%Z by lia.
      rewrite pow2_add. ring.
  - lia.
Qed.

Lemma canon_exp_digits mx ex lx X :
  0 < X -> (0 <= mx)%Z ->
  inloc (X * pow2 (- ex)) mx lx ->
  (ex <= fexp (Zdigits2 mx + ex))%Z ->
  canon_exp prec emax X (fexp (Zdigits2 mx + ex)).
Proof.
  intros HX Hm Hl He. apply inloc_bounds in Hl.
  assert (HXe : X == X * pow2 (- ex) * pow2 ex).
  { rewrite <- Qmult_assoc, (Qmult_comm (pow2 (- ex))), pow2_opp. ring. }
  pose proof (pow2_pos ex) as Hpe.
  set (t := X * pow2 (- ex)) in *. clearbody t.
  unfold canon_exp, SpecFloat.fexp in *.
  destruct mx as [|p|p]; [| | lia].
  - cbn [Zdigits2] in *. left.
    assert (ex <= emin)%Z by lia.
    split; [lia |].
    change (inject_Z 0) with 0 in Hl.
    assert (X < pow2 ex) by nra.
    pose proof (pow2_le ex (emin + prec) ltac:(lia)). lra.
  - destruct (Zdigits2_bounds p) as [Hd1 [Hlo Hhi]].
    set (d := Zdigits2 (Z.pos p)) in *.
    assert (Hlo' : pow2 (d - 1) <= inject_Z (Z.pos p)).
    { rewrite <- pow2_Z by lia. now rewrite <- Zle_Qle. }
    assert (Hhi' : inject_Z (Z.pos p) + 1 <= pow2 d).
    { rewrite <- pow2_Z by lia. change 1 with (inject_Z 1).
      rewrite <- inject_Z_plus, <- Zle_Qle. lia. }
    assert (B1 : pow2 (d - 1 + ex) <= X).
    { rewrite pow2_add. nra. }
    assert (B2 : X < pow2 (d + ex)).
    { rewrite pow2_add. nra. }
    destruct (Z_le_gt_dec (d + ex - prec) emin) as [Hc|Hc];
      [rewrite Z.max_r by lia | rewrite Z.max_l by lia].
    + left. split; [reflexivity |].
      pose proof (pow2_le (d + ex) (emin + prec) ltac:(lia)). lra.
    + right. split; [lia |].
      replace (d + ex - prec + prec - 1)%Z with (d - 1 + ex)%Z by lia.
      replace (d + ex - prec + prec)%Z with (d + ex)%Z by lia.
      split; assumption.
Qed.

Lemma canon_exp_ge X e : canon_exp prec emax X e -> (emin <= e)%Z.
Proof. intros [[-> _]|[H _]]; lia. Qed.

Lemma canon_exp_lt X e : canon_exp prec emax X e -> X < pow2 (e + prec).
Proof. intros [[-> H]|[_ [_ H]]]; exact H. Qed.

Lemma rne_bounds X e :
  0 < X -> canon_exp prec emax X e ->
  (0 <= rne (X * pow2 (- e)) <= 2 ^ prec)%Z
  /\ ((emin < e)%Z -> (2 ^ (prec - 1) <= rne (X * pow2 (- e)))%Z).
Proof.
  intros HX Hc. pose proof (canon_exp_lt _ _ Hc) as Hlt.
  apply scaled_lt in Hlt. pose proof (pow2_pos (- e)) as Hp.
  repeat split.
  - apply rne_ge. change (inject_Z 0) with 0. nra.
  - apply rne_le. rewrite pow2_Z by lia. lra.
  - intros He. destruct Hc as [[-> _]|[_ [Hlo _]]]; [lia |].
    apply rne_ge. rewrite pow2_Z by lia.
    apply scaled_le. now replace (e + (prec - 1))%Z with (e + prec - 1)%Z by lia.
Qed.

Lemma Zdigits2_le m : (0 < m < 2 ^ prec)%Z -> (Zdigits2 m <= prec)%Z.
Proof.
  intros [H0 H1]. destruct m as [|p|p]; try lia.
  destruct (Zdigits2_bounds p) as [Hd [Hlo _]].
  set (d := Zdigits2 (Z.pos p)) in *.
  assert (2 ^ (d - 1) < 2 ^ prec)%Z by lia.
  apply Z.pow_lt_mono_r_iff in H; lia.
Qed.

Lemma Zdigits2_ge m : (2 ^ (prec - 1) <= m)%Z -> (prec <= Zdigits2 m)%Z.
Proof.
  intros H. assert (0 < 2 ^ (prec - 1))%Z by (apply Z.pow_pos_nonneg; lia).
  destruct m as [|p|p]; try lia.
  destruct (Zdigits2_bounds p) as [Hd [_ Hhi]].
  set (d := Zdigits2 (Z.pos p)) in *.
  assert (2 ^ (prec - 1) < 2 ^ d)%Z by lia.
  apply Z.pow_lt_mono_r_iff in H1; lia.
Qed.

(** The exponent and the mantissa after the second normalisation. *)
Lemma renormalize m e :
  (emin <= e)%Z -> (0 <= m <= 2 ^ prec)%Z ->
  ((emin < e)%Z -> (2 ^ (prec - 1) <= m)%Z) ->
  exists mrs,
    shr_fexp prec emax m e loc_Exact =
      (mrs, if (m =? 2 ^ prec)%Z then (e + 1)%Z else e)
    /\ shr_m mrs = if (m =? 2 ^ prec)%Z then (2 ^ (prec - 1))%Z else m.
Proof.
  intros He Hm Hn.
  assert (Hp : (0 < 2 ^ (prec - 1))%Z) by (apply Z.pow_pos_nonneg; lia).
  assert (H2 : (2 ^ prec = 2 * 2 ^ (prec - 1))%Z).
  { replace prec with (Z.succ (prec - 1)) at 1 by lia.
    apply Z.pow_succ_r. lia. }
  assert (E2 : fexp (Zdigits2 m + e)
               = if (m =? 2 ^ prec)%Z then (e + 1)%Z else e).
  { unfold SpecFloat.fexp. destruct (Z.eqb_spec m (2 ^ prec)) as [->|Hne].
    - rewrite (Zdigits2_unique (2 ^ prec) (prec + 1)); try lia.
      replace (prec + 1 - 1)%Z with prec by lia.
      split; [lia |]. replace (prec + 1)%Z with (Z.succ prec) by lia.
      rewrite Z.pow_succ_r by lia. lia.
    - destruct (Z.eq_dec m 0) as [->|Hm0].
      + cbn [Zdigits2]. assert (e = emin) by lia. lia.
      + pose proof (Zdigits2_le m ltac:(lia)).
        destruct (Z.eq_dec e emin) as [->|]; [lia |].
        pose proof (Zdigits2_ge m ltac:(apply Hn; lia)). lia. }
  destruct (shr_fexp_spec m e loc_Exact (inject_Z m * pow2 e)) as
    (mrs & E & Hrec & _).
  - lia.
  - cbn. rewrite <- Qmult_assoc, pow2_opp. ring.
  - rewrite E2. destruct (m =? 2 ^ prec)%Z; lia.
  - exists mrs. rewrite E2 in E, Hrec. split; [exact E |].
    apply inrec_Z. eapply inloc_comp; [| exact Hrec].
    destruct (Z.eqb_spec m (2 ^ prec)) as [->|Hne].
    + replace (- (e + 1))%Z with (- e + - 1)%Z by lia.
      rewrite pow2_add, Qmult_assoc, <- (Qmult_assoc _ (pow2 e)), pow2_opp.
      rewrite H2, inject_Z_mult. change (pow2 (-1)) with (1 # 2).
      change (inject_Z 2) with 2. ring.
    + rewrite <- Qmult_assoc, pow2_opp. ring.
Qed.

Theorem binary_round_aux_spec sx mx ex lx X :
  0 < X -> (0 <= mx)%Z ->
  inloc (X * pow2 (- ex)) mx lx ->
  (ex <= fexp (Zdigits2 mx + ex))%Z ->
  exists e, canon_exp prec emax X e
            /\ binary_round_aux prec emax sx mx ex lx
               = finish prec emax sx (rne (X * pow2 (- e))) e.
Proof.
  intros HX Hm Hl He.
  destruct (shr_fexp_spec mx ex lx X Hm Hl He) as (mrs & E1 & Hrec & Hm1).
  pose proof (canon_exp_digits mx ex lx X HX Hm Hl He) as Hc.
  set (e := fexp (Zdigits2 mx + ex)) in *.
  exists e. split; [exact Hc |].
  unfold binary_round_aux. rewrite E1.
  rewrite (round_nearest_even_rne _ _ Hrec).
  destruct (rne_bounds X e HX Hc) as [Hb Hn].
  destruct (renormalize _ e (canon_exp_ge _ _ Hc) Hb Hn) as (mrs2 & E2 & Hm2).
  rewrite E2, Hm2. unfold finish.
  destruct (rne (X * pow2 (- e)) =? 2 ^ prec)%Z; reflexivity.
Qed.

Lemma emin_lt : (emin < emax - prec)%Z.
Proof. unfold SpecFloat.emin. lia. Qed.

(** What [finish] returns, by the rounded value. *)
Lemma finish_cases sx m e :
  (emin <= e)%Z -> (0 <= m <= 2 ^ prec)%Z ->
  ((emin < e)%Z -> (2 ^ (prec - 1) <= m)%Z) ->
  (m = 0%Z /\ finish prec emax sx m e = S754_zero sx)
  \/ (0 < inject_Z m * pow2 e /\ pow2 emax <= inject_Z m * pow2 e
      /\ finish prec emax sx m e = S754_infinity sx)
  \/ (0 < inject_Z m * pow2 e /\ inject_Z m * pow2 e < pow2 emax
      /\ exists p e2, finish prec emax sx m e = S754_finite sx p e2
                      /\ bounded prec emax p e2 = true
                      /\ inject_Z (Z.pos p) * pow2 e2 == inject_Z m * pow2 e).
Proof.
  intros He Hm Hn. pose proof emin_lt as Hlt.
  assert (Hp : (0 < 2 ^ (prec - 1))%Z) by (apply Z.pow_pos_nonneg; lia).
  assert (H2 : (2 ^ prec = 2 * 2 ^ (prec - 1))%Z).
  { replace prec with (Z.succ (prec - 1)) at 1 by lia.
    apply Z.pow_succ_r. lia. }
  pose proof (pow2_pos e) as Hpe.
  unfold finish.
  destruct (Z.eqb_spec m (2 ^ prec)) as [->|Hne].
  - (* carry: the mantissa is [2^prec] *)
    right.
    assert (V : inject_Z (2 ^ prec) * pow2 e == pow2 (e + 1 + (prec - 1))).
    { rewrite pow2_Z by lia. rewrite <- pow2_add. now replace (prec + e)%Z with (e + 1 + (prec - 1))%Z by lia. }
    assert (V' : inject_Z (2 ^ (prec - 1)) * pow2 (e + 1)
                 == inject_Z (2 ^ prec) * pow2 e).
    { rewrite V, pow2_Z by lia. rewrite <- pow2_add.
      now replace (prec - 1 + (e + 1))%Z with (e + 1 + (prec - 1))%Z by lia. }
    destruct (2 ^ (prec - 1))%Z as [|p|p] eqn:Ep; try lia.
    destruct (Z.leb_spec (e + 1) (emax - prec)) as [Hle|Hgt].
    + right. split; [rewrite V; apply pow2_pos |]. split.
      * rewrite V. apply pow2_lt. lia.
      * exists p, (e + 1)%Z. split; [reflexivity |]. split; [| exact V'].
        unfold bounded, canonical_mantissa.
        apply andb_true_intro. split; [| now apply Z.leb_le].
        apply Z.eqb_eq. change (Z.pos (digits2_pos p)) with (Zdigits2 (Z.pos p)).
        rewrite (Zdigits2_unique (Z.pos p) prec); unfold SpecFloat.fexp; lia.
    + left. split; [rewrite V; apply pow2_pos |]. split; [| reflexivity].
      rewrite V. apply pow2_le. lia.
  - destruct m as [|p|p]; [left; auto | right | lia].
    assert (Hpos : 0 < inject_Z (Z.pos p) * pow2 e).
    { apply Qmult_lt_0_compat; [| exact Hpe].
      change 0 with (inject_Z 0). rewrite <- Zlt_Qlt. lia. }
    assert (Hup : inject_Z (Z.pos p) * pow2 e < pow2 (prec + e)).
    { rewrite pow2_add, <- (pow2_Z prec) by lia.
      apply Qmult_lt_compat_r; [exact Hpe |]. rewrite <- Zlt_Qlt. lia. }
    destruct (Z.leb_spec e (emax - prec)) as [Hle|Hgt].
    + right. split; [exact Hpos |]. split.
      * pose proof (pow2_le (prec + e) emax ltac:(lia)). lra.
      * exists p, e. split; [reflexivity |]. split; [| reflexivity].
        unfold bounded, canonical_mantissa.
        apply andb_true_intro. split; [| now apply Z.leb_le].
        apply Z.eqb_eq. change (Z.pos (digits2_pos p)) with (Zdigits2 (Z.pos p)).
        pose proof (Zdigits2_le (Z.pos p) ltac:(lia)).
        unfold SpecFloat.fexp.
        destruct (Z.eq_dec e emin) as [->|]; [lia |].
        pose proof (Zdigits2_ge (Z.pos p) ltac:(apply Hn; lia)). lia.
    + left. split; [exact Hpos |]. split; [| reflexivity].
      assert (pow2 (prec - 1 + e) <= inject_Z (Z.pos p) * pow2 e).
      { rewrite pow2_add, <- (pow2_Z (prec - 1)) by lia.
        apply Qmult_le_compat_r; [| lra]. rewrite <- Zle_Qle. apply Hn. lia. }
      pose proof (pow2_le emax (prec - 1 + e) ltac:(lia)). lra.
Qed.

Lemma rounds_pos_cases sx X r :
  0 < X -> rounds_pos prec emax sx X r ->
  exists e, canon_exp prec emax X e /\
  ((rv X e == 0 /\ r = S754_zero sx)
   \/ (pow2 emax <= rv X e /\ r = S754_infinity sx)
   \/ (0 < rv X e < pow2 emax
       /\ exists p e2, r = S754_finite sx p e2
                       /\ bounded prec emax p e2 = true
                       /\ inject_Z (Z.pos p) * pow2 e2 == rv X e)).
Proof.
  intros HX (e & Hc & ->). exists e. split; [exact Hc |].
  destruct (rne_bounds X e HX Hc) as [Hb Hn].
  destruct (finish_cases sx _ e (canon_exp_ge _ _ Hc) Hb Hn)
    as [[E0 E]|[(Hp & Ho & E)|(Hp & Ho & E)]]; unfold rv.
  - left. split; [rewrite E0; ring | exact E].
  - right. left. auto.
  - right. right. auto.
Qed.

Lemma rv_mono X Y e e' :
  0 < X -> X <= Y -> canon_exp prec emax X e -> canon_exp prec emax Y e' -> rv X e <= rv Y e'.
Proof.
  intros HX HXY Hc Hc'. assert (HY : 0 < Y) by lra.
  destruct (rne_bounds X e HX Hc) as [Hb Hn].
  destruct (rne_bounds Y e' HY Hc') as [Hb' Hn'].
  pose proof (canon_exp_ge _ _ Hc) as He.
  pose proof (canon_exp_lt _ _ Hc) as Hlt.
  unfold rv.
  destruct (Z.lt_trichotomy e e') as [L|[<-|G]].
  - (* a lower binade *)
    assert (U : inject_Z (rne (X * pow2 (- e))) * pow2 e <= pow2 (prec + e)).
    { rewrite pow2_add, <- (pow2_Z prec) by lia.
      apply Qmult_le_compat_r; [| pose proof (pow2_pos e); lra].
      rewrite <- Zle_Qle. lia. }
    assert (D : pow2 (prec - 1 + e')
                <= inject_Z (rne (Y * pow2 (- e'))) * pow2 e').
    { rewrite pow2_add, <- (pow2_Z (prec - 1)) by lia.
      apply Qmult_le_compat_r; [| pose proof (pow2_pos e'); lra].
      rewrite <- Zle_Qle. apply Hn'. lia. }
    pose proof (pow2_le (prec + e) (prec - 1 + e') ltac:(lia)). lra.
  - apply Qmult_le_compat_r; [| pose proof (pow2_pos e); lra].
    rewrite <- Zle_Qle. apply rne_mono.
    apply Qmult_le_compat_r; [exact HXY | pose proof (pow2_pos (- e)); lra].
  - exfalso. destruct Hc as [[-> _]|[_ [Hlo _]]].
    + pose proof (canon_exp_ge _ _ Hc'). lia.
    + pose proof (canon_exp_lt _ _ Hc') as Hlt'.
      pose proof (pow2_le (e' + prec) (e + prec - 1) ltac:(lia)). lra.
Qed.

(** The sign and the validity of a rounded positive value. *)
Lemma rounds_pos_valid sx X r :
  0 < X -> rounds_pos prec emax sx X r ->
  valid_binary prec emax r = true /\ is_nan r = false.
Proof.
  intros HX H. destruct (rounds_pos_cases sx X r HX H)
    as (e & Hc & [[_ ->]|[[_ ->]|(_ & p & e2 & -> & Hb & _)]]); cbn; auto.
Qed.

Lemma rounds_pos_false_mono X Y r r' :
  0 < X -> X <= Y -> rounds_pos prec emax false X r -> rounds_pos prec emax false Y r' ->
  SFle r r'.
Proof.
  intros HX HXY H H'. assert (HY : 0 < Y) by lra.
  destruct (rounds_pos_cases _ _ _ HX H) as (e & Hc & C).
  destruct (rounds_pos_cases _ _ _ HY H') as (e' & Hc' & C').
  pose proof (rv_mono X Y e e' HX HXY Hc Hc') as Hv.
  pose proof (pow2_pos emax) as Hpe.
  destruct C as [[V ->]|[[V ->]|(V & p & e2 & -> & _ & E)]];
    destruct C' as [[V' ->]|[[V' ->]|(V' & p' & e2' & -> & _ & E')]];
    cbn -[inject_Z]; try exact I; try lra.
Qed.

Lemma rounds_pos_true_mono X Y r r' :
  0 < X -> X <= Y -> rounds_pos prec emax true X r -> rounds_pos prec emax true Y r' ->
  SFle r' r.
Proof.
  intros HX HXY H H'. assert (HY : 0 < Y) by lra.
  destruct (rounds_pos_cases _ _ _ HX H) as (e & Hc & C).
  destruct (rounds_pos_cases _ _ _ HY H') as (e' & Hc' & C').
  pose proof (rv_mono X Y e e' HX HXY Hc Hc') as Hv.
  pose proof (pow2_pos emax) as Hpe.
  destruct C as [[V ->]|[[V ->]|(V & p & e2 & -> & _ & E)]];
    destruct C' as [[V' ->]|[[V' ->]|(V' & p' & e2' & -> & _ & E')]];
    cbn -[inject_Z cond_Zopp]; try exact I; try lra;
    unfold cond_Zopp; rewrite ?inject_Z_opp; try lra.
Qed.

Lemma rounds_pos_false_sign X r :
  0 < X -> rounds_pos prec emax false X r -> SFle (S754_zero false) r.
Proof.
  intros HX H. destruct (rounds_pos_cases _ _ _ HX H)
    as (e & Hc & [[_ ->]|[[_ ->]|(V & p & e2 & -> & _ & E)]]);
    cbn -[inject_Z]; try exact I; lra.
Qed.

Lemma rounds_pos_true_sign X r :
  0 < X -> rounds_pos prec emax true X r -> SFle r (S754_zero false).
Proof.
  intros HX H. destruct (rounds_pos_cases _ _ _ HX H)
    as (e & Hc & [[_ ->]|[[_ ->]|(V & p & e2 & -> & _ & E)]]);
    cbn -[inject_Z cond_Zopp]; try exact I;
    unfold cond_Zopp; rewrite ?inject_Z_opp; lra.
Qed.

Lemma rounds_valid q r :
  rounds prec emax q r -> valid_binary prec emax r = true /\ is_nan r = false.
Proof.
  intros [[_ [s ->]]|[[Hq H]|[Hq H]]].
  - auto.
  - eapply rounds_pos_valid; eauto.
  - eapply rounds_pos_valid; [| eauto]. lra.
Qed.

Theorem rounds_mono q q' r r' :
  q <= q' -> rounds prec emax q r -> rounds prec emax q' r' -> SFle r r'.
Proof.
  intros Hq [[Z1 [s ->]]|[[P1 H1]|[N1 H1]]] [[Z2 [s' ->]]|[[P2 H2]|[N2 H2]]];
    try (exfalso; lra).
  - apply SFle_zero_zero.
  - eapply SFle_trans; [apply (SFle_zero_zero s false) |].
    apply (rounds_pos_false_sign q' r' P2 H2).
  - apply (rounds_pos_false_mono q q' r r' P1 Hq H1 H2).
  - eapply SFle_trans; [| apply (SFle_zero_zero false s')].
    apply (rounds_pos_true_sign (- q) r); [lra | exact H1].
  - eapply SFle_trans.
    + apply (rounds_pos_true_sign (- q) r); [lra | exact H1].
    + apply (rounds_pos_false_sign q' r' P2 H2).
  - apply (rounds_pos_true_mono (- q') (- q) r' r); [lra | lra | exact H2 | exact H1].
Qed.

(** *** Rounding a mantissa and an exponent *)

Lemma fexp_le k : (emin <= fexp k)%Z /\ (k - prec <= fexp k)%Z.
Proof. unfold SpecFloat.fexp. lia. Qed.

Theorem binary_round_spec sx mx ex :
  rounds_pos prec emax sx (inject_Z (Z.pos mx) * pow2 ex)
             (binary_round prec emax sx mx ex).
Proof.
  unfold binary_round.
  pose proof (shl_align_spec mx ex (fexp (Z.pos (digits2_pos mx) + ex))) as H.
  destruct (shl_align mx ex _) as [mz ez]. destruct H as (V & D & Ez).
  change (Z.pos (digits2_pos mx)) with (Zdigits2 (Z.pos mx)) in *.
  apply binary_round_aux_spec; auto.
  - apply Qmult_lt_0_compat; [| apply pow2_pos].
    change 0 with (inject_Z 0). now rewrite <- Zlt_Qlt.
  - lia.
  - cbn. rewrite <- V, <- Qmult_assoc, pow2_opp. ring.
  - rewrite D. lia.
Qed.

Theorem binary_normalize_spec m e szero :
  rounds prec emax (inject_Z m * pow2 e) (binary_normalize prec emax m e szero).
Proof.
  pose proof (pow2_pos e) as Hp.
  destruct m as [|p|p]; cbn [binary_normalize].
  - left. split; [ring | eauto].
  - right. left. split; [| apply binary_round_spec].
    apply Qmult_lt_0_compat; [| exact Hp].
    change 0 with (inject_Z 0). now rewrite <- Zlt_Qlt.
  - right. right.
    assert (E : - (inject_Z (Z.neg p) * pow2 e) == inject_Z (Z.pos p) * pow2 e).
    { change (Z.neg p) with (- Z.pos p)%Z. rewrite inject_Z_opp. ring. }
    split.
    + assert (0 < inject_Z (Z.pos p) * pow2 e); [| lra].
      apply Qmult_lt_0_compat; [| exact Hp].
      change 0 with (inject_Z 0). now rewrite <- Zlt_Qlt.
    + destruct (binary_round_spec true p e) as (e' & Hc & ->).
      exists e'. split.
      * destruct Hc as [[-> H]|[H1 H2]]; [left | right]; split; auto; lra.
      * f_equal. apply rne_comp. rewrite E. reflexivity.
Qed.

(** *** Division *)

Lemma SFdiv_core_spec mx ex my ey X :
  X * (inject_Z (Z.pos my) * pow2 ey) == inject_Z (Z.pos mx) * pow2 ex ->
  let '(mz, ez, lz) := SFdiv_core_binary prec emax (Z.pos mx) ex (Z.pos my) ey in
  (0 <= mz)%Z /\ inloc (X * pow2 (- ez)) mz lz
  /\ (ez <= fexp (Zdigits2 mz + ez))%Z.
Proof.
  intros HX. unfold SFdiv_core_binary.
  set (d1 := Zdigits2 (Z.pos mx)). set (d2 := Zdigits2 (Z.pos my)).
  set (e' := Z.min (fexp (d1 + ex - (d2 + ey))) (ex - ey)).
  set (s := (ex - ey - e')%Z).
  assert (Hs : (0 <= s)%Z) by (unfold s, e'; lia).
  set (m' := match s with
             | 0%Z => Z.pos mx
             | Z.pos _ => Z.shiftl (Z.pos mx) s
             | Z.neg _ => 0%Z
             end).
  assert (Em : m' = (Z.pos mx * 2 ^ s)%Z).
  { unfold m'. destruct s as [|p|p] eqn:Es; [lia | | lia].
    apply Z.shiftl_mul_pow2. lia. }
  clearbody m'. subst m'.
  pose proof (Z_div_mod (Z.pos mx * 2 ^ s) (Z.pos my) ltac:(lia)) as Hdiv.
  destruct (Z.div_eucl (Z.pos mx * 2 ^ s) (Z.pos my)) as [q r].
  destruct Hdiv as [Hqr Hr].
  assert (Hq : (0 <= q)%Z).
  { assert (0 <= Z.pos mx * 2 ^ s)%Z by (apply Z.mul_nonneg_nonneg; lia). nia. }
  pose proof (pow2_opp ey) as P1.
  pose proof (pow2_pos ey) as Pey. pose proof (pow2_pos (- e')) as Pe'.
  assert (Ey : X * pow2 (- e') * inject_Z (Z.pos my)
               == inject_Z (Z.pos mx * 2 ^ s)).
  { rewrite inject_Z_mult, pow2_Z by lia.
    assert (Es : pow2 s == pow2 ex * (pow2 (- ey) * pow2 (- e'))).
    { rewrite <- !pow2_add. now replace (ex + (- ey + - e'))%Z with s by (unfold s; lia). }
    rewrite Es.
    transitivity (inject_Z (Z.pos mx) * pow2 ex * (pow2 (- ey) * pow2 (- e')));
      [| ring].
    rewrite <- HX.
    transitivity (X * pow2 (- e') * inject_Z (Z.pos my)
                  * (pow2 ey * pow2 (- ey))); [rewrite P1 |]; ring. }
  split; [exact Hq |].
  assert (Hloc : inloc (X * pow2 (- e')) q (new_location (Z.pos my) r)).
  { apply new_location_spec; [lia | exact Hr |].
    rewrite Ey, inject_Z_injective. lia. }
  split; [exact Hloc |].
  apply inloc_bounds in Hloc.
  destruct (Zpos_pow2_bounds mx) as [Lx _].
  destruct (Zpos_pow2_bounds my) as [_ Uy]. fold d1 in Lx. fold d2 in Uy.
  assert (HMY : 0 < inject_Z (Z.pos my))
    by (change 0 with (inject_Z 0); now rewrite <- Zlt_Qlt).
  assert (Hy : pow2 (d1 - 1 + s - d2) < X * pow2 (- e')).
  { assert (E : pow2 (d1 - 1 + s) == pow2 (d1 - 1 + s - d2) * pow2 d2).
    { rewrite <- pow2_add. now replace (d1 - 1 + s - d2 + d2)%Z with (d1 - 1 + s)%Z by lia. }
    assert (G : pow2 (d1 - 1 + s) <= X * pow2 (- e') * inject_Z (Z.pos my)).
    { rewrite Ey, inject_Z_mult, pow2_Z, pow2_add by lia.
      apply Qmult_le_compat_r; [exact Lx | pose proof (pow2_pos s); lra]. }
    pose proof (pow2_pos (d1 - 1 + s - d2)).
    set (P := pow2 (d1 - 1 + s - d2)) in *. set (y := X * pow2 (- e')) in *.
    set (MY := inject_Z (Z.pos my)) in *. set (P2 := pow2 d2) in *.
    clearbody P y MY P2. nra. }
  unfold SpecFloat.fexp in *.
  destruct q as [|pq|pq]; [| | lia].
  - cbn [Zdigits2]. change (inject_Z 0) with 0 in Hloc.
    assert (pow2 (d1 - 1 + s - d2) < pow2 0) by (change (pow2 0) with 1; lra).
    apply pow2_lt_inv in H. unfold s in H. unfold e' in *. lia.
  - destruct (Zpos_pow2_bounds pq) as [_ Uq].
    assert (pow2 (d1 - 1 + s - d2) < pow2 (Zdigits2 (Z.pos pq))) by lra.
    apply pow2_lt_inv in H. unfold s in H. unfold e' in *. lia.
Qed.

Theorem SFdiv_spec sx mx ex sy my ey X :
  X * (inject_Z (Z.pos my) * pow2 ey) == inject_Z (Z.pos mx) * pow2 ex ->
  rounds_pos prec emax (xorb sx sy) X
    (SFdiv prec emax (S754_finite sx mx ex) (S754_finite sy my ey)).
Proof.
  intros HX. cbn [SFdiv].
  pose proof (SFdiv_core_spec mx ex my ey X HX) as H.
  destruct (SFdiv_core_binary prec emax (Z.pos mx) ex (Z.pos my) ey)
    as [[mz ez] lz].
  destruct H as (Hm & Hl & He).
  apply binary_round_aux_spec; auto.
  assert (0 < inject_Z (Z.pos my) * pow2 ey).
  { apply Qmult_lt_0_compat; [| apply pow2_pos].
    change 0 with (inject_Z 0). now rewrite <- Zlt_Qlt. }
  assert (0 < inject_Z (Z.pos mx) * pow2 ex).
  { apply Qmult_lt_0_compat; [| apply pow2_pos].
    change 0 with (inject_Z 0). now rewrite <- Zlt_Qlt. }
  set (a := inject_Z (Z.pos my) * pow2 ey) in *.
  set (b := inject_Z (Z.pos mx) * pow2 ex) in *. clearbody a b. nra.
Qed.

Lemma rounds_pos_comp sx X Y r :
  X == Y -> rounds_pos prec emax sx X r -> rounds_pos prec emax sx Y r.
Proof.
  intros E (e & Hc & ->). exists e. split.
  - destruct Hc as [[-> H]|[H1 H2]]; [left | right]; split; auto; lra.
  - f_equal. apply rne_comp. rewrite E. reflexivity.
Qed.

Lemma rounds_comp q q' r : q == q' -> rounds prec emax q r -> rounds prec emax q' r.
Proof.
  intros E [[Z1 H]|[[P1 H]|[N1 H]]].
  - left. split; [lra | exact H].
  - right. left. split; [lra |]. eapply rounds_pos_comp; eauto.
  - right. right. split; [lra |]. eapply rounds_pos_comp; [| eauto]. lra.
Qed.

(** Rounding a signed mantissa. *)
Lemma rounds_of_pos s (m : positive) e X r :
  X == inject_Z (Z.pos m) * pow2 e ->
  rounds_pos prec emax s X r ->
  rounds prec emax (inject_Z (cond_Zopp s (Z.pos m)) * pow2 e) r.
Proof.
  intros E H. pose proof (Zpos_Q_pos m e) as Hp.
  destruct s; cbn [cond_Zopp].
  - right. right. rewrite inject_Z_opp. split; [lra |].
    eapply rounds_pos_comp; [| exact H]. rewrite E. ring.
  - right. left. split; [lra |]. eapply rounds_pos_comp; eauto.
Qed.

Lemma bounded_inv m e :
  bounded prec emax m e = true ->
  e = fexp (Zdigits2 (Z.pos m) + e) /\ (e <= emax - prec)%Z.
Proof.
  unfold bounded, canonical_mantissa. intros H.
  apply andb_prop in H as [H1 H2].
  apply Z.eqb_eq in H1. apply Z.leb_le in H2. cbn [Zdigits2]. auto.
Qed.

(** A valid finite float is its own rounding. *)
Theorem valid_rounds s m e :
  bounded prec emax m e = true ->
  rounds prec emax (SF2Q (S754_finite s m e)) (S754_finite s m e).
Proof.
  intros Hb. destruct (bounded_inv m e Hb) as [He Hmax].
  cbn [SF2Q]. apply (rounds_of_pos s m e (inject_Z (Z.pos m) * pow2 e));
    [reflexivity |].
  destruct (Zdigits2_bounds m) as [Hd [Hlo Hhi]].
  destruct (Zpos_pow2_bounds m) as [Lm Um].
  set (d := Zdigits2 (Z.pos m)) in *.
  pose proof (pow2_pos e) as Hpe.
  assert (Hdp : (d <= prec)%Z) by (unfold SpecFloat.fexp in He; lia).
  assert (Hlt : (Z.pos m < 2 ^ prec)%Z).
  { assert (2 ^ d <= 2 ^ prec)%Z by (apply Z.pow_le_mono_r; lia). lia. }
  exists e. split.
  - unfold canon_exp. unfold SpecFloat.fexp in He.
    assert (B1 : pow2 (d - 1 + e) <= inject_Z (Z.pos m) * pow2 e).
    { rewrite pow2_add. apply Qmult_le_compat_r; lra. }
    assert (B2 : inject_Z (Z.pos m) * pow2 e < pow2 (d + e)).
    { rewrite pow2_add. apply Qmult_lt_compat_r; lra. }
    destruct (Z.eq_dec e emin) as [Ee|Ne].
    + left. split; [exact Ee |].
      pose proof (pow2_le (d + e) (emin + prec) ltac:(lia)). lra.
    + right. assert (d = prec) by lia. subst d.
      split; [lia |].
      replace (e + prec - 1)%Z with (Zdigits2 (Z.pos m) - 1 + e)%Z by lia.
      replace (e + prec)%Z with (Zdigits2 (Z.pos m) + e)%Z by lia.
      split; [exact B1 | exact B2].
  - assert (E : inject_Z (Z.pos m) * pow2 e * pow2 (- e) == inject_Z (Z.pos m)).
    { rewrite <- Qmult_assoc, pow2_opp. ring. }
    rewrite (rne_comp _ _ E), rne_Z. unfold finish.
    destruct (Z.eqb_spec (Z.pos m) (2 ^ prec)) as [E2|_]; [lia |].
    destruct (Z.leb_spec e (emax - prec)); [reflexivity | lia].
Qed.

(** *** Multiplication *)

Theorem SFmul_spec sx mx ex sy my ey :
  bounded prec emax mx ex = true -> bounded prec emax my ey = true ->
  rounds_pos prec emax (xorb sx sy)
    (inject_Z (Z.pos mx) * pow2 ex * (inject_Z (Z.pos my) * pow2 ey))
    (SFmul prec emax (S754_finite sx mx ex) (S754_finite sy my ey)).
Proof.
  intros Hbx Hby. cbn [SFmul].
  destruct (bounded_inv _ _ Hbx) as [Ex _].
  destruct (bounded_inv _ _ Hby) as [Ey _].
  pose proof (Zpos_Q_pos mx ex). pose proof (Zpos_Q_pos my ey).
  apply binary_round_aux_spec; auto.
  - apply Qmult_lt_0_compat; assumption.
  - lia.
  - cbn. rewrite Pos2Z.inj_mul, inject_Z_mult.
    replace (- (ex + ey))%Z with (- ex + - ey)%Z by lia.
    rewrite pow2_add.
    transitivity (inject_Z (Z.pos mx) * inject_Z (Z.pos my)
                  * (pow2 ex * pow2 (- ex)) * (pow2 ey * pow2 (- ey)));
      [ring | rewrite !pow2_opp; ring].
  - destruct (Zdigits2_bounds mx) as [Hd1 [Hlo1 Hhi1]].
    destruct (Zdigits2_bounds my) as [Hd2 [Hlo2 Hhi2]].
    destruct (Zdigits2_bounds (mx * my)) as [Hd [Hlo Hhi]].
    set (d1 := Zdigits2 (Z.pos mx)) in *. set (d2 := Zdigits2 (Z.pos my)) in *.
    set (d := Zdigits2 (Z.pos (mx * my))) in *.
    assert (Hdd : (d1 + d2 - 1 <= d)%Z).
    { assert (2 ^ (d1 - 1 + (d2 - 1)) < 2 ^ d)%Z.
      { rewrite Z.pow_add_r by lia. rewrite Pos2Z.inj_mul in Hhi.
        assert (0 < 2 ^ (d1 - 1))%Z by (apply Z.pow_pos_nonneg; lia).
        assert (0 < 2 ^ (d2 - 1))%Z by (apply Z.pow_pos_nonneg; lia).
        nia. }
      apply Z.pow_lt_mono_r_iff in H1; lia. }
    unfold SpecFloat.fexp, SpecFloat.emin in *. lia.
Qed.

(** *** The operations on finite operands, by their values *)

Lemma rounds_intro (sx : bool) X r :
  0 < X -> rounds_pos prec emax sx X r -> rounds prec emax (if sx then - X else X) r.
Proof.
  intros HX H. destruct sx.
  - right. right. split; [lra |]. eapply rounds_pos_comp; [| exact H]. ring.
  - right. left. auto.
Qed.

Theorem SFmul_rounds sx mx ex sy my ey :
  bounded prec emax mx ex = true -> bounded prec emax my ey = true ->
  rounds prec emax (SF2Q (S754_finite sx mx ex) * SF2Q (S754_finite sy my ey))
         (SFmul prec emax (S754_finite sx mx ex) (S754_finite sy my ey)).
Proof.
  intros Hx Hy. pose proof (SFmul_spec sx mx ex sy my ey Hx Hy) as H.
  pose proof (Zpos_Q_pos mx ex). pose proof (Zpos_Q_pos my ey).
  eapply rounds_comp; [| apply (rounds_intro (xorb sx sy) _ _) in H; [exact H |]].
  - destruct sx, sy; cbn [SF2Q cond_Zopp xorb]; rewrite ?inject_Z_opp; ring.
  - apply Qmult_lt_0_compat; assumption.
Qed.

Theorem SFdiv_rounds sx mx ex sy my ey :
  rounds prec emax (SF2Q (S754_finite sx mx ex) / SF2Q (S754_finite sy my ey))
         (SFdiv prec emax (S754_finite sx mx ex) (S754_finite sy my ey)).
Proof.
  pose proof (Zpos_Q_pos mx ex) as Ha. pose proof (Zpos_Q_pos my ey) as Hb.
  assert (HX : (inject_Z (Z.pos mx) * pow2 ex / (inject_Z (Z.pos my) * pow2 ey))
               * (inject_Z (Z.pos my) * pow2 ey)
               == inject_Z (Z.pos mx) * pow2 ex).
  { generalize dependent (inject_Z (Z.pos my) * pow2 ey).
    intros b Hb. field. lra. }
  pose proof (SFdiv_spec sx mx ex sy my ey _ HX) as H.
  eapply rounds_comp; [| apply (rounds_intro (xorb sx sy) _ _) in H; [exact H |]].
  - clear H HX. cbn [SF2Q].
    assert (E : forall s, inject_Z (cond_Zopp s (Z.pos my)) * pow2 ey
                          == (if s then -1 else 1) * (inject_Z (Z.pos my) * pow2 ey)).
    { intros []; cbn [cond_Zopp]; rewrite ?inject_Z_opp; ring. }
    assert (E' : forall s, inject_Z (cond_Zopp s (Z.pos mx)) * pow2 ex
                          == (if s then -1 else 1) * (inject_Z (Z.pos mx) * pow2 ex)).
    { intros []; cbn [cond_Zopp]; rewrite ?inject_Z_opp; ring. }
    rewrite E, E'.
    generalize dependent (inject_Z (Z.pos my) * pow2 ey).
    generalize dependent (inject_Z (Z.pos mx) * pow2 ex).
    intros a Ha _ b Hb _.
    destruct sx, sy; cbn [xorb]; field; lra.
  - unfold Qdiv. apply Qmult_lt_0_compat; [exact Ha |].
    apply Qinv_lt_0_compat. exact Hb.
Qed.

Theorem SFadd_rounds sx mx ex sy my ey :
  rounds prec emax (SF2Q (S754_finite sx mx ex) + SF2Q (S754_finite sy my ey))
         (SFadd prec emax (S754_finite sx mx ex) (S754_finite sy my ey)).
Proof.
  cbn [SFadd]. set (ez := Z.min ex ey).
  eapply rounds_comp; [| apply binary_normalize_spec].
  rewrite inject_Z_plus, Qmult_plus_distr_l.
  rewrite (aligned_value sx mx ex ez), (aligned_value sy my ey ez)
    by (unfold ez; lia).
  reflexivity.
Qed.

Theorem SFsub_rounds sx mx ex sy my ey :
  rounds prec emax (SF2Q (S754_finite sx mx ex) - SF2Q (S754_finite sy my ey))
         (SFsub prec emax (S754_finite sx mx ex) (S754_finite sy my ey)).
Proof.
  cbn [SFsub]. set (ez := Z.min ex ey).
  eapply rounds_comp; [| apply binary_normalize_spec].
  unfold Z.sub. rewrite inject_Z_plus, inject_Z_opp, Qmult_plus_distr_l.
  rewrite (aligned_value sx mx ex ez) by (unfold ez; lia).
  assert (E : - inject_Z (cond_Zopp sy (Z.pos (fst (shl_align my ey ez))))
              * pow2 ez == - SF2Q (S754_finite sy my ey)).
  { rewrite <- (aligned_value sy my ey ez) by (unfold ez; lia). ring. }
  rewrite E. reflexivity.
Qed.

(** *** Values the format holds are not changed by rounding *)

Lemma rounds_pos_exact sx X r (k e0 : Z) :
  rounds_pos prec emax sx X r ->
  X == inject_Z k * pow2 e0 -> (0 < k < 2 ^ prec)%Z ->
  (emin <= e0)%Z -> (e0 <= emax - prec)%Z ->
  exists p e, r = S754_finite sx p e
              /\ bounded prec emax p e = true
              /\ inject_Z (Z.pos p) * pow2 e == X.
Proof.
  intros H EX Hk He0 Hmax.
  pose proof (pow2_pos e0) as Hpe0.
  assert (HKq : 0 < inject_Z k < pow2 prec).
  { rewrite <- pow2_Z by lia. change 0 with (inject_Z 0).
    rewrite <- !Zlt_Qlt. exact Hk. }
  assert (HX : 0 < X) by (rewrite EX; apply Qmult_lt_0_compat; lra).
  assert (HXu : X < pow2 (prec + e0)).
  { rewrite EX, pow2_add. apply Qmult_lt_compat_r; lra. }
  destruct (rounds_pos_cases sx X r HX H) as (e & Hc & C).
  assert (Hee : (e <= e0)%Z).
  { destruct Hc as [[-> _]|[_ [Hlo _]]]; [exact He0 |].
    assert (pow2 (e + prec - 1) < pow2 (prec + e0)) by lra.
    apply pow2_lt_inv in H0. lia. }
  assert (Erv : rv X e == X).
  { unfold rv.
    assert (E : X * pow2 (- e) == inject_Z (k * 2 ^ (e0 - e))).
    { rewrite EX, inject_Z_mult, pow2_Z by lia.
      rewrite <- Qmult_assoc, <- pow2_add.
      now replace (e0 + - e)%Z with (e0 - e)%Z by lia. }
    rewrite (rne_comp _ _ E), rne_Z, <- E.
    rewrite <- Qmult_assoc, (Qmult_comm (pow2 (- e))), pow2_opp. ring. }
  pose proof (pow2_le (prec + e0) emax ltac:(lia)).
  destruct C as [[V _]|[[V _]|(V & p & e2 & -> & Hb & E)]].
  - exfalso. lra.
  - exfalso. lra.
  - exists p, e2. split; [reflexivity |]. split; [exact Hb | lra].
Qed.

Theorem rounds_exact q r (k e0 : Z) :
  rounds prec emax q r ->
  q == inject_Z k * pow2 e0 -> (Z.abs k < 2 ^ prec)%Z ->
  (emin <= e0)%Z -> (e0 <= emax - prec)%Z ->
  SF2Q r == q /\ is_finite r = true /\ valid_binary prec emax r = true.
Proof.
  intros H Eq Hk He0 Hmax. pose proof (pow2_pos e0) as Hpe0.
  destruct H as [[Z1 [s ->]]|[[P1 H]|[N1 H]]].
  - cbn. repeat split; lra.
  - assert (0 < k)%Z.
    { destruct (Z_lt_le_dec 0 k) as [|Hle]; [assumption | exfalso].
      assert (inject_Z k <= 0)
        by (change 0 with (inject_Z 0); now rewrite <- Zle_Qle).
      set (K := inject_Z k) in *. set (P := pow2 e0) in *.
      clearbody K P. nra. }
    destruct (rounds_pos_exact false q r k e0 H Eq ltac:(lia) He0 Hmax)
      as (p & e & -> & Hb & E).
    cbn [SF2Q cond_Zopp is_finite valid_binary]. auto.
  - assert (k < 0)%Z.
    { destruct (Z_lt_le_dec k 0) as [|Hle]; [assumption | exfalso].
      assert (0 <= inject_Z k)
        by (change 0 with (inject_Z 0); now rewrite <- Zle_Qle).
      set (K := inject_Z k) in *. set (P := pow2 e0) in *.
      clearbody K P. nra. }
    assert (Eq' : - q == inject_Z (- k) * pow2 e0)
      by (rewrite inject_Z_opp, Eq; ring).
    destruct (rounds_pos_exact true (- q) r (- k) e0 H Eq' ltac:(lia) He0 Hmax)
      as (p & e & -> & Hb & E).
    cbn [SF2Q cond_Zopp is_finite valid_binary]. rewrite inject_Z_opp.
    split; [lra | auto].
Qed.

(** *** Comparison of valid floats *)

Lemma bounded_range m e :
  bounded prec emax m e = true ->
  inject_Z (Z.pos m) * pow2 e < pow2 (prec + e)
  /\ ((emin < e)%Z -> pow2 (prec - 1 + e) <= inject_Z (Z.pos m) * pow2 e)
  /\ (emin <= e)%Z.
Proof.
  intros Hb. destruct (bounded_inv m e Hb) as [He _].
  destruct (Zpos_pow2_bounds m) as [Lm Um].
  destruct (Zdigits2_bounds m) as [Hd _].
  set (d := Zdigits2 (Z.pos m)) in *. unfold SpecFloat.fexp in He.
  pose proof (pow2_pos e) as Hpe. repeat split.
  - pose proof (pow2_le d prec ltac:(lia)).
    rewrite pow2_add. apply Qmult_lt_compat_r; lra.
  - intros Hlt. assert (d = prec) by lia. subst d.
    rewrite pow2_add. apply Qmult_le_compat_r; [| lra].
    now replace (prec - 1)%Z with (Zdigits2 (Z.pos m) - 1)%Z by lia.
  - lia.
Qed.

Lemma bounded_compare m1 e1 m2 e2 :
  bounded prec emax m1 e1 = true -> bounded prec emax m2 e2 = true ->
  match (match Z.compare e1 e2 with
         | Lt => Lt
         | Gt => Gt
         | Eq => Pos.compare_cont Eq m1 m2
         end) with
  | Lt => inject_Z (Z.pos m1) * pow2 e1 < inject_Z (Z.pos m2) * pow2 e2
  | Eq => inject_Z (Z.pos m1) * pow2 e1 == inject_Z (Z.pos m2) * pow2 e2
  | Gt => inject_Z (Z.pos m2) * pow2 e2 < inject_Z (Z.pos m1) * pow2 e1
  end.
Proof.
  intros H1 H2.
  destruct (bounded_range _ _ H1) as (U1 & L1 & G1).
  destruct (bounded_range _ _ H2) as (U2 & L2 & G2).
  destruct (Z.compare_spec e1 e2) as [E|L|G].
  - subst e2. change (Pos.compare_cont Eq m1 m2) with (Pos.compare m1 m2).
    pose proof (pow2_pos e1) as Hpe.
    destruct (Pos.compare_spec m1 m2) as [E|L|G].
    + subst. reflexivity.
    + apply Qmult_lt_compat_r; [exact Hpe |]. now rewrite <- Zlt_Qlt.
    + apply Qmult_lt_compat_r; [exact Hpe |]. now rewrite <- Zlt_Qlt.
  - specialize (L2 ltac:(lia)).
    pose proof (pow2_le (prec + e1) (prec - 1 + e2) ltac:(lia)). lra.
  - specialize (L1 ltac:(lia)).
    pose proof (pow2_le (prec + e2) (prec - 1 + e1) ltac:(lia)). lra.
Qed.

(** [SFltb] on valid floats that are not NaN is the strict order of the
    values. *)
Theorem SFltb_SFle x y :
  valid_binary prec emax x = true -> valid_binary prec emax y = true ->
  is_nan x = false -> is_nan y = false ->
  (SFltb x y = true -> SFle x y /\ ~ SFle y x)
  /\ (SFltb x y = false -> SFle y x).
Proof.
  intros Vx Vy Nx Ny. unfold SFltb.
  destruct x as [sx|sx| |sx mx ex], y as [sy|sy| |sy my ey];
    try discriminate; cbn [SFcompare SFle SF2Q valid_binary] in *.
  - split; [discriminate | intros _; lra].
  - destruct sy; split; try discriminate; auto.
  - pose proof (Zpos_Q_pos my ey).
    destruct sy; cbn [cond_Zopp]; rewrite ?inject_Z_opp;
      split; try discriminate; intros _; try split; lra.
  - destruct sx; split; try discriminate; auto.
  - destruct sx, sy; split; try discriminate; auto.
  - destruct sx; split; try discriminate; auto.
  - pose proof (Zpos_Q_pos mx ex).
    destruct sx; cbn [cond_Zopp]; rewrite ?inject_Z_opp;
      split; try discriminate; intros _; try split; lra.
  - destruct sy; split; try discriminate; auto.
  - pose proof (Zpos_Q_pos mx ex). pose proof (Zpos_Q_pos my ey).
    pose proof (bounded_compare mx ex my ey Vx Vy) as C.
    destruct sx, sy; cbn [cond_Zopp]; rewrite ?inject_Z_opp.
    + destruct (Z.compare ex ey) eqn:Ce;
        try destruct (Pos.compare_cont Eq mx my) eqn:Cm; cbn [CompOpp] in *;
        split; try discriminate; intros _; try split; lra.
    + split; try discriminate; intros _; try split; lra.
    + split; try discriminate; intros _; try split; lra.
    + destruct (Z.compare ex ey) eqn:Ce;
        try destruct (Pos.compare_cont Eq mx my) eqn:Cm; cbn [CompOpp] in *;
        split; try discriminate; intros _; try split; lra.
Qed.

Theorem SFleb_SFle x y :
  valid_binary prec emax x = true -> valid_binary prec emax y = true ->
  SFleb x y = true -> SFle x y.
Proof.
  intros Vx Vy H. unfold SFleb in H.
  destruct x as [sx|sx| |sx mx ex], y as [sy|sy| |sy my ey];
    cbn [SFcompare SFle SF2Q valid_binary] in *; try discriminate H.
  - lra.
  - destruct sy; try discriminate; auto.
  - pose proof (Zpos_Q_pos my ey).
    destruct sy; cbn [cond_Zopp]; rewrite ?inject_Z_opp;
      try discriminate; lra.
  - destruct sx; try discriminate; auto.
  - destruct sx, sy; try discriminate; auto.
  - destruct sx; try discriminate; auto.
  - pose proof (Zpos_Q_pos mx ex).
    destruct sx; cbn [cond_Zopp]; rewrite ?inject_Z_opp;
      try discriminate; lra.
  - destruct sy; try discriminate; auto.
  - pose proof (Zpos_Q_pos mx ex). pose proof (Zpos_Q_pos my ey).
    pose proof (bounded_compare mx ex my ey Vx Vy) as C.
    destruct sx, sy; cbn [cond_Zopp]; rewrite ?inject_Z_opp.
    + destruct (Z.compare ex ey) eqn:Ce;
        try destruct (Pos.compare_cont Eq mx my) eqn:Cm; cbn [CompOpp] in *;
        try discriminate; lra.
    + lra.
    + discriminate.
    + destruct (Z.compare ex ey) eqn:Ce;
        try destruct (Pos.compare_cont Eq mx my) eqn:Cm; cbn [CompOpp] in *;
        try discriminate; lra.
Qed.

(** *** Bounds kept by rounding *)

Lemma representable_float C :
  representable prec emax C ->
  exists rC, rounds prec emax C rC /\ SF2Q rC == C /\ is_finite rC = true.
Proof.
  intros (k & e0 & E & Hk & H1 & H2).
  exists (binary_normalize prec emax k e0 false).
  assert (R : rounds prec emax C (binary_normalize prec emax k e0 false)).
  { eapply rounds_comp; [symmetry; exact E | apply binary_normalize_spec]. }
  destruct (rounds_exact _ _ k e0 R E Hk H1 H2) as (V & F & _).
  auto.
Qed.

Theorem rounds_ge q r C :
  rounds prec emax q r -> C <= q -> representable prec emax C -> Qle_SF C r.
Proof.
  intros R Hq HC. destruct (representable_float C HC) as (rC & RC & V & F).
  pose proof (rounds_mono C q rC r Hq RC R) as H.
  destruct (rounds_valid _ _ R) as [_ N].
  destruct rC as [?|?| |? ? ?]; try discriminate;
    destruct r as [?|[]| |? ? ?]; try discriminate;
    cbn [SFle Qle_SF] in *; try tauto; lra.
Qed.

Theorem rounds_le q r C :
  rounds prec emax q r -> q <= C -> representable prec emax C -> SF_le_Q r C.
Proof.
  intros R Hq HC. destruct (representable_float C HC) as (rC & RC & V & F).
  pose proof (rounds_mono q C r rC Hq R RC) as H.
  destruct (rounds_valid _ _ R) as [_ N].
  destruct rC as [?|?| |? ? ?]; try discriminate;
    destruct r as [?|[]| |? ? ?]; try discriminate;
    cbn [SFle SF_le_Q] in *; try tauto; lra.
Qed.

End Rounding.

Section Truncation.

Local Open Scope Q_scope.

(** Truncation is the floor of a value that is not negative. *)
Lemma SFtrunc_floor x :
  is_finite x = true -> 0 <= SF2Q x ->
  SFtrunc x = Some (Qfloor (SF2Q x)).
Proof.
  destruct x as [s|s| |s m e]; try discriminate; intros _ Hv.
  - reflexivity.
  - pose proof (Zpos_Q_pos m e) as Hp. cbn [SF2Q SFtrunc] in *.
    destruct s; cbn [cond_Zopp] in *; [rewrite inject_Z_opp in Hv; lra |].
    f_equal. destruct (Z_le_gt_dec 0 e) as [He|He].
    + rewrite Z.shiftl_mul_pow2 by lia.
      rewrite <- (Qfloor_Z (Z.pos m * 2 ^ e)). apply Qfloor_comp.
      rewrite inject_Z_mult, pow2_Z by lia. reflexivity.
    + rewrite <- (Z.opp_involutive e) at 1.
      rewrite Z.shiftl_opp_r, Z.shiftr_div_pow2 by lia.
      rewrite Zdiv_Qdiv. apply Qfloor_comp.
      rewrite pow2_Z by lia. rewrite (pow2_inv e). reflexivity.
Qed.

End Truncation.

(** ** The two formats of the driver *)

Section Formats.

Local Open Scope Q_scope.

Lemma dprec_pos : (0 < dprec)%Z.
Proof. reflexivity. Qed.

Lemma demax_gt : (dprec < demax)%Z.
Proof. reflexivity. Qed.

Lemma fprec_pos : (0 < fprec)%Z.
Proof. reflexivity. Qed.

Lemma femax_gt : (fprec < femax)%Z.
Proof. reflexivity. Qed.

Lemma bounded_lt prec emax m e :
  bounded prec emax m e = true -> (Z.pos m < 2 ^ prec)%Z.
Proof.
  unfold bounded, canonical_mantissa. intros Hb.
  apply andb_prop in Hb as [He _]. apply Z.eqb_eq in He.
  change (Z.pos (digits2_pos m)) with (Zdigits2 (Z.pos m)) in He.
  destruct (Zdigits2_bounds m) as [Hd [_ Hhi]].
  set (d := Zdigits2 (Z.pos m)) in *. unfold fexp in He.
  assert (2 ^ d <= 2 ^ prec)%Z by (apply Z.pow_le_mono_r; lia). lia.
Qed.

Lemma bounded_exponent prec emax m e :
  bounded prec emax m e = true ->
  (emin prec emax <= e <= emax - prec)%Z.
Proof.
  unfold bounded, canonical_mantissa. intros Hb.
  apply andb_prop in Hb as [He Hhi]. apply Z.eqb_eq in He.
  apply Z.leb_le in Hhi. unfold fexp in He. lia.
Qed.

(** A [float] converts to [double] without a change of value. *)
Lemma to_double_exact s m e :
  bounded fprec femax m e = true ->
  exists p e', to_double (S754_finite s m e) = S754_finite s p e'
               /\ bounded dprec demax p e' = true
               /\ inject_Z (Z.pos p) * pow2 e' == inject_Z (Z.pos m) * pow2 e.
Proof.
  intros Hb. cbn [to_double].
  pose proof (bounded_lt _ _ _ _ Hb) as Hm.
  pose proof (bounded_exponent _ _ _ _ Hb) as He.
  apply (rounds_pos_exact dprec demax dprec_pos demax_gt s
           (inject_Z (Z.pos m) * pow2 e) _ (Z.pos m) e).
  - apply binary_round_spec; [exact dprec_pos | exact demax_gt].
  - reflexivity.
  - split; [lia |].
    assert (2 ^ fprec < 2 ^ dprec)%Z by reflexivity. lia.
  - unfold emin, fprec, femax, dprec, demax in *. lia.
  - unfold emin, fprec, femax, dprec, demax in *. lia.
Qed.

Lemma d4096_eq : d4096 = S754_finite false 4503599627370496 (-40).
Proof. reflexivity. Qed.

(** ... and times [4096.0] is exact as well. *)
Lemma times_4096_exact s m e :
  bounded fprec femax m e = true ->
  exists p e', dmul (to_double (S754_finite s m e)) d4096 = S754_finite s p e'
               /\ bounded dprec demax p e' = true
               /\ inject_Z (Z.pos p) * pow2 e'
                  == inject_Z (Z.pos m) * pow2 e * 4096.
Proof.
  intros Hb. destruct (to_double_exact s m e Hb) as (p & e' & -> & Hb' & V).
  pose proof (bounded_lt _ _ _ _ Hb) as Hm.
  pose proof (bounded_exponent _ _ _ _ Hb) as He.
  rewrite d4096_eq. unfold dmul.
  pose proof (SFmul_spec dprec demax dprec_pos demax_gt s p e' false
                4503599627370496 (-40) Hb' eq_refl) as R.
  replace (xorb s false) with s in R by (destruct s; reflexivity).
  assert (E4 : inject_Z 4503599627370496 * pow2 (-40) == 4096)
    by reflexivity.
  apply (rounds_pos_exact dprec demax dprec_pos demax_gt s _ _
           (Z.pos m) (e + 12)) in R.
  - destruct R as (p2 & e2 & -> & Hb2 & V2).
    exists p2, e2. split; [reflexivity |]. split; [exact Hb2 |].
    rewrite V2, V, E4. reflexivity.
  - rewrite V, E4, pow2_add. change (pow2 12) with 4096. ring.
  - split; [lia |].
    assert (2 ^ fprec < 2 ^ dprec)%Z by reflexivity. lia.
  - unfold emin, fprec, femax, dprec, demax in *. lia.
  - unfold emin, fprec, femax, dprec, demax in *. lia.
Qed.

End Formats.

(** ** Operations that round a function of the value *)

Section Lifted.

Local Open Scope Q_scope.

Variables prec emax : Z.
Hypothesis Hprec : (0 < prec)%Z.
Hypothesis Hemax : (prec < emax)%Z.
Variable g : Q -> Q.
Variable op : spec_float -> spec_float.
Hypothesis Hop : lifted prec emax g op.
Hypothesis Hg : forall a b, a <= b -> g a <= g b.

#[local] Set Default Proof Using "Hprec Hemax Hop Hg".

Lemma SFle_not_nan x y : SFle x y -> is_nan x = false /\ is_nan y = false.
Proof.
  destruct x as [?|[]| |? ? ?], y as [?|[]| |? ? ?]; cbn; tauto.
Qed.

Lemma lifted_good x :
  is_nan x = false ->
  valid_binary prec emax (op x) = true /\ is_nan (op x) = false.
Proof.
  intros Hx. pose proof (Hop x Hx) as H.
  destruct x as [s|s| |s m e]; try discriminate.
  - apply (rounds_valid prec emax Hprec Hemax _ _ H).
  - rewrite H. auto.
  - apply (rounds_valid prec emax Hprec Hemax _ _ H).
Qed.

Lemma SFle_neg_inf y : is_nan y = false -> SFle (S754_infinity true) y.
Proof. destruct y as [?|[]| |? ? ?]; cbn; try discriminate; auto. Qed.

Lemma SFle_pos_inf x : is_nan x = false -> SFle x (S754_infinity false).
Proof. destruct x as [?|[]| |? ? ?]; cbn; try discriminate; auto. Qed.

Lemma lifted_mono x x' : SFle x x' -> SFle (op x) (op x').
Proof.
  intros H. destruct (SFle_not_nan x x' H) as [Nx Nx'].
  destruct (lifted_good x Nx) as [_ N]. destruct (lifted_good x' Nx') as [_ N'].
  pose proof (Hop x Nx) as R. pose proof (Hop x' Nx') as R'.
  destruct x as [s|[]| |s m e]; try discriminate;
    destruct x' as [s'|[]| |s' m' e']; try discriminate;
    try (rewrite R; apply SFle_neg_inf; exact N');
    try (rewrite R'; apply SFle_pos_inf; exact N);
    try (exfalso; exact H);
    try (apply (rounds_mono prec emax Hprec Hemax _ _ _ _ (Hg _ _ H) R R'));
    rewrite R; exact I.
Qed.

Lemma lifted_ge C x :
  Qle_SF C x -> representable prec emax (g C) -> Qle_SF (g C) (op x).
Proof.
  intros H HC.
  assert (Nx : is_nan x = false)
    by (destruct x as [?|[]| |? ? ?]; cbn in H; try contradiction; reflexivity).
  pose proof (Hop x Nx) as R.
  destruct x as [s|[]| |s m e]; cbn [Qle_SF] in H; try contradiction;
    try (rewrite R; exact I);
    apply (rounds_ge prec emax Hprec Hemax _ _ _ R (Hg _ _ H) HC).
Qed.

Lemma lifted_le C x :
  SF_le_Q x C -> representable prec emax (g C) -> SF_le_Q (op x) (g C).
Proof.
  intros H HC.
  assert (Nx : is_nan x = false)
    by (destruct x as [?|[]| |? ? ?]; cbn in H; try contradiction; reflexivity).
  pose proof (Hop x Nx) as R.
  destruct x as [s|[]| |s m e]; cbn [SF_le_Q] in H; try contradiction;
    try (rewrite R; exact I);
    apply (rounds_le prec emax Hprec Hemax _ _ _ R (Hg _ _ H) HC).
Qed.

End Lifted.

Section LiftedOps.

Local Open Scope Q_scope.

Lemma dhalf_eq : dhalf = S754_finite false 4503599627370496 (-53).
Proof. reflexivity. Qed.

Lemma done_eq : double_of_Z 1 = S754_finite false 4503599627370496 (-52).
Proof. reflexivity. Qed.

Lemma lifted_add_half :
  lifted dprec demax (fun t => t + (1 # 2)) (fun x => dadd x dhalf).
Proof.
  intros x Hx. rewrite dhalf_eq. unfold dadd.
  destruct x as [s|s| |s m e]; try discriminate.
  - cbn [SFadd SF2Q].
    eapply (rounds_comp dprec demax dprec_pos demax_gt);
      [| apply (valid_rounds dprec demax dprec_pos demax_gt); reflexivity].
    reflexivity.
  - reflexivity.
  - eapply (rounds_comp dprec demax dprec_pos demax_gt);
      [| apply (SFadd_rounds dprec demax dprec_pos demax_gt)].
    apply Qplus_comp; reflexivity.
Qed.

Lemma lifted_sub_one :
  lifted dprec demax (fun t => t - 1) (fun x => dsub x (double_of_Z 1)).
Proof.
  intros x Hx. rewrite done_eq. unfold dsub.
  destruct x as [s|s| |s m e]; try discriminate.
  - cbn [SFsub SF2Q negb].
    eapply (rounds_comp dprec demax dprec_pos demax_gt);
      [| apply (valid_rounds dprec demax dprec_pos demax_gt); reflexivity].
    vm_compute. reflexivity.
  - reflexivity.
  - eapply (rounds_comp dprec demax dprec_pos demax_gt);
      [| apply (SFsub_rounds dprec demax dprec_pos demax_gt)].
    apply Qplus_comp; reflexivity.
Qed.

Lemma lifted_to_float : lifted fprec femax (fun t => t) to_float.
Proof.
  intros x Hx. destruct x as [s|s| |s m e]; try discriminate.
  - left. split; [reflexivity | exists s; reflexivity].
  - reflexivity.
  - cbn [to_float SF2Q].
    apply (rounds_of_pos fprec femax fprec_pos femax_gt s m e
             (inject_Z (Z.pos m) * pow2 e)); [reflexivity |].
    apply binary_round_spec; [exact fprec_pos | exact femax_gt].
Qed.

End LiftedOps.

(** ** The clamp and the conversion to [uint8_t] *)

Section Clamp.

Local Open Scope Q_scope.

Lemma clampZ_range z : (3 <= clampZ z <= 255)%Z.
Proof. unfold clampZ, PCA9685_PRESCALE_MAX, PCA9685_PRESCALE_MIN. lia. Qed.

Lemma clampZ_mono a b : (a <= b)%Z -> (clampZ a <= clampZ b)%Z.
Proof. unfold clampZ, PCA9685_PRESCALE_MAX, PCA9685_PRESCALE_MIN. lia. Qed.

Lemma clampZ_id z : (3 <= z <= 255)%Z -> clampZ z = z.
Proof. unfold clampZ, PCA9685_PRESCALE_MAX, PCA9685_PRESCALE_MIN. lia. Qed.

Lemma prescale_of_range v : (3 <= prescale_of v <= 255)%Z.
Proof.
  destruct v as [?|[]| |? ? ?]; cbn [prescale_of];
    try apply clampZ_range; unfold PCA9685_PRESCALE_MAX, PCA9685_PRESCALE_MIN;
    lia.
Qed.

Lemma Qfloor_lt_Z x k : x < inject_Z k -> (Qfloor x < k)%Z.
Proof.
  intros H. pose proof (Qfloor_le x). rewrite Zlt_Qlt. lra.
Qed.

Lemma Qfloor_ge_Z x k : inject_Z k <= x -> (k <= Qfloor x)%Z.
Proof.
  intros H. rewrite <- (Qfloor_Z k). now apply Qfloor_resp_le.
Qed.

Lemma prescale_of_mono v v' :
  SFle v v' -> (prescale_of v <= prescale_of v')%Z.
Proof.
  intros H.
  destruct v as [?|[]| |? ? ?], v' as [?|[]| |? ? ?]; cbn [SFle] in H;
    try contradiction; cbn [prescale_of];
    try apply clampZ_mono; try apply Qfloor_resp_le; try exact H;
    try (pose proof (clampZ_range (Qfloor (SF2Q (S754_zero s)))));
    try (pose proof (clampZ_range (Qfloor (SF2Q (S754_finite s m e)))));
    unfold PCA9685_PRESCALE_MAX, PCA9685_PRESCALE_MIN; lia.
Qed.

Lemma prescale_of_ge k v :
  Qle_SF (inject_Z k) v -> (clampZ k <= prescale_of v)%Z.
Proof.
  intros H. pose proof (clampZ_range k).
  destruct v as [?|[]| |? ? ?]; cbn [Qle_SF] in H; try contradiction;
    cbn [prescale_of]; unfold PCA9685_PRESCALE_MAX; try lia;
    apply clampZ_mono, Qfloor_ge_Z, H.
Qed.

Lemma prescale_of_le k v :
  SF_le_Q v (inject_Z k) -> (prescale_of v <= clampZ k)%Z.
Proof.
  intros H. pose proof (clampZ_range k).
  destruct v as [?|[]| |? ? ?]; cbn [SF_le_Q] in H; try contradiction;
    cbn [prescale_of]; unfold PCA9685_PRESCALE_MIN; try lia;
    apply clampZ_mono; rewrite <- (Qfloor_Z k); apply Qfloor_resp_le, H.
Qed.

Lemma three_eq :
  float_of_Z PCA9685_PRESCALE_MIN = S754_finite false 12582912 (-22).
Proof. reflexivity. Qed.

Lemma max255_eq :
  float_of_Z PCA9685_PRESCALE_MAX = S754_finite false 16711680 (-16).
Proof. reflexivity. Qed.

(** On a valid [float] that is not a NaN the clamp and the conversion give
    the floor of the value, clamped. *)
Theorem clamp_to_uint8 v :
  valid_binary fprec femax v = true -> is_nan v = false ->
  to_unsigned 8 (clamp_prescaleval v) = Some (prescale_of v).
Proof.
  intros Hv Hn. unfold clamp_prescaleval. rewrite three_eq, max255_eq.
  assert (E3 : SF2Q (S754_finite false 12582912 (-22)) == 3)
    by (vm_compute; reflexivity).
  assert (E255 : SF2Q (S754_finite false 16711680 (-16)) == 255)
    by (vm_compute; reflexivity).
  destruct (SFltb_SFle fprec femax fprec_pos femax_gt v
              (S754_finite false 12582912 (-22)) Hv eq_refl Hn eq_refl)
    as [Lt3 Ge3].
  destruct (SFltb_SFle fprec femax fprec_pos femax_gt
              (S754_finite false 16711680 (-16)) v eq_refl Hv eq_refl Hn)
    as [LtT GeT].
  destruct (SFltb v (S754_finite false 12582912 (-22))) eqn:L1.
  - destruct (Lt3 eq_refl) as [Hle Hnle].
    change (SFltb (S754_finite false 16711680 (-16))
                  (S754_finite false 12582912 (-22))) with false.
    cbv iota.
    change (to_unsigned 8 (S754_finite false 12582912 (-22)))
      with (Some 3%Z).
    f_equal.
    destruct v as [s|[]| |s m e]; try discriminate; cbn [SFle] in *;
      try contradiction; cbn [prescale_of]; try reflexivity.
    assert (Qfloor (SF2Q (S754_finite s m e)) < 3)%Z
      by (apply Qfloor_lt_Z; change (inject_Z 3) with 3; lra).
    unfold clampZ, PCA9685_PRESCALE_MAX, PCA9685_PRESCALE_MIN. lia.
  - specialize (Ge3 eq_refl).
    destruct (SFltb (S754_finite false 16711680 (-16)) v) eqn:L2.
    + destruct (LtT eq_refl) as [Hle Hnle].
      change (to_unsigned 8 (S754_finite false 16711680 (-16)))
        with (Some 255%Z).
      f_equal.
      destruct v as [s|[]| |s m e]; try discriminate; cbn [SFle] in *;
        try contradiction; cbn [prescale_of]; try reflexivity;
        try (exfalso; change (SF2Q (S754_zero s)) with 0 in *; lra).
      assert (255 <= Qfloor (SF2Q (S754_finite s m e)))%Z
        by (apply Qfloor_ge_Z; change (inject_Z 255) with 255; lra).
      unfold clampZ, PCA9685_PRESCALE_MAX, PCA9685_PRESCALE_MIN. lia.
    + specialize (GeT eq_refl).
      destruct v as [s|[]| |s m e]; try discriminate; cbn [SFle] in *;
        try contradiction;
        try (exfalso; change (SF2Q (S754_zero s)) with 0 in *; lra).
      unfold to_unsigned.
      rewrite SFtrunc_floor by (try reflexivity; lra).
      assert (3 <= Qfloor (SF2Q (S754_finite s m e)))%Z
        by (apply Qfloor_ge_Z; change (inject_Z 3) with 3; lra).
      assert (Qfloor (SF2Q (S754_finite s m e)) <= 255)%Z.
      { rewrite <- (Qfloor_Z 255). apply Qfloor_resp_le.
        change (inject_Z 255) with 255. lra. }
      cbn [prescale_of]. rewrite clampZ_id by lia.
      destruct (Z.leb_spec 0 (Qfloor (SF2Q (S754_finite s m e)))); [| lia].
      destruct (Z.ltb_spec (Qfloor (SF2Q (S754_finite s m e))) (2 ^ 8));
        [reflexivity | lia].
Qed.

End Clamp.

(** ** The value [calcPrescale] clamps *)

Section Prescaleval.

Local Open Scope Q_scope.

Lemma calcPrescale_eq d f :
  calcPrescale d f = to_unsigned 8 (clamp_prescaleval (prescaleval d f)).
Proof. reflexivity. Qed.

Lemma prescaleval_eq d f :
  prescaleval d f
  = after_division (ddiv (double_of_Z (_oscillator_freq d))
                         (dmul (to_double f) d4096)).
Proof. reflexivity. Qed.

Lemma pow2_0 : pow2 0 == 1.
Proof. reflexivity. Qed.

Lemma double_of_Z_rounds z :
  rounds dprec demax (inject_Z z) (double_of_Z z).
Proof.
  unfold double_of_Z.
  eapply (rounds_comp dprec demax dprec_pos demax_gt);
    [| apply (binary_normalize_spec dprec demax dprec_pos demax_gt)].
  rewrite pow2_0. ring.
Qed.

Lemma double_of_Z_exact z :
  (Z.abs z < 2 ^ 53)%Z ->
  SF2Q (double_of_Z z) == inject_Z z /\ is_finite (double_of_Z z) = true
  /\ valid_binary dprec demax (double_of_Z z) = true.
Proof.
  intros Hz.
  apply (rounds_exact dprec demax dprec_pos demax_gt _ _ z 0%Z
           (double_of_Z_rounds z)).
  - rewrite pow2_0. ring.
  - exact Hz.
  - unfold emin, dprec, demax; lia.
  - unfold dprec, demax; lia.
Qed.

(** Division by a positive finite [double]. *)
Lemma lifted_div_by m e :
  lifted dprec demax (fun t => t / SF2Q (S754_finite false m e))
         (fun x => ddiv x (S754_finite false m e)).
Proof.
  intros x Hx. unfold ddiv.
  destruct x as [s|s| |s m' e']; try discriminate.
  - left. split.
    + change (SF2Q (S754_zero s)) with 0. unfold Qdiv. ring.
    + exists s. cbn [SFdiv]. destruct s; reflexivity.
  - destruct s; reflexivity.
  - apply (SFdiv_rounds dprec demax dprec_pos demax_gt).
Qed.

Lemma div_by_mono m e a b :
  a <= b -> a / SF2Q (S754_finite false m e) <= b / SF2Q (S754_finite false m e).
Proof.
  intros Hab. pose proof (Zpos_Q_pos m e) as Hp.
  cbn [SF2Q cond_Zopp]. unfold Qdiv.
  apply Qmult_le_compat_r; [exact Hab |].
  apply Qlt_le_weak, Qinv_lt_0_compat. exact Hp.
Qed.

Lemma add_half_mono a b : a <= b -> a + (1 # 2) <= b + (1 # 2).
Proof. intros; lra. Qed.

Lemma sub_one_mono a b : a <= b -> a - 1 <= b - 1.
Proof. intros; lra. Qed.

Lemma id_mono (a b : Q) : a <= b -> a <= b.
Proof. auto. Qed.

(** The steps after the division keep a value that is not a NaN so, and
    give a valid [float]. *)
Lemma after_division_good x :
  is_nan x = false ->
  valid_binary fprec femax (after_division x) = true
  /\ is_nan (after_division x) = false.
Proof.
  intros Hx. unfold after_division.
  destruct (lifted_good dprec demax dprec_pos demax_gt _ _
              lifted_add_half add_half_mono x Hx) as [_ N1].
  destruct (lifted_good dprec demax dprec_pos demax_gt _ _
              lifted_sub_one sub_one_mono _ N1) as [_ N2].
  exact (lifted_good fprec femax fprec_pos femax_gt _ _
           lifted_to_float id_mono _ N2).
Qed.

Lemma after_division_mono x x' :
  SFle x x' -> SFle (after_division x) (after_division x').
Proof.
  intros H. unfold after_division.
  apply (lifted_mono fprec femax fprec_pos femax_gt _ _
           lifted_to_float id_mono).
  apply (lifted_mono dprec demax dprec_pos demax_gt _ _
           lifted_sub_one sub_one_mono).
  apply (lifted_mono dprec demax dprec_pos demax_gt _ _
           lifted_add_half add_half_mono).
  exact H.
Qed.

Lemma Qle_SF_weaken C C' r : C' <= C -> Qle_SF C r -> Qle_SF C' r.
Proof.
  intros HC. destruct r as [s|[]| |s m e]; cbn [Qle_SF]; auto; intros; lra.
Qed.

Lemma SF_le_Q_weaken C C' r : C <= C' -> SF_le_Q r C -> SF_le_Q r C'.
Proof.
  intros HC. destruct r as [s|[]| |s m e]; cbn [SF_le_Q]; auto; intros; lra.
Qed.

Lemma representable_Z prec emax k C :
  C == inject_Z k -> (Z.abs k < 2 ^ prec)%Z ->
  (emin prec emax <= 0 <= emax - prec)%Z -> representable prec emax C.
Proof.
  intros HC Hk He. exists k, 0%Z. rewrite pow2_0.
  repeat split; try lia. rewrite HC. ring.
Qed.

Lemma representable_half k C :
  C == inject_Z k + (1 # 2) -> (Z.abs (2 * k + 1) < 2 ^ dprec)%Z ->
  representable dprec demax C.
Proof.
  intros HC Hk. exists (2 * k + 1)%Z, (-1)%Z.
  repeat split; try exact Hk; try (unfold emin, dprec, demax; lia).
  rewrite HC, inject_Z_plus, inject_Z_mult.
  change (pow2 (-1)) with (1 # 2). change (inject_Z 2) with 2.
  change (inject_Z 1) with 1. ring.
Qed.

(** Bounds through the steps after the division: an integer and a half
    before them is that integer after them. *)
Lemma after_division_ge k x :
  (Z.abs k < 2 ^ 23)%Z ->
  Qle_SF (inject_Z k + (1 # 2)) x -> Qle_SF (inject_Z k) (after_division x).
Proof.
  intros Hk H. unfold after_division.
  pose proof (lifted_ge dprec demax dprec_pos demax_gt _ _
                lifted_add_half add_half_mono _ _ H) as H1.
  cbv beta in H1.
  assert (R1 : representable dprec demax (inject_Z k + (1 # 2) + (1 # 2))).
  { apply (representable_Z dprec demax (k + 1)).
    - rewrite inject_Z_plus. change (inject_Z 1) with 1. ring.
    - unfold dprec. lia.
    - unfold emin, dprec, demax. lia. }
  specialize (H1 R1).
  pose proof (lifted_ge dprec demax dprec_pos demax_gt _ _
                lifted_sub_one sub_one_mono _ _ H1) as H2.
  cbv beta in H2.
  assert (R2 : representable dprec demax
                 (inject_Z k + (1 # 2) + (1 # 2) - 1)).
  { apply (representable_Z dprec demax k).
    - ring.
    - unfold dprec. lia.
    - unfold emin, dprec, demax. lia. }
  specialize (H2 R2).
  pose proof (lifted_ge fprec femax fprec_pos femax_gt _ _
                lifted_to_float id_mono _ _ H2) as H3.
  cbv beta in H3.
  assert (R3 : representable fprec femax
                 (inject_Z k + (1 # 2) + (1 # 2) - 1)).
  { apply (representable_Z fprec femax k).
    - ring.
    - unfold fprec. lia.
    - unfold emin, fprec, femax. lia. }
  specialize (H3 R3).
  eapply Qle_SF_weaken; [| exact H3]. lra.
Qed.

Lemma after_division_le k x :
  (Z.abs k < 2 ^ 23)%Z ->
  SF_le_Q x (inject_Z k + (1 # 2)) -> SF_le_Q (after_division x) (inject_Z k).
Proof.
  intros Hk H. unfold after_division.
  pose proof (lifted_le dprec demax dprec_pos demax_gt _ _
                lifted_add_half add_half_mono _ _ H) as H1.
  cbv beta in H1.
  assert (R1 : representable dprec demax (inject_Z k + (1 # 2) + (1 # 2))).
  { apply (representable_Z dprec demax (k + 1)).
    - rewrite inject_Z_plus. change (inject_Z 1) with 1. ring.
    - unfold dprec. lia.
    - unfold emin, dprec, demax. lia. }
  specialize (H1 R1).
  pose proof (lifted_le dprec demax dprec_pos demax_gt _ _
                lifted_sub_one sub_one_mono _ _ H1) as H2.
  cbv beta in H2.
  assert (R2 : representable dprec demax
                 (inject_Z k + (1 # 2) + (1 # 2) - 1)).
  { apply (representable_Z dprec demax k).
    - ring.
    - unfold dprec. lia.
    - unfold emin, dprec, demax. lia. }
  specialize (H2 R2).
  pose proof (lifted_le fprec femax fprec_pos femax_gt _ _
                lifted_to_float id_mono _ _ H2) as H3.
  cbv beta in H3.
  assert (R3 : representable fprec femax
                 (inject_Z k + (1 # 2) + (1 # 2) - 1)).
  { apply (representable_Z fprec femax k).
    - ring.
    - unfold fprec. lia.
    - unfold emin, fprec, femax. lia. }
  specialize (H3 R3).
  eapply SF_le_Q_weaken; [| exact H3]. lra.
Qed.

(** The division of [calcPrescale] rounds the quotient of the formula. *)
Lemma ddiv_finite osc s m e :
  (0 <= osc < 2 ^ 32)%Z -> bounded fprec femax m e = true ->
  rounds dprec demax (inject_Z osc / (SF2Q (S754_finite s m e) * 4096))
         (ddiv (double_of_Z osc)
               (dmul (to_double (S754_finite s m e)) d4096)).
Proof.
  intros Hosc Hb.
  destruct (times_4096_exact s m e Hb) as (p & e' & -> & Hb' & Hv).
  destruct (double_of_Z_exact osc) as (Vx & Fx & _); [lia |].
  assert (Hy : SF2Q (S754_finite s p e') == SF2Q (S754_finite s m e) * 4096).
  { cbn [SF2Q]. destruct s; cbn [cond_Zopp]; rewrite ?inject_Z_opp.
    - setoid_replace (- inject_Z (Z.pos p) * pow2 e')
        with (- (inject_Z (Z.pos p) * pow2 e')) by ring.
      rewrite Hv. ring.
    - exact Hv. }
  destruct (double_of_Z osc) as [sx|sx| |sx mx ex]; try discriminate.
  - left. split.
    + rewrite <- Vx. change (SF2Q (S754_zero sx)) with 0.
      unfold Qdiv. ring.
    + exists (xorb sx s). reflexivity.
  - eapply (rounds_comp dprec demax dprec_pos demax_gt);
      [| apply (SFdiv_rounds dprec demax dprec_pos demax_gt)].
    rewrite Vx, Hy. reflexivity.
Qed.

Lemma ddiv_infinity osc s :
  (0 <= osc < 2 ^ 32)%Z ->
  rounds dprec demax 0
         (ddiv (double_of_Z osc) (dmul (to_double (S754_infinity s)) d4096)).
Proof.
  intros Hosc.
  destruct (double_of_Z_exact osc) as (Vx & Fx & _); [lia |].
  rewrite d4096_eq. cbn [to_double]. unfold dmul, ddiv. cbn [SFmul].
  left. split; [reflexivity |].
  destruct (double_of_Z osc) as [sx|sx| |sx mx ex]; try discriminate;
    cbn [SFdiv]; eauto.
Qed.

Lemma quotient_rounds osc f :
  (0 <= osc < 2 ^ 32)%Z ->
  valid_binary fprec femax f = true -> SFltb (S754_zero false) f = true ->
  rounds dprec demax (quotient osc f)
         (ddiv (double_of_Z osc) (dmul (to_double f) d4096)).
Proof.
  intros Hosc Hv Hp. destruct f as [s|s| |s m e]; try discriminate.
  - apply ddiv_infinity; exact Hosc.
  - apply ddiv_finite; [exact Hosc | exact Hv].
Qed.

(** From 1 Hz up, a frequency is a positive finite [float] or the
    positive infinity. *)
Lemma at_least_one f :
  SFleb (float_of_Z 1) f = true ->
  f = S754_infinity false \/ exists m e, f = S754_finite false m e.
Proof.
  destruct f as [s|[]| |[] m e]; try discriminate; eauto.
Qed.

(** [calcPrescale] on a positive finite frequency: defined, and the
    clamped floor of [prescaleval]. *)
Lemma calcPrescale_positive d m e :
  bounded fprec femax m e = true ->
  calcPrescale d (S754_finite false m e)
  = Some (prescale_of (prescaleval d (S754_finite false m e))).
Proof.
  intros Hb. rewrite calcPrescale_eq.
  assert (G : valid_binary fprec femax (prescaleval d (S754_finite false m e))
              = true
              /\ is_nan (prescaleval d (S754_finite false m e)) = false).
  { rewrite prescaleval_eq.
    destruct (times_4096_exact false m e Hb) as (p & e' & -> & _ & _).
    apply after_division_good.
    destruct (rounds_valid dprec demax dprec_pos demax_gt _ _
                (double_of_Z_rounds (_oscillator_freq d))) as [_ N0].
    exact (proj2 (lifted_good dprec demax dprec_pos demax_gt _ _
                    (lifted_div_by p e') (div_by_mono p e') _ N0)). }
  destruct G as [V N]. apply clamp_to_uint8; assumption.
Qed.

(** [calcPrescale] is defined wherever its division is not a NaN. *)
Lemma calcPrescale_of_rounds d f q :
  rounds dprec demax q
         (ddiv (double_of_Z (_oscillator_freq d))
               (dmul (to_double f) d4096)) ->
  calcPrescale d f = Some (prescale_of (prescaleval d f)).
Proof.
  intros R. rewrite calcPrescale_eq.
  destruct (rounds_valid dprec demax dprec_pos demax_gt _ _ R) as [_ N].
  destruct (after_division_good _ N) as [V N'].
  rewrite <- prescaleval_eq in V, N'. apply clamp_to_uint8; assumption.
Qed.

(** A higher positive frequency has a lower quotient. *)
Lemma quotient_antitone osc f1 f2 :
  (0 <= osc)%Z -> SFltb (S754_zero false) f1 = true -> SFle f1 f2 ->
  quotient osc f2 <= quotient osc f1.
Proof.
  intros Hosc Hp Hle.
  assert (Ho : 0 <= inject_Z osc).
  { change 0 with (inject_Z 0). rewrite <- Zle_Qle. exact Hosc. }
  destruct f1 as [s1|s1| |s1 m1 e1]; try discriminate.
  - destruct s1; try discriminate.
    destruct f2 as [s2|[]| |s2 m2 e2]; cbn [SFle] in Hle; try contradiction.
    cbn [quotient]. lra.
  - destruct s1; try discriminate.
    pose proof (Zpos_Q_pos m1 e1) as P1.
    assert (F1 : SF2Q (S754_finite false m1 e1)
                 == inject_Z (Z.pos m1) * pow2 e1) by reflexivity.
    destruct f2 as [s2|[]| |s2 m2 e2]; cbn [SFle] in Hle; try contradiction;
      cbn [quotient].
    + exfalso. change (SF2Q (S754_zero s2)) with 0 in Hle. lra.
    + apply Qle_shift_div_l; lra.
    + generalize dependent (SF2Q (S754_finite false m1 e1)).
      generalize (SF2Q (S754_finite s2 m2 e2)).
      intros b2 b1 Hb Hb1.
      apply Qle_shift_div_r; [lra |].
      assert (T : 0 <= inject_Z osc / (b1 * 4096))
        by (apply Qle_shift_div_l; lra).
      assert (E : inject_Z osc / (b1 * 4096) * (b1 * 4096) == inject_Z osc)
        by (field; intros Z0; lra).
      generalize dependent (inject_Z osc / (b1 * 4096)). intros t T E.
      rewrite <- E. nra.
Qed.

End Prescaleval.

(** ** C6: the prescale range *)

(** Claim C6.  For every frequency from 1 to 3500 (a [float]) and every
    oscillator frequency the driver assumes, [calcPrescale] is defined and
    its result lies in [PCA9685_PRESCALE_MIN, PCA9685_PRESCALE_MAX]. *)
Theorem calcPrescale_in_range :
  forall (d : driver) (freq : spec_float),
    valid_binary fprec femax freq = true ->
    SFleb (float_of_Z 1) freq = true ->
    SFleb freq (float_of_Z 3500) = true ->
    exists prescale,
      calcPrescale d freq = Some prescale
      /\ PCA9685_PRESCALE_MIN <= prescale <= PCA9685_PRESCALE_MAX.
Proof.
  intros d freq Hv H1 H2.
  destruct (at_least_one freq H1) as [-> | (m & e & ->)];
    [discriminate |].
  exists (prescale_of (prescaleval d (S754_finite false m e))). split.
  - apply calcPrescale_positive. exact Hv.
  - apply prescale_of_range.
Qed.

Lemma calcPrescale_in_range_witness :
  exists prescale,
    calcPrescale (mkDriver PCA9685_I2C_ADDRESS true 27000000 0)
                 (float_of_Z 60) = Some prescale
    /\ PCA9685_PRESCALE_MIN <= prescale <= PCA9685_PRESCALE_MAX.
Proof.
  apply (calcPrescale_in_range
           (mkDriver PCA9685_I2C_ADDRESS true 27000000 0) (float_of_Z 60));
    reflexivity.
Defined.

(** ** C7: a higher frequency, a lower prescale *)

(** Claim C7, as stated, fails when the lower frequency is not positive:
    at 25 MHz, [calcPrescale] gives 3 for -1 Hz and 255 for 1 Hz. *)
Lemma calcPrescale_not_antitone :
  SFleb (float_of_Z (-1)) (float_of_Z 1) = true
  /\ calcPrescale (mkDriver PCA9685_I2C_ADDRESS true FREQUENCY_OSCILLATOR 0)
                  (float_of_Z (-1)) = Some 3
  /\ calcPrescale (mkDriver PCA9685_I2C_ADDRESS true FREQUENCY_OSCILLATOR 0)
                  (float_of_Z 1) = Some 255
  /\ ~ 255 <= 3.
Proof. repeat split; try reflexivity. lia. Qed.

(** Claim C7, amended.  For a fixed 32-bit oscillator frequency and
    frequencies [0 < f1 <= f2], [calcPrescale] is defined on both and
    [calcPrescale f2 <= calcPrescale f1]. *)
Theorem calcPrescale_antitone :
  forall (d : driver) (f1 f2 : spec_float),
    0 <= _oscillator_freq d < 2 ^ 32 ->
    valid_binary fprec femax f1 = true ->
    valid_binary fprec femax f2 = true ->
    SFltb (float_of_Z 0) f1 = true ->
    SFleb f1 f2 = true ->
    exists p1 p2,
      calcPrescale d f1 = Some p1 /\ calcPrescale d f2 = Some p2
      /\ p2 <= p1.
Proof.
  intros d f1 f2 Hosc V1 V2 Hp Hle.
  change (float_of_Z 0) with (S754_zero false) in Hp.
  pose proof (SFleb_SFle fprec femax fprec_pos femax_gt f1 f2 V1 V2 Hle)
    as L.
  assert (Hp2 : SFltb (S754_zero false) f2 = true).
  { destruct f1 as [s1|[]| |[] m1 e1]; try discriminate;
      destruct f2 as [s2|[]| |[] m2 e2]; cbn [SFle] in L;
      try contradiction; try reflexivity; exfalso.
    - pose proof (Zpos_Q_pos m1 e1).
      change (SF2Q (S754_zero s2)) with 0%Q in L.
      cbn [SF2Q cond_Zopp] in L. lra.
    - pose proof (Zpos_Q_pos m1 e1). pose proof (Zpos_Q_pos m2 e2).
      cbn [SF2Q cond_Zopp] in L. rewrite inject_Z_opp in L. lra. }
  pose proof (quotient_rounds _ f1 Hosc V1 Hp) as R1.
  pose proof (quotient_rounds _ f2 Hosc V2 Hp2) as R2.
  exists (prescale_of (prescaleval d f1)), (prescale_of (prescaleval d f2)).
  split; [exact (calcPrescale_of_rounds d f1 _ R1) |].
  split; [exact (calcPrescale_of_rounds d f2 _ R2) |].
  apply prescale_of_mono. rewrite !prescaleval_eq.
  apply after_division_mono.
  apply (rounds_mono dprec demax dprec_pos demax_gt
           (quotient (_oscillator_freq d) f2)
           (quotient (_oscillator_freq d) f1)); [| exact R2 | exact R1].
  apply quotient_antitone; [lia | exact Hp | exact L].
Qed.

Lemma calcPrescale_antitone_witness :
  exists p1 p2,
    calcPrescale (mkDriver PCA9685_I2C_ADDRESS true FREQUENCY_OSCILLATOR 0)
                 (float_of_Z 50) = Some p1
    /\ calcPrescale (mkDriver PCA9685_I2C_ADDRESS true FREQUENCY_OSCILLATOR 0)
                    (float_of_Z 60) = Some p2
    /\ p2 <= p1.
Proof.
  apply (calcPrescale_antitone
           (mkDriver PCA9685_I2C_ADDRESS true FREQUENCY_OSCILLATOR 0)
           (float_of_Z 50) (float_of_Z 60));
    try reflexivity.
  cbn [_oscillator_freq]. unfold FREQUENCY_OSCILLATOR. lia.
Defined.

(** ** C1: the formula of the prescale *)

Section FormulaBounds.

Local Open Scope Q_scope.

Lemma Qtrunc_above t : t < inject_Z (Qtrunc t + 1).
Proof.
  unfold Qtrunc. destruct (Qle_bool 0 t) eqn:E.
  - apply Qlt_floor.
  - pose proof (Qle_ceiling t). rewrite inject_Z_plus.
    change (inject_Z 1) with 1. lra.
Qed.

Lemma Qtrunc_below t : (1 <= Qtrunc t)%Z -> inject_Z (Qtrunc t) <= t.
Proof.
  unfold Qtrunc. destruct (Qle_bool 0 t) eqn:E; intros H.
  - apply Qfloor_le.
  - exfalso.
    assert (Ht : t < 0).
    { apply Qnot_le_lt. intros C. apply Qle_bool_iff in C. congruence. }
    pose proof (Qceiling_lt t) as L.
    assert (inject_Z (Qceiling t - 1) < inject_Z 0)
      by (change (inject_Z 0) with 0; lra).
    rewrite <- Zlt_Qlt in *. lia.
Qed.

(** The prescale lies between the clamped formula and the clamped formula
    of one more. *)
Lemma prescale_bracket q x :
  rounds dprec demax q x ->
  (clampZ (Qtrunc (q + (1 # 2)) - 1) <= prescale_of (after_division x)
   <= clampZ (Qtrunc (q + (1 # 2)) - 1 + 1))%Z.
Proof.
  intros R. set (S := (Qtrunc (q + (1 # 2)) - 1)%Z).
  pose proof (prescale_of_range (after_division x)) as Hr.
  split.
  - destruct (Z_le_gt_dec S 3) as [HS | HS].
    + unfold clampZ, PCA9685_PRESCALE_MAX, PCA9685_PRESCALE_MIN. lia.
    + assert (Hq : inject_Z S + (1 # 2) <= q).
      { pose proof (Qtrunc_below (q + (1 # 2))) as B.
        assert (E : inject_Z (Qtrunc (q + (1 # 2))) == inject_Z S + 1).
        { unfold S. rewrite <- (inject_Z_plus _ 1). f_equiv. lia. }
        rewrite E in B. assert (1 <= Qtrunc (q + (1 # 2)))%Z by lia.
        specialize (B H). lra. }
      assert (Hk : inject_Z (Z.min S 255) <= inject_Z S)
        by (rewrite <- Zle_Qle; lia).
      assert (G : Qle_SF (inject_Z (Z.min S 255) + (1 # 2)) x).
      { apply (rounds_ge dprec demax dprec_pos demax_gt q); [exact R | lra |].
        apply (representable_half (Z.min S 255)); [reflexivity |].
        unfold dprec. lia. }
      apply after_division_ge in G; [| lia].
      apply prescale_of_ge in G.
      replace (clampZ S) with (clampZ (Z.min S 255)); [exact G |].
      unfold clampZ, PCA9685_PRESCALE_MAX, PCA9685_PRESCALE_MIN. lia.
  - destruct (Z_le_gt_dec 255 (S + 1)) as [HS | HS].
    + unfold clampZ, PCA9685_PRESCALE_MAX, PCA9685_PRESCALE_MIN. lia.
    + assert (Hq : q <= inject_Z (S + 1) + (1 # 2)).
      { pose proof (Qtrunc_above (q + (1 # 2))) as B.
        replace (Qtrunc (q + (1 # 2)) + 1)%Z with (S + 1 + 1)%Z in B
          by (unfold S; lia).
        rewrite (inject_Z_plus (S + 1) 1) in B.
        change (inject_Z 1) with 1 in B. lra. }
      assert (Hk : inject_Z (S + 1) <= inject_Z (Z.max (S + 1) 3))
        by (rewrite <- Zle_Qle; lia).
      assert (G : SF_le_Q x (inject_Z (Z.max (S + 1) 3) + (1 # 2))).
      { apply (rounds_le dprec demax dprec_pos demax_gt q); [exact R | lra |].
        apply (representable_half (Z.max (S + 1) 3)); [reflexivity |].
        unfold dprec. lia. }
      apply after_division_le in G; [| lia].
      apply prescale_of_le in G.
      replace (clampZ (S + 1)) with (clampZ (Z.max (S + 1) 3)); [exact G |].
      unfold clampZ, PCA9685_PRESCALE_MAX, PCA9685_PRESCALE_MIN. lia.
Qed.

(** A multiple of [2^-16] that fits the mantissa is held by the format. *)
Lemma representable_16 prec emax m C :
  C == inject_Z m * (1 # 65536) -> (Z.abs m < 2 ^ prec)%Z ->
  (emin prec emax <= -16 <= emax - prec)%Z -> representable prec emax C.
Proof.
  intros HC Hm He. exists m, (-16)%Z.
  change (pow2 (-16)) with (1 # 65536). repeat split; try lia. exact HC.
Qed.

Lemma prescale_of_below v c k :
  SF_le_Q v c -> c < inject_Z (k + 1) -> (prescale_of v <= clampZ k)%Z.
Proof.
  intros H Hc. destruct v as [s|[]| |s m e]; cbn [SF_le_Q] in H;
    try contradiction; cbn [prescale_of].
  - apply clampZ_mono.
    assert (Qfloor (SF2Q (S754_zero s)) < k + 1)%Z
      by (apply Qfloor_lt_Z; lra).
    lia.
  - pose proof (clampZ_range k).
    unfold PCA9685_PRESCALE_MIN. lia.
  - apply clampZ_mono.
    assert (Qfloor (SF2Q (S754_finite s m e)) < k + 1)%Z
      by (apply Qfloor_lt_Z; lra).
    lia.
Qed.

(** A quotient that stays [2^-16] below the next integer and a half does
    not reach the next prescale. *)
Lemma prescale_not_above q x k :
  rounds dprec demax q x -> (3 <= k <= 254)%Z ->
  q <= inject_Z k + 1 - (1 # 65536) + (1 # 2) ->
  (prescale_of (after_division x) <= k)%Z.
Proof.
  intros R Hk Hq.
  assert (E0 : inject_Z k + 1 - (1 # 65536) + (1 # 2)
               == inject_Z ((k + 1) * 65536 - 1 + 32768) * (1 # 65536)).
  { unfold Z.sub. rewrite !inject_Z_plus, inject_Z_mult, inject_Z_plus.
    change (inject_Z 65536) with 65536. change (inject_Z 1) with 1.
    change (inject_Z (- (1))) with (- (1)). change (inject_Z 32768) with 32768.
    field. }
  assert (E1 : inject_Z k + 1 - (1 # 65536) + (1 # 2) + (1 # 2)
               == inject_Z ((k + 2) * 65536 - 1) * (1 # 65536)).
  { unfold Z.sub. rewrite !inject_Z_plus, inject_Z_mult, inject_Z_plus.
    change (inject_Z 65536) with 65536. change (inject_Z 2) with 2.
    change (inject_Z (- (1))) with (- (1)). field. }
  assert (E2 : inject_Z k + 1 - (1 # 65536) + (1 # 2) + (1 # 2) - 1
               == inject_Z ((k + 1) * 65536 - 1) * (1 # 65536)).
  { unfold Z.sub. rewrite !inject_Z_plus, inject_Z_mult, inject_Z_plus.
    change (inject_Z 65536) with 65536. change (inject_Z 1) with 1.
    change (inject_Z (- (1))) with (- (1)). field. }
  assert (G : SF_le_Q x (inject_Z k + 1 - (1 # 65536) + (1 # 2))).
  { apply (rounds_le dprec demax dprec_pos demax_gt q); [exact R | exact Hq |].
    apply (representable_16 dprec demax _ _ E0);
      unfold emin, dprec, demax; lia. }
  unfold after_division.
  pose proof (lifted_le dprec demax dprec_pos demax_gt _ _
                lifted_add_half add_half_mono _ _ G) as H1.
  cbv beta in H1.
  assert (R1 : representable dprec demax
                 (inject_Z k + 1 - (1 # 65536) + (1 # 2) + (1 # 2)))
    by (apply (representable_16 dprec demax _ _ E1);
        unfold emin, dprec, demax; lia).
  specialize (H1 R1).
  pose proof (lifted_le dprec demax dprec_pos demax_gt _ _
                lifted_sub_one sub_one_mono _ _ H1) as H2.
  cbv beta in H2.
  assert (R2 : representable dprec demax
                 (inject_Z k + 1 - (1 # 65536) + (1 # 2) + (1 # 2) - 1))
    by (apply (representable_16 dprec demax _ _ E2);
        unfold emin, dprec, demax; lia).
  specialize (H2 R2).
  pose proof (lifted_le fprec femax fprec_pos femax_gt _ _
                lifted_to_float id_mono _ _ H2) as H3.
  cbv beta in H3.
  assert (R3 : representable fprec femax
                 (inject_Z k + 1 - (1 # 65536) + (1 # 2) + (1 # 2) - 1))
    by (apply (representable_16 fprec femax _ _ E2);
        unfold emin, fprec, femax; lia).
  specialize (H3 R3).
  apply (prescale_of_below _ _ k) in H3.
  - rewrite clampZ_id in H3 by lia. exact H3.
  - rewrite inject_Z_plus. change (inject_Z 1) with 1. lra.
Qed.

(** Away from the window below an integer the prescale is the formula. *)
Lemma prescale_exact q x :
  rounds dprec demax q x ->
  ~ just_below_integer (q + (1 # 2)) ->
  prescale_of (after_division x) = clampZ (Qtrunc (q + (1 # 2)) - 1).
Proof.
  intros R Hn. pose proof (prescale_bracket q x R) as [Lo Hi].
  unfold just_below_integer in Hn. apply Qnot_lt_le in Hn.
  set (S := (Qtrunc (q + (1 # 2)) - 1)%Z) in *.
  destruct (Z_le_gt_dec S 2) as [H2 | H2];
    [unfold clampZ, PCA9685_PRESCALE_MAX, PCA9685_PRESCALE_MIN in *; lia |].
  destruct (Z_le_gt_dec 255 S) as [H255 | H255];
    [unfold clampZ, PCA9685_PRESCALE_MAX, PCA9685_PRESCALE_MIN in *; lia |].
  assert (Up : (prescale_of (after_division x) <= S)%Z).
  { apply (prescale_not_above q x S R); [lia |].
    assert (E : inject_Z (Qtrunc (q + (1 # 2))) == inject_Z S + 1).
    { unfold S. rewrite <- (inject_Z_plus _ 1). f_equiv. lia. }
    rewrite E in Hn. lra. }
  rewrite clampZ_id in * by lia. lia.
Qed.

End FormulaBounds.

(** Claim C1, as stated, fails: with an oscillator of 26,521,599 Hz the
    prescale for 50 Hz is 129, and the formula gives 128; the quotient plus
    0.5 is less than [2^-16] below 130 there. *)
Lemma calcPrescale_off_formula :
  calcPrescale (mkDriver PCA9685_I2C_ADDRESS true 26521599 0)
               (float_of_Z 50) = Some 129
  /\ spec_prescale 26521599 (float_of_Z 50) = 128
  /\ just_below_integer
       (inject_Z 26521599 / (SF2Q (float_of_Z 50) * 4096) + (1 # 2)).
Proof. repeat split; vm_compute; reflexivity. Qed.

(** Claim C1, amended.  For every finite frequency other than zero and
    every 32-bit oscillator frequency, [calcPrescale] is the formula of
    the spec (round by adding 0.5 and truncating, subtract 1, clamp into
    [PCA9685_PRESCALE_MIN, PCA9685_PRESCALE_MAX]), except that it can be
    one more, though never beyond the clamp, when the quotient plus 0.5
    lies less than [2^-16] below an integer; with an oscillator of
    25,000,000 Hz the prescale for 50 Hz is 121. *)
Theorem calcPrescale_formula :
  (forall (d : driver) (freq : spec_float),
      0 <= _oscillator_freq d < 2 ^ 32 ->
      valid_binary fprec femax freq = true ->
      is_finite freq = true ->
      SFeqb freq (float_of_Z 0) = false ->
      exists prescale,
        calcPrescale d freq = Some prescale
        /\ (~ just_below_integer
               (inject_Z (_oscillator_freq d) / (SF2Q freq * 4096) + (1 # 2))
            -> prescale = spec_prescale (_oscillator_freq d) freq)
        /\ (prescale = spec_prescale (_oscillator_freq d) freq
            \/ prescale = spec_prescale (_oscillator_freq d) freq + 1)
        /\ PCA9685_PRESCALE_MIN <= prescale <= PCA9685_PRESCALE_MAX)
  /\ (forall d : driver,
         _oscillator_freq d = 25000000 ->
         calcPrescale d (float_of_Z 50) = Some 121).
Proof.
  split.
  - intros d freq Hosc Hv Hf Hz.
    destruct freq as [s|s| |s m e]; try discriminate.
    pose proof (ddiv_finite (_oscillator_freq d) s m e Hosc Hv) as R.
    exists (prescale_of (prescaleval d (S754_finite s m e))).
    split; [exact (calcPrescale_of_rounds d _ _ R) |].
    split.
    { intros Hn. rewrite prescaleval_eq. unfold spec_prescale.
      exact (prescale_exact _ _ R Hn). }
    pose proof (prescale_bracket _ _ R) as B.
    rewrite <- prescaleval_eq in B. unfold spec_prescale.
    pose proof (prescale_of_range (prescaleval d (S754_finite s m e))) as Hr.
    revert B Hr.
    generalize (prescale_of (prescaleval d (S754_finite s m e))).
    generalize (Qtrunc (inject_Z (_oscillator_freq d)
                         / (SF2Q (S754_finite s m e) * 4096) + (1 # 2))).
    intros t p. unfold clampZ, PCA9685_PRESCALE_MAX, PCA9685_PRESCALE_MIN.
    lia.
  - intros [a dev osc p] H. cbn in H. subst osc. reflexivity.
Qed.

Lemma calcPrescale_formula_witness :
  (exists prescale,
      calcPrescale (mkDriver PCA9685_I2C_ADDRESS true 27000000 0)
                   (float_of_Z 60) = Some prescale
      /\ (~ just_below_integer
             (inject_Z 27000000 / (SF2Q (float_of_Z 60) * 4096) + (1 # 2))
          -> prescale = spec_prescale 27000000 (float_of_Z 60))
      /\ (prescale = spec_prescale 27000000 (float_of_Z 60)
          \/ prescale = spec_prescale 27000000 (float_of_Z 60) + 1)
      /\ PCA9685_PRESCALE_MIN <= prescale <= PCA9685_PRESCALE_MAX)
  /\ ~ just_below_integer
        (inject_Z 27000000 / (SF2Q (float_of_Z 60) * 4096) + (1 # 2))
  /\ calcPrescale (mkDriver PCA9685_I2C_ADDRESS true 25000000 0)
                  (float_of_Z 50) = Some 121.
Proof.
  split; [| split].
  - apply (proj1 calcPrescale_formula
             (mkDriver PCA9685_I2C_ADDRESS true 27000000 0) (float_of_Z 60));
      try reflexivity.
    cbn [_oscillator_freq]. lia.
  - unfold just_below_integer. vm_compute. discriminate.
  - apply (proj2 calcPrescale_formula
             (mkDriver PCA9685_I2C_ADDRESS true 25000000 0)).
    reflexivity.
Defined.

(** ** C2: microseconds to ticks *)

Section Microseconds.

Local Open Scope Q_scope.

Lemma to_unsigned_floor bits x :
  is_finite x = true -> 0 <= SF2Q x < inject_Z (2 ^ bits) ->
  to_unsigned bits x = Some (Qfloor (SF2Q x)).
Proof.
  intros Hf [H0 H1]. unfold to_unsigned.
  rewrite SFtrunc_floor by assumption.
  assert (0 <= Qfloor (SF2Q x))%Z
    by (apply Qfloor_ge_Z; change (inject_Z 0) with 0; exact H0).
  assert (Qfloor (SF2Q x) < 2 ^ bits)%Z by (apply Qfloor_lt_Z; exact H1).
  destruct (Z.leb_spec 0 (Qfloor (SF2Q x))); [| lia].
  destruct (Z.ltb_spec (Qfloor (SF2Q x)) (2 ^ bits)); [reflexivity | lia].
Qed.

Lemma writeMicroseconds_run T num us (w : world T) :
  writeMicroseconds T num us w
  = match to_unsigned 16 (ddiv (double_of_Z us)
                            (ddiv (dmul (double_of_Z 1000000)
                                        (double_of_Z
                                           (u8 (_prescale (drv w) + 1))))
                                  (double_of_Z (_oscillator_freq (drv w)))))
    with
    | Some off =>
        setPWM T num 0 off (with_prescale (u8 (_prescale (drv w) + 1)) w)
    | None => None
    end.
Proof.
  destruct w as [[a dev osc p] b tr].
  unfold writeMicroseconds, set_prescale, with_prescale, lift_option, bind,
    get_drv, put_drv, ret, undefined.
  cbn [drv bus trace _i2caddr i2c_dev _oscillator_freq _prescale].
  destruct (to_unsigned 16 _); reflexivity.
Qed.

End Microseconds.

(** Claim C2, as stated, fails: at prescale 121 and 25 MHz, 1000
    microseconds are 204.9 ticks; the spec rounds them to 205, the call
    writes (0, 204). *)
Lemma writeMicroseconds_not_rounded :
  trace (after (writeMicroseconds Chip.transport 0 1000) world121)
  = [EvWrite [PCA9685_LED0_ON_L; 0; 0; 204; 0] true]
  /\ spec_ticks 1000 121 25000000 = 205.
Proof. split; vm_compute; reflexivity. Qed.

(** Claim C2, amended.  With a stored prescale below 255,
    [writeMicroseconds] computes [tickDuration = 1,000,000 * (prescale + 1)
    / oscillatorFreq] and the quotient of the pulse width by it in
    [double]; when the quotient is finite, not negative and below 65536 it
    calls [setPWM] with 0 and the quotient truncated, not rounded.  At
    prescale 121 and 25 MHz, 1500 microseconds give the call with
    (0, 307). *)
Theorem writeMicroseconds_truncates :
  (forall (T : Transport) (num us : Z) (w : world T),
      let prescale := _prescale (drv w) in
      let pulse := pulse_of us prescale (_oscillator_freq (drv w)) in
      0 <= prescale < 255 ->
      is_finite pulse = true ->
      (0 <= SF2Q pulse < 65536)%Q ->
      writeMicroseconds T num us w
      = setPWM T num 0 (Qfloor (SF2Q pulse))
               (with_prescale (prescale + 1) w))
  /\ (forall (T : Transport) (num : Z) (w : world T),
         _prescale (drv w) = 121 -> _oscillator_freq (drv w) = 25000000 ->
         writeMicroseconds T num 1500 w
         = setPWM T num 0 307 (with_prescale 122 w)).
Proof.
  assert (G : forall (T : Transport) (num us : Z) (w : world T),
             0 <= _prescale (drv w) < 255 ->
             is_finite (pulse_of us (_prescale (drv w))
                                 (_oscillator_freq (drv w))) = true ->
             (0 <= SF2Q (pulse_of us (_prescale (drv w))
                                  (_oscillator_freq (drv w))) < 65536)%Q ->
             writeMicroseconds T num us w
             = setPWM T num 0
                      (Qfloor (SF2Q (pulse_of us (_prescale (drv w))
                                              (_oscillator_freq (drv w)))))
                      (with_prescale (_prescale (drv w) + 1) w)).
  { intros T num us w Hp Hf Hr.
    rewrite writeMicroseconds_run.
    replace (u8 (_prescale (drv w) + 1)) with (_prescale (drv w) + 1)
      by (unfold u8; rewrite Z.mod_small; lia).
    fold (tickDuration (_prescale (drv w)) (_oscillator_freq (drv w))).
    fold (pulse_of us (_prescale (drv w)) (_oscillator_freq (drv w))).
    rewrite (to_unsigned_floor 16) by assumption. reflexivity. }
  split.
  - intros T num us w prescale pulse. apply G.
  - intros T num w Hp Ho.
    rewrite (G T num 1500 w); rewrite ?Hp, ?Ho;
      try reflexivity; try lia.
    vm_compute. split; [discriminate | reflexivity].
Qed.

Lemma writeMicroseconds_truncates_witness :
  writeMicroseconds Chip.transport 0 1000 world121
  = setPWM Chip.transport 0 0 204 (with_prescale 122 world121)
  /\ writeMicroseconds Chip.transport 0 1500 world121
     = setPWM Chip.transport 0 0 307 (with_prescale 122 world121).
Proof.
  split.
  - apply (proj1 writeMicroseconds_truncates Chip.transport 0 1000 world121).
    + cbn. lia.
    + reflexivity.
    + vm_compute. split; [discriminate | reflexivity].
  - apply (proj2 writeMicroseconds_truncates Chip.transport 0 world121);
      reflexivity.
Defined.

(** ** C3: the stored prescale after [writeMicroseconds] *)

Lemma u8_succ_neq (p : Z) : u8 (p + 1) <> p.
Proof.
  unfold u8. intros E.
  assert (0 <= (p + 1) mod 256 < 256) by (apply Z.mod_pos_bound; lia).
  assert (p + 1 = 256 * ((p + 1) / 256) + (p + 1) mod 256)
    by (apply Z.div_mod; lia).
  lia.
Qed.

(** Claim C3.  A call of [writeMicroseconds] leaves the stored prescale one
    higher than it found it (as a [uint8_t], so 255 becomes 0): the field
    itself is incremented, and it is never the value it was before.  The
    call is defined when the device is held and the tick count fits
    [uint16_t]. *)
Theorem writeMicroseconds_increments_prescale :
  forall (T : Transport) (num us : Z) (w : world T),
    (forall (w' : world T) (r : bool),
        writeMicroseconds T num us w = Some (r, w') ->
        _prescale (drv w') = u8 (_prescale (drv w) + 1)
        /\ _prescale (drv w') <> _prescale (drv w)
        /\ (0 <= _prescale (drv w) < 255 ->
            _prescale (drv w') = _prescale (drv w) + 1))
    /\ (held T w ->
        0 <= _prescale (drv w) < 255 ->
        to_unsigned 16 (pulse_of us (_prescale (drv w))
                                 (_oscillator_freq (drv w))) <> None ->
        exists r w', writeMicroseconds T num us w = Some (r, w')).
Proof.
  intros T num us w. split.
  - intros w' r H.
    unfold writeMicroseconds in H.
    run_step H. run_step H. run_step H. run_step H.
    apply lift_option_inv in R2 as [_ ->].
    apply setPWM_inv in H.
    unfold get_drv in R, R1. inversion R; subst. inversion R1; subst.
    unfold set_prescale, bind, get_drv, put_drv in R0. inversion R0; subst.
    rewrite H. cbn.
    split; [reflexivity |]. split; [apply u8_succ_neq |].
    intros Hp. unfold u8. apply Z.mod_small. lia.
  - intros Hw Hp Hd. rewrite writeMicroseconds_run.
    unfold pulse_of, tickDuration in Hd.
    replace (u8 (_prescale (drv w) + 1)) with (_prescale (drv w) + 1)
      by (unfold u8; rewrite Z.mod_small; lia).
    destruct (to_unsigned 16 _) as [off |]; [| congruence].
    destruct (held_dev_write T
                [u8 (PCA9685_LED0_ON_L + 4 * num);
                 u8 0; u8 (Z.shiftr 0 8); u8 off; u8 (Z.shiftr off 8)]
                (with_prescale (_prescale (drv w) + 1) w) Hw)
      as (r & w' & E & _).
    exists r, w'. exact E.
Qed.

Lemma writeMicroseconds_increments_prescale_witness :
  _prescale (drv (after (writeMicroseconds Chip.transport 0 1500) world121))
  = 122
  /\ exists r w', writeMicroseconds Chip.transport 0 1500 world121
                  = Some (r, w').
Proof.
  split.
  - destruct (proj1 (writeMicroseconds_increments_prescale
                       Chip.transport 0 1500 world121)
                (after (writeMicroseconds Chip.transport 0 1500) world121)
                true) as (H & _).
    + vm_compute. reflexivity.
    + rewrite H. reflexivity.
  - apply (proj2 (writeMicroseconds_increments_prescale
                    Chip.transport 0 1500 world121)).
    + reflexivity.
    + cbn. lia.
    + vm_compute. discriminate.
Defined.

(** ** C9: what [begin] reports *)

Section Begin.

Variable T : Transport.

Lemma one_eq : float_of_Z 1 = S754_finite false 8388608 (-23).
Proof. reflexivity. Qed.

Lemma max_freq_eq : float_of_Z 3500 = S754_finite false 14336000 (-12).
Proof. reflexivity. Qed.

(** After the two [if]s of [setPWMFreq] a frequency is a positive finite
    [float]. *)
Lemma clamp_freq_shape f :
  valid_binary fprec femax f = true -> is_nan f = false ->
  exists m e, clamp_freq f = S754_finite false m e
              /\ bounded fprec femax m e = true.
Proof.
  intros Hv Hn. unfold clamp_freq. rewrite one_eq, max_freq_eq.
  destruct (SFltb f (S754_finite false 8388608 (-23))) eqn:L1.
  - exists 8388608%positive, (-23). split; reflexivity.
  - destruct f as [s|[]| |[] m e]; try discriminate.
    + exists 14336000%positive, (-12). split; reflexivity.
    + destruct (SFltb (S754_finite false 14336000 (-12))
                      (S754_finite false m e)).
      * exists 14336000%positive, (-12). split; reflexivity.
      * exists m, e. split; [reflexivity | exact Hv].
Qed.

Lemma triple_lift_option {A} (P : world T -> Prop) (o : option A) a :
  o = Some a -> triple T P (lift_option T o) (fun r w => r = a /\ P w).
Proof. intros -> w Hw. exists a, w. auto. Qed.

Lemma held_reset : triple T (held T) (reset T) (fun _ => held T).
Proof. unfold reset. held_steps. auto with held. Qed.

Lemma held_setExtClk prescale :
  triple T (held T) (setExtClk T prescale) (fun _ => held T).
Proof. unfold setExtClk. held_steps. auto with held. Qed.

(** [setPWMFreq] is defined for every frequency that is not a NaN. *)
Lemma held_setPWMFreq f :
  valid_binary fprec femax f = true -> is_nan f = false ->
  triple T (held T) (setPWMFreq T f) (fun _ => held T).
Proof.
  intros Hv Hn. destruct (clamp_freq_shape f Hv Hn) as (m & e & E & Hb).
  unfold setPWMFreq. cbv zeta.
  eapply triple_bind; [apply triple_get_drv | intros d].
  eapply triple_bind.
  { apply (triple_lift_option _ _
             (prescale_of (prescaleval d (S754_finite false m e)))).
    change (calcPrescale d (clamp_freq f)
            = Some (prescale_of (prescaleval d (S754_finite false m e)))).
    rewrite E. apply calcPrescale_positive. exact Hb. }
  intros p. cbv beta.
  eapply triple_conseq with (P' := held T) (Q' := fun _ => held T);
    [| intros w (_ & _ & H); exact H | auto].
  held_steps. auto with held.
Qed.

Lemma bind_run {A B} (c : M T A) (k : A -> M T B) w a w1 :
  c w = Some (a, w1) -> bind T c k w = k a w1.
Proof. intros E. unfold bind. now rewrite E. Qed.

Lemma renew_dev_run w :
  exists w1, renew_dev T w = Some (tt, w1) /\ held T w1 /\ bus w1 = bus w.
Proof.
  destruct w as [d b tr].
  unfold renew_dev, bind, get_drv, set_i2c_dev, put_drv, log, ret; cbn.
  destruct (i2c_dev d); cbn; eexists; repeat split.
Qed.

Lemma dev_begin_run ad w :
  held T w ->
  exists w1, dev_begin T ad w = Some (fst (t_begin T ad (bus w)), w1)
             /\ held T w1.
Proof.
  destruct w as [d b tr]. intros Hw. unfold held in Hw; cbn in Hw.
  unfold dev_begin, with_dev, bind, get_drv; cbn. rewrite Hw; cbn.
  destruct (t_begin T ad b) as [ok b']. eexists.
  split; [reflexivity | exact Hw].
Qed.

(** A failed read of PRESCALE reads as 0. *)
Lemma readPrescale_failed w :
  held T w ->
  fst (fst (t_write_then_read T [PCA9685_PRESCALE] 1 (bus w))) = false ->
  exists w', readPrescale T w = Some (0, w').
Proof.
  destruct w as [d b tr]. intros Hw. unfold held in Hw; cbn in Hw.
  cbn [bus]. intros Hf.
  unfold readPrescale, read8, dev_write_then_read, with_dev, bind, get_drv.
  cbn [drv bus trace]. rewrite Hw.
  change (u8 PCA9685_PRESCALE) with PCA9685_PRESCALE. cbn.
  destruct (t_write_then_read T [PCA9685_PRESCALE] 1 b) as [[ok data] b'].
  cbn in Hf. subst ok. cbn. eexists. reflexivity.
Qed.

(** What [calcPrescale] computes is never the 0 of a failed read. *)
Lemma calcPrescale_Some_range d f p :
  calcPrescale d f = Some p ->
  PCA9685_PRESCALE_MIN <= p <= PCA9685_PRESCALE_MAX.
Proof.
  rewrite calcPrescale_eq, prescaleval_eq.
  generalize (ddiv (double_of_Z (_oscillator_freq d))
                   (dmul (to_double f) d4096)).
  intros x H.
  destruct (is_nan x) eqn:N.
  - destruct x; try discriminate N. vm_compute in H. discriminate H.
  - destruct (after_division_good x N) as [V N'].
    rewrite (clamp_to_uint8 _ V N') in H. inversion H; subst.
    apply prescale_of_range.
Qed.

Lemma begin_spec prescale w :
  exists ok w',
    begin T prescale w = Some (ok, w')
    /\ (ok = false <->
        fst (t_begin T true (bus w)) = false \/ _prescale (drv w') = 0).
Proof.
  destruct (renew_dev_run w) as (w1 & E1 & H1 & B1).
  destruct (dev_begin_run true w1 H1) as (w2 & E2 & H2).
  unfold begin. rewrite (bind_run _ _ _ _ _ E1), (bind_run _ _ _ _ _ E2).
  rewrite B1. destruct (fst (t_begin T true (bus w))) eqn:Ok; cbn [negb].
  - assert (G : triple T (held T)
                  (bind T (reset T) (fun _ =>
                   bind T (if prescale =? 0
                           then setPWMFreq T (float_of_Z 1000)
                           else setExtClk T prescale) (fun _ =>
                   bind T (setOscillatorFrequency T FREQUENCY_OSCILLATOR)
                     (fun _ =>
                   bind T (readPrescale T) (fun p =>
                   bind T (set_prescale T p) (fun _ =>
                   if p =? 0 then ret T false else ret T true))))))
                  (fun ok w' => ok = false <-> _prescale (drv w') = 0)).
    { eapply triple_bind; [apply held_reset | intros ?].
      eapply triple_bind.
      { apply held_if; [apply held_setPWMFreq; reflexivity
                       | apply held_setExtClk]. }
      intros ?.
      eapply triple_bind; [apply held_setOscillatorFrequency | intros ?].
      eapply triple_bind; [apply held_readPrescale | intros p].
      intros [d b tr] _.
      unfold set_prescale, bind, get_drv, put_drv, ret. cbn.
      destruct (Z.eqb_spec p 0) as [-> | Hp]; eexists _, _;
        (split; [reflexivity |]); cbn; split; auto; intros; congruence. }
    destruct (G w2 H2) as (ok & w' & E & Hok).
    exists ok, w'. split; [exact E |].
    rewrite Hok. split; [auto | intros [C | C]; [discriminate | exact C]].
  - exists false, w2. split; [reflexivity |]. split; auto.
Qed.

End Begin.

(** ** C8: is the frequency already set? *)

Section FreqSet.

Variable T : Transport.

Local Abbreviation keeps := (keeps_oscillator T).

Lemma keeps_bind {A B} (c : M T A) (k : A -> M T B) :
  keeps c -> (forall a, keeps (k a)) -> keeps (bind T c k).
Proof.
  intros Hc Hk w b w'' H. apply bind_Some in H as (a & w' & H1 & H2).
  rewrite (Hk a _ _ _ H2). exact (Hc _ _ _ H1).
Qed.

Lemma keeps_ret {A} (a : A) : keeps (ret T a).
Proof. intros w b w' H. inversion H. reflexivity. Qed.

Lemma keeps_get_drv : keeps (get_drv T).
Proof. intros w b w' H. inversion H. reflexivity. Qed.

Lemma keeps_lift_option {A} (o : option A) : keeps (lift_option T o).
Proof. intros w b w' H. apply lift_option_inv in H as [_ ->]. reflexivity. Qed.

Lemma keeps_dev_write buf : keeps (dev_write T buf).
Proof. intros w b w' H. apply dev_write_inv in H as [-> _]. reflexivity. Qed.

Lemma keeps_dev_write_then_read buf len :
  keeps (dev_write_then_read T buf len).
Proof.
  intros w b w' H. apply dev_write_then_read_inv in H as [-> _]. reflexivity.
Qed.

Lemma keeps_delay ms : keeps (delay T ms).
Proof. intros w b w' H. inversion H. reflexivity. Qed.

Lemma keeps_set_prescale p : keeps (set_prescale T p).
Proof. intros w b w' H. inversion H. reflexivity. Qed.

Lemma keeps_read8 addr : keeps (read8 T addr).
Proof.
  unfold read8. apply keeps_bind; [apply keeps_dev_write_then_read |].
  intros r. destruct (negb (fst r)); apply keeps_ret.
Qed.

Lemma keeps_write8 addr d : keeps (write8 T addr d).
Proof.
  unfold write8. apply keeps_bind; [apply keeps_dev_write |].
  intros ?. apply keeps_ret.
Qed.

Lemma keeps_readPrescale : keeps (readPrescale T).
Proof.
  unfold readPrescale. apply keeps_bind; [apply keeps_read8 |].
  intros r. destruct (success r); apply keeps_ret.
Qed.

Lemma keeps_setPWMFreq f : keeps (setPWMFreq T f).
Proof.
  unfold setPWMFreq. cbv zeta.
  repeat first
    [ apply keeps_get_drv | apply keeps_lift_option | apply keeps_read8
    | apply keeps_write8 | apply keeps_delay | apply keeps_readPrescale
    | apply keeps_set_prescale
    | apply keeps_bind; [| intros ?] ].
Qed.

Lemma calcPrescale_oscillator d d' f :
  _oscillator_freq d = _oscillator_freq d' ->
  calcPrescale d f = calcPrescale d' f.
Proof. intros E. unfold calcPrescale. rewrite E. reflexivity. Qed.

(** [isFreqSet] compares the prescale of the frequency with the stored
    one. *)
Lemma isFreqSet_run f w :
  isFreqSet T f w
  = match calcPrescale (drv w) f with
    | Some p => Some (p =? _prescale (drv w), w)
    | None => None
    end.
Proof.
  unfold isFreqSet, bind, get_drv, lift_option, ret, undefined.
  destruct (calcPrescale (drv w) f); reflexivity.
Qed.

(** From 1 to 3500 the two [if]s of [setPWMFreq] change nothing. *)
Lemma clamp_freq_in_range f :
  valid_binary fprec femax f = true ->
  SFleb (float_of_Z 1) f = true -> SFleb f (float_of_Z 3500) = true ->
  clamp_freq f = f.
Proof.
  intros Hv H1 H2.
  assert (N : is_nan f = false) by (destruct f; try discriminate; reflexivity).
  pose proof (SFleb_SFle fprec femax fprec_pos femax_gt
                (float_of_Z 1) f eq_refl Hv H1) as L1.
  pose proof (SFleb_SFle fprec femax fprec_pos femax_gt
                f (float_of_Z 3500) Hv eq_refl H2) as L2.
  unfold clamp_freq.
  destruct (SFltb f (float_of_Z 1)) eqn:E1.
  - apply (SFltb_SFle fprec femax fprec_pos femax_gt
             f (float_of_Z 1) Hv eq_refl N eq_refl) in E1 as [_ C].
    contradiction.
  - destruct (SFltb (float_of_Z 3500) f) eqn:E2; [| reflexivity].
    apply (SFltb_SFle fprec femax fprec_pos femax_gt
             (float_of_Z 3500) f eq_refl Hv eq_refl N) in E2 as [_ C].
    contradiction.
Qed.

(** After a [setPWMFreq] whose read of PRESCALE returned the value it
    wrote, [isFreqSet] holds of the frequency as [setPWMFreq] clamped
    it. *)
Lemma isFreqSet_after_setPWMFreq f w w' :
  setPWMFreq T f w = Some (tt, w') ->
  calcPrescale (drv w) (clamp_freq f) = Some (_prescale (drv w')) ->
  isFreqSet T (clamp_freq f) w' = Some (true, w').
Proof.
  intros H Hrb. apply keeps_setPWMFreq in H.
  rewrite isFreqSet_run.
  rewrite (calcPrescale_oscillator (drv w') (drv w)) by exact H.
  rewrite Hrb, Z.eqb_refl. reflexivity.
Qed.

Lemma isFreqSet_after_setPWMFreq_in_range f w w' :
  valid_binary fprec femax f = true ->
  SFleb (float_of_Z 1) f = true -> SFleb f (float_of_Z 3500) = true ->
  setPWMFreq T f w = Some (tt, w') ->
  calcPrescale (drv w) f = Some (_prescale (drv w')) ->
  isFreqSet T f w' = Some (true, w').
Proof.
  intros Hv H1 H2 H Hrb.
  rewrite <- (clamp_freq_in_range f Hv H1 H2) in Hrb |- * at 1.
  now apply isFreqSet_after_setPWMFreq with (w := w).
Qed.

End FreqSet.

(** Claim C8, at the input where the code departs from it.  On a chip
    that reads back what was written, with the oscillator at 25 MHz,
    [setPWMFreq] of -1 Hz clamps the frequency to 1 Hz, writes the prescale
    255 and stores the 255 it reads back; [isFreqSet] of -1 Hz, which does
    not clamp, computes the prescale 3 and returns [false]. *)
Theorem isFreqSet_false_after_setPWMFreq :
  result (setPWMFreq Chip.transport (float_of_Z (-1))) world121 = Some tt
  /\ calcPrescale (drv world121) (clamp_freq (float_of_Z (-1))) = Some 255
  /\ _prescale (drv (after (setPWMFreq Chip.transport (float_of_Z (-1)))
                           world121)) = 255
  /\ calcPrescale (drv (after (setPWMFreq Chip.transport (float_of_Z (-1)))
                              world121))
                  (float_of_Z (-1)) = Some 3
  /\ result (isFreqSet Chip.transport (float_of_Z (-1)))
            (after (setPWMFreq Chip.transport (float_of_Z (-1))) world121)
     = Some false.
Proof. repeat split; vm_compute; reflexivity. Qed.

(** * Further properties of the code *)

(** ** [calcPrescale] outside the range of [setPWMFreq] *)

Section PrescaleEdges.

Local Open Scope Q_scope.

Lemma calcPrescale_of_not_nan d f :
  is_nan (ddiv (double_of_Z (_oscillator_freq d))
               (dmul (to_double f) d4096)) = false ->
  calcPrescale d f = Some (prescale_of (prescaleval d f)).
Proof.
  intros N. rewrite calcPrescale_eq.
  destruct (after_division_good _ N) as [V N'].
  rewrite <- prescaleval_eq in V, N'. apply clamp_to_uint8; assumption.
Qed.

(** A positive oscillator frequency is a positive finite [double]. *)
Lemma double_of_Z_pos osc :
  (0 < osc < 2 ^ 32)%Z ->
  exists m e, double_of_Z osc = S754_finite false m e.
Proof.
  intros Hosc.
  destruct (double_of_Z_exact osc) as (Vx & Fx & _); [lia |].
  assert (Hq : 0 < inject_Z osc).
  { change 0 with (inject_Z 0). rewrite <- Zlt_Qlt. lia. }
  destruct (double_of_Z osc) as [s|s| |s m e]; try discriminate.
  - exfalso. change (SF2Q (S754_zero s)) with 0 in Vx. lra.
  - destruct s; [exfalso | eauto].
    pose proof (Zpos_Q_pos m e). cbn [SF2Q cond_Zopp] in Vx.
    rewrite inject_Z_opp in Vx. lra.
Qed.

Lemma division_not_nan osc f :
  (0 < osc < 2 ^ 32)%Z ->
  valid_binary fprec femax f = true -> is_nan f = false ->
  is_nan (ddiv (double_of_Z osc) (dmul (to_double f) d4096)) = false.
Proof.
  intros Hosc Hv Hn. destruct f as [s|s| |s m e]; try discriminate.
  - destruct (double_of_Z_pos osc Hosc) as (m & e & ->).
    rewrite d4096_eq. reflexivity.
  - apply (rounds_valid dprec demax dprec_pos demax_gt 0).
    apply ddiv_infinity. lia.
  - eapply (rounds_valid dprec demax dprec_pos demax_gt).
    apply ddiv_finite; [lia | exact Hv].
Qed.

(** A quotient that is at most a half gives the least prescale. *)
Lemma prescale_of_low q x :
  rounds dprec demax q x -> q <= 1 # 2 ->
  prescale_of (after_division x) = PCA9685_PRESCALE_MIN.
Proof.
  intros R Hq.
  assert (G : SF_le_Q x (inject_Z 0 + (1 # 2))).
  { apply (rounds_le dprec demax dprec_pos demax_gt q); [exact R | |].
    - change (inject_Z 0) with 0. lra.
    - apply (representable_half 0); [reflexivity | unfold dprec; lia]. }
  apply after_division_le in G; [| lia].
  apply prescale_of_le in G.
  pose proof (prescale_of_range (after_division x)).
  unfold clampZ, PCA9685_PRESCALE_MAX, PCA9685_PRESCALE_MIN in *. lia.
Qed.

End PrescaleEdges.

(** For a positive 32-bit oscillator frequency [calcPrescale] is defined on
    every frequency that is not a NaN (zero, negative and infinite ones
    too) and stays within the prescale range; with the oscillator at 0 a
    zero frequency divides 0 by 0 and the conversion is undefined. *)
Theorem calcPrescale_defined :
  forall (d : driver) (freq : spec_float),
    (0 < _oscillator_freq d < 2 ^ 32 ->
     valid_binary fprec femax freq = true -> is_nan freq = false ->
     exists prescale,
       calcPrescale d freq = Some prescale
       /\ PCA9685_PRESCALE_MIN <= prescale <= PCA9685_PRESCALE_MAX)
    /\ (_oscillator_freq d = 0 ->
        forall s, calcPrescale d (S754_zero s) = None)
    /\ calcPrescale d S754_nan = None.
Proof.
  intros d freq. split; [| split].
  - intros Hosc Hv Hn.
    exists (prescale_of (prescaleval d freq)). split.
    + apply calcPrescale_of_not_nan. apply division_not_nan; assumption.
    + apply prescale_of_range.
  - intros H s. unfold calcPrescale. rewrite H. destruct s; reflexivity.
  - unfold calcPrescale. generalize (double_of_Z (_oscillator_freq d)).
    intros [s|s| |s m e]; reflexivity.
Qed.

Lemma calcPrescale_defined_witness :
  exists prescale,
    calcPrescale (mkDriver PCA9685_I2C_ADDRESS true FREQUENCY_OSCILLATOR 0)
                 (S754_infinity true) = Some prescale
    /\ PCA9685_PRESCALE_MIN <= prescale <= PCA9685_PRESCALE_MAX.
Proof.
  apply (proj1 (calcPrescale_defined
                  (mkDriver PCA9685_I2C_ADDRESS true FREQUENCY_OSCILLATOR 0)
                  (S754_infinity true)));
    try reflexivity.
  cbn [_oscillator_freq]. unfold FREQUENCY_OSCILLATOR. lia.
Defined.

Section PrescaleOrder.

Local Open Scope Q_scope.

Lemma negative_quotient osc b :
  (0 <= osc)%Z -> b < 0 -> inject_Z osc / (b * 4096) <= 1 # 2.
Proof.
  intros Hosc Hb.
  assert (Ho : 0 <= inject_Z osc).
  { change 0 with (inject_Z 0). rewrite <- Zle_Qle. exact Hosc. }
  assert (E : inject_Z osc / (b * 4096) * (b * 4096) == inject_Z osc)
    by (field; intros Z0; lra).
  generalize dependent (inject_Z osc / (b * 4096)). intros q E.
  destruct (Qlt_le_dec 0 q); [exfalso; nra | lra].
Qed.

(** Above a positive frequency the prescale is not higher. *)
Lemma prescale_antitone d f1 f2 :
  (0 <= _oscillator_freq d < 2 ^ 32)%Z ->
  valid_binary fprec femax f1 = true ->
  valid_binary fprec femax f2 = true ->
  SFltb (S754_zero false) f1 = true -> SFle f1 f2 ->
  exists p1 p2,
    calcPrescale d f1 = Some p1 /\ calcPrescale d f2 = Some p2
    /\ (p2 <= p1)%Z.
Proof.
  intros Hosc V1 V2 Hp L.
  assert (Hp2 : SFltb (S754_zero false) f2 = true).
  { destruct f1 as [s1|[]| |[] m1 e1]; try discriminate;
      destruct f2 as [s2|[]| |[] m2 e2]; cbn [SFle] in L;
      try contradiction; try reflexivity; exfalso.
    - pose proof (Zpos_Q_pos m1 e1).
      change (SF2Q (S754_zero s2)) with 0 in L.
      cbn [SF2Q cond_Zopp] in L. lra.
    - pose proof (Zpos_Q_pos m1 e1). pose proof (Zpos_Q_pos m2 e2).
      cbn [SF2Q cond_Zopp] in L. rewrite inject_Z_opp in L. lra. }
  pose proof (quotient_rounds _ f1 Hosc V1 Hp) as R1.
  pose proof (quotient_rounds _ f2 Hosc V2 Hp2) as R2.
  exists (prescale_of (prescaleval d f1)), (prescale_of (prescaleval d f2)).
  split; [exact (calcPrescale_of_rounds d f1 _ R1) |].
  split; [exact (calcPrescale_of_rounds d f2 _ R2) |].
  apply prescale_of_mono. rewrite !prescaleval_eq.
  apply after_division_mono.
  apply (rounds_mono dprec demax dprec_pos demax_gt
           (quotient (_oscillator_freq d) f2)
           (quotient (_oscillator_freq d) f1)); [| exact R2 | exact R1].
  apply quotient_antitone; [lia | exact Hp | exact L].
Qed.

End PrescaleOrder.

(** Every negative frequency, finite or infinite, gives the least
    prescale: the quotient is not positive and the clamp lifts it to
    [PCA9685_PRESCALE_MIN]. *)
Theorem calcPrescale_negative :
  forall (d : driver) (freq : spec_float),
    0 <= _oscillator_freq d < 2 ^ 32 ->
    valid_binary fprec femax freq = true ->
    SFltb freq (float_of_Z 0) = true ->
    calcPrescale d freq = Some PCA9685_PRESCALE_MIN.
Proof.
  intros d freq Hosc Hv Hneg.
  destruct freq as [s|[]| |[] m e]; try discriminate.
  - pose proof (ddiv_infinity (_oscillator_freq d) true Hosc) as R.
    rewrite (calcPrescale_of_rounds d _ _ R), prescaleval_eq.
    f_equal. apply (prescale_of_low 0%Q); [exact R | unfold Qle; cbn; lia].
  - pose proof (ddiv_finite (_oscillator_freq d) true m e Hosc Hv) as R.
    rewrite (calcPrescale_of_rounds d _ _ R), prescaleval_eq.
    f_equal. eapply prescale_of_low; [exact R |].
    apply negative_quotient; [lia |].
    pose proof (Zpos_Q_pos m e). cbn [SF2Q cond_Zopp].
    rewrite inject_Z_opp.
    setoid_replace (- inject_Z (Z.pos m) * pow2 e)%Q
      with (- (inject_Z (Z.pos m) * pow2 e))%Q by ring.
    apply Qlt_minus_iff. ring_simplify. exact H.
Qed.

Lemma calcPrescale_negative_witness :
  calcPrescale (mkDriver PCA9685_I2C_ADDRESS true 27000000 0)
               (float_of_Z (-50)) = Some PCA9685_PRESCALE_MIN.
Proof.
  apply (calcPrescale_negative
           (mkDriver PCA9685_I2C_ADDRESS true 27000000 0)
           (float_of_Z (-50)));
    try reflexivity.
  cbn [_oscillator_freq]. lia.
Defined.

(** A zero frequency divides by zero: with a positive oscillator
    frequency, [+0.0] gives the greatest prescale and [-0.0], which
    compares equal to it, the least. *)
Theorem calcPrescale_zero :
  forall d : driver,
    0 < _oscillator_freq d < 2 ^ 32 ->
    calcPrescale d (S754_zero false) = Some PCA9685_PRESCALE_MAX
    /\ calcPrescale d (S754_zero true) = Some PCA9685_PRESCALE_MIN
    /\ SFeqb (S754_zero false) (S754_zero true) = true.
Proof.
  intros d Hosc.
  destruct (double_of_Z_pos _ Hosc) as (m & e & E).
  unfold calcPrescale. rewrite E. repeat split.
Qed.

Lemma calcPrescale_zero_witness :
  calcPrescale (mkDriver PCA9685_I2C_ADDRESS true FREQUENCY_OSCILLATOR 0)
               (S754_zero false) = Some PCA9685_PRESCALE_MAX
  /\ calcPrescale (mkDriver PCA9685_I2C_ADDRESS true FREQUENCY_OSCILLATOR 0)
                  (S754_zero true) = Some PCA9685_PRESCALE_MIN
  /\ SFeqb (S754_zero false) (S754_zero true) = true.
Proof.
  apply (calcPrescale_zero
           (mkDriver PCA9685_I2C_ADDRESS true FREQUENCY_OSCILLATOR 0)).
  cbn [_oscillator_freq]. unfold FREQUENCY_OSCILLATOR. lia.
Defined.

(** ** The frequency clamp of [setPWMFreq] and [isFreqSet] *)

(** Where the prescale is already saturated at both ends of the clamp of
    [setPWMFreq] (255 at 1 Hz and 3 at 3500 Hz, as with the default
    oscillator), the clamp changes the prescale of no positive frequency:
    [calcPrescale] gives the same with and without it. *)
Theorem clamp_freq_redundant :
  forall (d : driver) (freq : spec_float),
    0 <= _oscillator_freq d < 2 ^ 32 ->
    calcPrescale d (float_of_Z 1) = Some PCA9685_PRESCALE_MAX ->
    calcPrescale d (float_of_Z 3500) = Some PCA9685_PRESCALE_MIN ->
    valid_binary fprec femax freq = true ->
    SFltb (float_of_Z 0) freq = true ->
    calcPrescale d (clamp_freq freq) = calcPrescale d freq.
Proof.
  intros d freq Hosc H1 H3500 Hv Hp.
  change (float_of_Z 0) with (S754_zero false) in Hp.
  assert (N : is_nan freq = false)
    by (destruct freq; try discriminate; reflexivity).
  unfold clamp_freq.
  destruct (SFltb freq (float_of_Z 1)) eqn:E1.
  - change (SFltb (float_of_Z 3500) (float_of_Z 1)) with false. cbv iota.
    apply (SFltb_SFle fprec femax fprec_pos femax_gt
             freq (float_of_Z 1) Hv eq_refl N eq_refl) in E1 as [L _].
    destruct (prescale_antitone d freq (float_of_Z 1) Hosc Hv eq_refl Hp L)
      as (p1 & p2 & P1 & P2 & Hle).
    rewrite H1 in P2. inversion P2; subst p2.
    pose proof (calcPrescale_Some_range d freq p1 P1) as Hr.
    rewrite H1, P1. f_equal. lia.
  - destruct (SFltb (float_of_Z 3500) freq) eqn:E2; [| reflexivity].
    apply (SFltb_SFle fprec femax fprec_pos femax_gt
             (float_of_Z 3500) freq eq_refl Hv eq_refl N) in E2 as [L _].
    destruct (prescale_antitone d (float_of_Z 3500) freq Hosc eq_refl Hv
                eq_refl L) as (p1 & p2 & P1 & P2 & Hle).
    rewrite H3500 in P1. inversion P1; subst p1.
    pose proof (calcPrescale_Some_range d freq p2 P2) as Hr.
    rewrite H3500, P2. f_equal. lia.
Qed.

Lemma clamp_freq_redundant_witness :
  calcPrescale (mkDriver PCA9685_I2C_ADDRESS true FREQUENCY_OSCILLATOR 0)
               (clamp_freq (float_of_Z 5000))
  = calcPrescale (mkDriver PCA9685_I2C_ADDRESS true FREQUENCY_OSCILLATOR 0)
                 (float_of_Z 5000).
Proof.
  apply (clamp_freq_redundant
           (mkDriver PCA9685_I2C_ADDRESS true FREQUENCY_OSCILLATOR 0)
           (float_of_Z 5000));
    try reflexivity.
  cbn [_oscillator_freq]. unfold FREQUENCY_OSCILLATOR. lia.
Defined.

(** [isFreqSet] touches neither the bus nor the driver, and a stored
    prescale of 0 (an unread or unreadable register) makes it answer
    [false] for every frequency. *)
Theorem isFreqSet_unread_prescale :
  forall (T : Transport) (freq : spec_float) (w w' : world T) (r : bool),
    isFreqSet T freq w = Some (r, w') ->
    w' = w /\ (_prescale (drv w) = 0 -> r = false).
Proof.
  intros T freq w w' r H. rewrite isFreqSet_run in H.
  destruct (calcPrescale (drv w) freq) as [p |] eqn:E; [| discriminate].
  inversion H; subst. split; [reflexivity |].
  intros Hz. apply calcPrescale_Some_range in E.
  unfold PCA9685_PRESCALE_MIN in E. rewrite Hz.
  apply Z.eqb_neq. lia.
Qed.

Lemma isFreqSet_unread_prescale_witness :
  Chip.fresh = Chip.fresh
  /\ (_prescale (drv Chip.fresh) = 0 -> false = false).
Proof.
  exact (isFreqSet_unread_prescale Chip.transport (float_of_Z 1000)
           Chip.fresh Chip.fresh false eq_refl).
Defined.

(** ** Steps on the bus *)

Section Steps.

Variable T : Transport.

Lemma held_drv (w w1 : world T) : drv w1 = drv w -> held T w -> held T w1.
Proof. unfold held. intros ->. auto. Qed.

Lemma dev_write_run buf w :
  held T w ->
  exists ok w1,
    dev_write T buf w = Some (ok, w1)
    /\ drv w1 = drv w /\ trace w1 = trace w ++ [EvWrite buf ok].
Proof.
  intros Hw. destruct (held_dev_write T buf w Hw) as (ok & w1 & E & _).
  exists ok, w1. split; [exact E |]. now apply dev_write_inv in E.
Qed.

Lemma read8_run addr w :
  held T w ->
  exists ok data w1,
    read8 T addr w = Some (mkReadResult (byte_read addr data) ok, w1)
    /\ drv w1 = drv w
    /\ trace w1 = trace w ++ [EvWriteThenRead [u8 addr] 1 ok data].
Proof.
  intros Hw.
  destruct (held_dev_write_then_read T [u8 addr] 1 w Hw)
    as ([ok data] & w1 & E & _).
  exists ok, data, w1. unfold read8. rewrite (bind_run T _ _ _ _ _ E).
  apply dev_write_then_read_inv in E as [D E]. cbn [fst snd] in *.
  destruct ok; cbn; auto.
Qed.

Lemma write8_run addr d w :
  held T w ->
  exists ok w1,
    write8 T addr d w = Some (tt, w1)
    /\ drv w1 = drv w /\ trace w1 = trace w ++ [EvWrite [u8 addr; u8 d] ok].
Proof.
  intros Hw. destruct (dev_write_run [u8 addr; u8 d] w Hw)
    as (ok & w1 & E & D & Tr).
  exists ok, w1. unfold write8. rewrite (bind_run T _ _ _ _ _ E). auto.
Qed.

Lemma delay_run ms w :
  exists w1, delay T ms w = Some (tt, w1)
             /\ drv w1 = drv w /\ trace w1 = trace w ++ [EvDelay ms].
Proof. eexists. repeat split. Qed.

End Steps.

(** ** Bits of the mode bytes *)

Lemma testbit_4 i : Z.testbit 4 i = (i =? 2).
Proof. change 4 with (2 ^ 2). rewrite Z.eqb_sym. apply Z.pow2_bits_eqb. lia. Qed.

Lemma testbit_16 i : Z.testbit 16 i = (i =? 4).
Proof. change 16 with (2 ^ 4). rewrite Z.eqb_sym. apply Z.pow2_bits_eqb. lia. Qed.

Lemma testbit_32 i : Z.testbit 32 i = (i =? 5).
Proof. change 32 with (2 ^ 5). rewrite Z.eqb_sym. apply Z.pow2_bits_eqb. lia. Qed.

Lemma testbit_64 i : Z.testbit 64 i = (i =? 6).
Proof. change 64 with (2 ^ 6). rewrite Z.eqb_sym. apply Z.pow2_bits_eqb. lia. Qed.

Lemma testbit_128 i : Z.testbit 128 i = (i =? 7).
Proof.
  change 128 with (2 ^ 7). rewrite Z.eqb_sym. apply Z.pow2_bits_eqb. lia.
Qed.

Lemma u8_range' z : 0 <= u8 z < 256.
Proof. unfold u8. apply Z.mod_pos_bound. lia. Qed.

(** Rewrites the bit [i] of a mode byte built with the masks. *)
Ltac mode_bits :=
  unfold MODE1_SLEEP, MODE1_AI, MODE1_EXTCLK, MODE1_RESTART, MODE2_OUTDRV;
  repeat first
    [ rewrite testbit_u8 by lia
    | rewrite Z.lor_spec | rewrite Z.land_spec | rewrite Z.lnot_spec by lia
    | rewrite testbit_4 | rewrite testbit_16 | rewrite testbit_32
    | rewrite testbit_64 | rewrite testbit_128 ].

(** Decides the equality of the bit index with each bit of the masks. *)
Ltac bit_cases i :=
  destruct (Z.eqb_spec i 2); destruct (Z.eqb_spec i 4);
  destruct (Z.eqb_spec i 5); destruct (Z.eqb_spec i 6);
  destruct (Z.eqb_spec i 7); try lia;
  cbn [negb andb orb]; rewrite ?andb_true_r, ?orb_false_r, ?andb_false_r,
    ?orb_true_r; try reflexivity.

(** ** [sleep], [wakeup] and [setOutputMode]: one bit of the mode *)

(** [sleep] reads MODE1, writes it back with the sleep bit set and every
    other bit as read, and waits 5 ms; the write follows whether or not the
    read succeeded. *)
Theorem sleep_sets_sleep_bit :
  forall (T : Transport) (w : world T),
    held T w ->
    exists ok data ok' mode w',
      sleep T w = Some (tt, w')
      /\ drv w' = drv w
      /\ trace w' = trace w ++ [EvWriteThenRead [PCA9685_MODE1] 1 ok data;
                               EvWrite [PCA9685_MODE1; mode] ok';
                               EvDelay 5]
      /\ Z.testbit mode 4 = true
      /\ (forall i, 0 <= i < 8 -> i <> 4 ->
          Z.testbit mode i = Z.testbit (byte_read PCA9685_MODE1 data) i).
Proof.
  intros T w Hw.
  destruct (read8_run T PCA9685_MODE1 w Hw) as (ok & data & w1 & E1 & D1 & T1).
  destruct (write8_run T PCA9685_MODE1
              (u8 (Z.lor (byte_read PCA9685_MODE1 data) MODE1_SLEEP))
              w1 (held_drv T w w1 D1 Hw)) as (ok' & w2 & E2 & D2 & T2).
  destruct (delay_run T 5 w2) as (w3 & E3 & D3 & T3).
  exists ok, data, ok',
    (u8 (u8 (Z.lor (byte_read PCA9685_MODE1 data) MODE1_SLEEP))), w3.
  split; [| split; [| split; [| split]]].
  - unfold sleep. rewrite (bind_run T _ _ _ _ _ E1). cbv zeta. cbn [val].
    rewrite (bind_run T _ _ _ _ _ E2). exact E3.
  - congruence.
  - rewrite T3, T2, T1, <- !app_assoc. reflexivity.
  - mode_bits. apply orb_true_r.
  - intros i Hi Hn. mode_bits. bit_cases i.
Qed.

Lemma sleep_sets_sleep_bit_witness :
  exists w', sleep Chip.transport world121 = Some (tt, w').
Proof.
  destruct (sleep_sets_sleep_bit Chip.transport world121 eq_refl)
    as (ok & data & ok' & mode & w' & E & _).
  exists w'. exact E.
Defined.

(** [wakeup] reads MODE1 and writes it back with the sleep bit cleared and
    every other bit as read. *)
Theorem wakeup_clears_sleep_bit :
  forall (T : Transport) (w : world T),
    held T w ->
    exists ok data ok' mode w',
      wakeup T w = Some (tt, w')
      /\ drv w' = drv w
      /\ trace w' = trace w ++ [EvWriteThenRead [PCA9685_MODE1] 1 ok data;
                               EvWrite [PCA9685_MODE1; mode] ok']
      /\ Z.testbit mode 4 = false
      /\ (forall i, 0 <= i < 8 -> i <> 4 ->
          Z.testbit mode i = Z.testbit (byte_read PCA9685_MODE1 data) i).
Proof.
  intros T w Hw.
  destruct (read8_run T PCA9685_MODE1 w Hw) as (ok & data & w1 & E1 & D1 & T1).
  destruct (write8_run T PCA9685_MODE1
              (u8 (Z.land (byte_read PCA9685_MODE1 data)
                          (Z.lnot MODE1_SLEEP)))
              w1 (held_drv T w w1 D1 Hw)) as (ok' & w2 & E2 & D2 & T2).
  exists ok, data, ok',
    (u8 (u8 (Z.land (byte_read PCA9685_MODE1 data) (Z.lnot MODE1_SLEEP)))),
    w2.
  split; [| split; [| split; [| split]]].
  - unfold wakeup. rewrite (bind_run T _ _ _ _ _ E1). cbv zeta. cbn [val].
    exact E2.
  - congruence.
  - rewrite T2, T1, <- !app_assoc. reflexivity.
  - mode_bits. cbn. apply andb_false_r.
  - intros i Hi Hn. mode_bits. bit_cases i.
Qed.

Lemma wakeup_clears_sleep_bit_witness :
  exists w', wakeup Chip.transport world121 = Some (tt, w').
Proof.
  destruct (wakeup_clears_sleep_bit Chip.transport world121 eq_refl)
    as (ok & data & ok' & mode & w' & E & _).
  exists w'. exact E.
Defined.

(** [setOutputMode] reads MODE2 and writes it back with the OUTDRV bit as
    its argument says (set for totem pole, cleared for open drain) and
    every other bit as read. *)
Theorem setOutputMode_sets_outdrv :
  forall (T : Transport) (totempole : bool) (w : world T),
    held T w ->
    exists ok data ok' mode w',
      setOutputMode T totempole w = Some (tt, w')
      /\ drv w' = drv w
      /\ trace w' = trace w ++ [EvWriteThenRead [PCA9685_MODE2] 1 ok data;
                               EvWrite [PCA9685_MODE2; mode] ok']
      /\ Z.testbit mode 2 = totempole
      /\ (forall i, 0 <= i < 8 -> i <> 2 ->
          Z.testbit mode i = Z.testbit (byte_read PCA9685_MODE2 data) i).
Proof.
  intros T totempole w Hw.
  destruct (read8_run T PCA9685_MODE2 w Hw) as (ok & data & w1 & E1 & D1 & T1).
  destruct (write8_run T PCA9685_MODE2
              (if totempole
               then u8 (Z.lor (byte_read PCA9685_MODE2 data) MODE2_OUTDRV)
               else u8 (Z.land (byte_read PCA9685_MODE2 data)
                               (Z.lnot MODE2_OUTDRV)))
              w1 (held_drv T w w1 D1 Hw)) as (ok' & w2 & E2 & D2 & T2).
  exists ok, data, ok',
    (u8 (if totempole
         then u8 (Z.lor (byte_read PCA9685_MODE2 data) MODE2_OUTDRV)
         else u8 (Z.land (byte_read PCA9685_MODE2 data)
                         (Z.lnot MODE2_OUTDRV)))),
    w2.
  split; [| split; [| split; [| split]]].
  - unfold setOutputMode. rewrite (bind_run T _ _ _ _ _ E1). cbv zeta.
    cbn [val]. exact E2.
  - congruence.
  - rewrite T2, T1, <- !app_assoc. reflexivity.
  - destruct totempole; mode_bits; cbn.
    + apply orb_true_r.
    + apply andb_false_r.
  - intros i Hi Hn. destruct totempole; mode_bits; bit_cases i.
Qed.

Lemma setOutputMode_sets_outdrv_witness :
  exists w', setOutputMode Chip.transport true world121 = Some (tt, w').
Proof.
  destruct (setOutputMode_sets_outdrv Chip.transport true world121 eq_refl)
    as (ok & data & ok' & mode & w' & E & _).
  exists w'. exact E.
Defined.

(** ** [setExtClk] and [setPWMFreq]: the sequence on the bus *)

(** [setExtClk] reads MODE1 and writes, in this order: MODE1 asleep,
    MODE1 asleep with the external clock, PRESCALE with its argument and,
    5 ms later, MODE1 awake with the external clock, restart and
    auto-increment set; the four low bits of the mode stay as read. *)
Theorem setExtClk_sequence :
  forall (T : Transport) (prescale : Z) (w : world T),
    held T w ->
    exists ok data o1 o2 o3 o4 m1 m2 m3 w',
      setExtClk T prescale w = Some (tt, w')
      /\ drv w' = drv w
      /\ trace w' = trace w ++ [EvWriteThenRead [PCA9685_MODE1] 1 ok data;
                               EvWrite [PCA9685_MODE1; m1] o1;
                               EvWrite [PCA9685_MODE1; m2] o2;
                               EvWrite [PCA9685_PRESCALE; u8 prescale] o3;
                               EvDelay 5;
                               EvWrite [PCA9685_MODE1; m3] o4]
      /\ Z.testbit m1 4 = true
      /\ Z.testbit m2 4 = true /\ Z.testbit m2 6 = true
      /\ Z.testbit m3 4 = false /\ Z.testbit m3 5 = true
      /\ Z.testbit m3 6 = true /\ Z.testbit m3 7 = true
      /\ (forall i, 0 <= i < 4 ->
          Z.testbit m3 i = Z.testbit (byte_read PCA9685_MODE1 data) i).
Proof.
  intros T prescale w Hw.
  destruct (read8_run T PCA9685_MODE1 w Hw) as (ok & data & w1 & E1 & D1 & T1).
  set (old := byte_read PCA9685_MODE1 data) in *.
  set (n1 := u8 (Z.lor (Z.land old (Z.lnot MODE1_RESTART)) MODE1_SLEEP)).
  set (n2 := u8 (Z.lor n1 MODE1_EXTCLK)).
  destruct (write8_run T PCA9685_MODE1 n1 w1 (held_drv T w w1 D1 Hw))
    as (o1 & w2 & E2 & D2 & T2).
  assert (H2 : held T w2) by (apply (held_drv T w); congruence).
  destruct (write8_run T PCA9685_MODE1 n2 w2 H2) as (o2 & w3 & E3 & D3 & T3).
  assert (H3 : held T w3) by (apply (held_drv T w); congruence).
  destruct (write8_run T PCA9685_PRESCALE prescale w3 H3)
    as (o3 & w4 & E4 & D4 & T4).
  assert (H4 : held T w4) by (apply (held_drv T w); congruence).
  destruct (delay_run T 5 w4) as (w5 & E5 & D5 & T5).
  assert (H5 : held T w5) by (apply (held_drv T w); congruence).
  destruct (write8_run T PCA9685_MODE1
              (Z.lor (Z.lor (Z.land n2 (Z.lnot MODE1_SLEEP)) MODE1_RESTART)
                     MODE1_AI) w5 H5) as (o4 & w6 & E6 & D6 & T6).
  exists ok, data, o1, o2, o3, o4, (u8 n1), (u8 n2),
    (u8 (Z.lor (Z.lor (Z.land n2 (Z.lnot MODE1_SLEEP)) MODE1_RESTART)
               MODE1_AI)), w6.
  split; [| split; [| split]].
  - unfold setExtClk. rewrite (bind_run T _ _ _ _ _ E1). cbv zeta. cbn [val].
    fold old. fold n1. rewrite (bind_run T _ _ _ _ _ E2). fold n2.
    rewrite (bind_run T _ _ _ _ _ E3), (bind_run T _ _ _ _ _ E4),
      (bind_run T _ _ _ _ _ E5).
    exact E6.
  - congruence.
  - rewrite T6, T5, T4, T3, T2, T1, <- !app_assoc. reflexivity.
  - unfold n2, n1.
    repeat split; try (mode_bits; cbn; rewrite ?orb_true_r, ?andb_false_r;
                       reflexivity).
    intros i Hi. mode_bits. bit_cases i.
Qed.

Lemma setExtClk_sequence_witness :
  exists w', setExtClk Chip.transport 30 world121 = Some (tt, w').
Proof.
  destruct (setExtClk_sequence Chip.transport 30 world121 eq_refl)
    as (ok & data & o1 & o2 & o3 & o4 & m1 & m2 & m3 & w' & E & _).
  exists w'. exact E.
Defined.

Section SetFreq.

Variable T : Transport.

(** The whole of a call of [setPWMFreq]. *)
Lemma setPWMFreq_run f (w : world T) :
  held T w -> valid_binary fprec femax f = true -> is_nan f = false ->
  exists p ok data o1 o2 o3 o4 (okr : bool) datar w',
    setPWMFreq T f w = Some (tt, w')
    /\ calcPrescale (drv w) (clamp_freq f) = Some p
    /\ drv w' = mkDriver (_i2caddr (drv w)) (i2c_dev (drv w))
                         (_oscillator_freq (drv w))
                         (if okr then byte_read PCA9685_PRESCALE datar
                          else 0)
    /\ trace w'
       = trace w
         ++ [EvWriteThenRead [PCA9685_MODE1] 1 ok data;
             EvWrite [PCA9685_MODE1;
                      u8 (Z.lor (Z.land (byte_read PCA9685_MODE1 data)
                                        (Z.lnot MODE1_RESTART))
                                MODE1_SLEEP)] o1;
             EvWrite [PCA9685_PRESCALE; p] o2;
             EvWrite [PCA9685_MODE1; byte_read PCA9685_MODE1 data] o3;
             EvDelay 5;
             EvWrite [PCA9685_MODE1;
                      u8 (Z.lor (Z.lor (byte_read PCA9685_MODE1 data)
                                       MODE1_RESTART) MODE1_AI)] o4;
             EvWriteThenRead [PCA9685_PRESCALE] 1 okr datar].
Proof.
  intros Hw Hv Hn.
  destruct (clamp_freq_shape f Hv Hn) as (m & e & Ef & Hb).
  pose proof (calcPrescale_positive (drv w) m e Hb) as Hc.
  rewrite <- Ef in Hc.
  set (p := prescale_of (prescaleval (drv w) (clamp_freq f))) in *.
  assert (Hp : u8 p = p).
  { pose proof (calcPrescale_Some_range _ _ _ Hc) as R.
    unfold PCA9685_PRESCALE_MIN, PCA9685_PRESCALE_MAX in R.
    unfold u8. apply Z.mod_small. lia. }
  assert (L : lift_option T (calcPrescale (drv w) (clamp_freq f)) w
              = Some (p, w)) by (rewrite Hc; reflexivity).
  destruct (read8_run T PCA9685_MODE1 w Hw) as (ok & data & w1 & E1 & D1 & T1).
  set (old := byte_read PCA9685_MODE1 data) in *.
  assert (H1 : held T w1) by (apply (held_drv T w); congruence).
  destruct (write8_run T PCA9685_MODE1
              (u8 (Z.lor (Z.land old (Z.lnot MODE1_RESTART)) MODE1_SLEEP))
              w1 H1) as (o1 & w2 & E2 & D2 & T2).
  assert (H2 : held T w2) by (apply (held_drv T w); congruence).
  destruct (write8_run T PCA9685_PRESCALE p w2 H2)
    as (o2 & w3 & E3 & D3 & T3).
  assert (H3 : held T w3) by (apply (held_drv T w); congruence).
  destruct (write8_run T PCA9685_MODE1 old w3 H3) as (o3 & w4 & E4 & D4 & T4).
  destruct (delay_run T 5 w4) as (w5 & E5 & D5 & T5).
  assert (H5 : held T w5) by (apply (held_drv T w); congruence).
  destruct (write8_run T PCA9685_MODE1
              (Z.lor (Z.lor old MODE1_RESTART) MODE1_AI) w5 H5)
    as (o4 & w6 & E6 & D6 & T6).
  assert (H6 : held T w6) by (apply (held_drv T w); congruence).
  destruct (read8_run T PCA9685_PRESCALE w6 H6)
    as (okr & datar & w7 & E7 & D7 & T7).
  exists p, ok, data, o1, o2, o3, o4, okr, datar.
  eexists. split; [| split; [exact Hc | split]].
  - unfold setPWMFreq. cbv zeta.
    rewrite (bind_run T _ _ _ _ _ (eq_refl : get_drv T w = Some (drv w, w))).
    rewrite (bind_run T _ _ _ _ _ L).
    rewrite (bind_run T _ _ _ _ _ E1). cbn [val]. fold old.
    rewrite (bind_run T _ _ _ _ _ E2), (bind_run T _ _ _ _ _ E3),
      (bind_run T _ _ _ _ _ E4), (bind_run T _ _ _ _ _ E5),
      (bind_run T _ _ _ _ _ E6).
    assert (E7' : readPrescale T w6
                  = Some (if okr then byte_read PCA9685_PRESCALE datar
                          else 0, w7)).
    { unfold readPrescale. rewrite (bind_run T _ _ _ _ _ E7).
      cbn [success val]. destruct okr; reflexivity. }
    rewrite (bind_run T _ _ _ _ _ E7'). reflexivity.
  - cbn [drv]. replace (drv w7) with (drv w) by congruence.
    destruct okr; reflexivity.
  - cbn [trace].
    rewrite T7, T6, T5, T4, T3, T2, T1, <- !app_assoc.
    rewrite Hp, !u8_idem.
    replace (u8 old) with old by (unfold old, byte_read; now rewrite u8_idem).
    reflexivity.
Qed.

End SetFreq.

(** [setPWMFreq] puts the chip to sleep, writes the prescale of the clamped
    frequency, writes the mode it read back and, 5 ms later, that mode with
    restart and auto-increment set: every other bit of the last mode, the
    sleep bit included, is as it was read, so a sleeping chip is left
    asleep. *)
Theorem setPWMFreq_sequence :
  forall (T : Transport) (freq : spec_float) (w : world T),
    held T w ->
    valid_binary fprec femax freq = true -> is_nan freq = false ->
    exists p ok data o1 o2 o3 o4 okr datar m1 m3 w',
      setPWMFreq T freq w = Some (tt, w')
      /\ calcPrescale (drv w) (clamp_freq freq) = Some p
      /\ trace w'
         = trace w
           ++ [EvWriteThenRead [PCA9685_MODE1] 1 ok data;
               EvWrite [PCA9685_MODE1; m1] o1;
               EvWrite [PCA9685_PRESCALE; p] o2;
               EvWrite [PCA9685_MODE1; byte_read PCA9685_MODE1 data] o3;
               EvDelay 5;
               EvWrite [PCA9685_MODE1; m3] o4;
               EvWriteThenRead [PCA9685_PRESCALE] 1 okr datar]
      /\ Z.testbit m1 4 = true /\ Z.testbit m1 7 = false
      /\ Z.testbit m3 5 = true /\ Z.testbit m3 7 = true
      /\ (forall i, 0 <= i < 8 -> i <> 5 -> i <> 7 ->
          Z.testbit m3 i = Z.testbit (byte_read PCA9685_MODE1 data) i).
Proof.
  intros T freq w Hw Hv Hn.
  destruct (setPWMFreq_run T freq w Hw Hv Hn)
    as (p & ok & data & o1 & o2 & o3 & o4 & okr & datar & w'
        & E & Hc & D & Tr).
  exists p, ok, data, o1, o2, o3, o4, okr, datar.
  eexists _, _, w'.
  split; [exact E |]. split; [exact Hc |]. split; [exact Tr |].
  repeat split;
    try (mode_bits; cbn; rewrite ?orb_true_r, ?andb_false_r; reflexivity).
  intros i Hi H5 H7. mode_bits. bit_cases i.
Qed.

Lemma setPWMFreq_sequence_witness :
  exists w', setPWMFreq Chip.transport (float_of_Z 50) world121
             = Some (tt, w').
Proof.
  destruct (setPWMFreq_sequence Chip.transport (float_of_Z 50) world121
              eq_refl eq_refl eq_refl)
    as (p & ok & data & o1 & o2 & o3 & o4 & okr & datar & m1 & m3 & w'
        & E & _).
  exists w'. exact E.
Defined.

(** [setPWMFreq] ends with a read of PRESCALE and stores what that read
    returns, not what it computed: the byte read, or 0 when the read
    fails.  The other fields of the driver stay as they were. *)
Theorem setPWMFreq_stores_read_back :
  forall (T : Transport) (freq : spec_float) (w : world T),
    held T w ->
    valid_binary fprec femax freq = true -> is_nan freq = false ->
    exists (okr : bool) datar pre w',
      setPWMFreq T freq w = Some (tt, w')
      /\ trace w' = pre ++ [EvWriteThenRead [PCA9685_PRESCALE] 1 okr datar]
      /\ _prescale (drv w')
         = (if okr then byte_read PCA9685_PRESCALE datar else 0)
      /\ _oscillator_freq (drv w') = _oscillator_freq (drv w)
      /\ _i2caddr (drv w') = _i2caddr (drv w)
      /\ i2c_dev (drv w') = i2c_dev (drv w).
Proof.
  intros T freq w Hw Hv Hn.
  destruct (setPWMFreq_run T freq w Hw Hv Hn)
    as (p & ok & data & o1 & o2 & o3 & o4 & okr & datar & w'
        & E & Hc & D & Tr).
  exists okr, datar. eexists _, w'.
  split; [exact E |]. split.
  - rewrite Tr.
    change (?a :: ?b :: ?c :: ?d :: ?e :: ?f :: [?g])
      with ([a; b; c; d; e; f] ++ [g]).
    rewrite app_assoc. reflexivity.
  - rewrite D. cbn. repeat split.
Qed.

Lemma setPWMFreq_stores_read_back_witness :
  exists w',
    setPWMFreq Dead.transport (float_of_Z 50)
               (after (renew_dev Dead.transport) Dead.fresh) = Some (tt, w')
    /\ _prescale (drv w') = 0.
Proof.
  destruct (setPWMFreq_stores_read_back Dead.transport (float_of_Z 50)
              (after (renew_dev Dead.transport) Dead.fresh)
              eq_refl eq_refl eq_refl)
    as (okr & datar & pre & w' & E & _).
  exists w'. split; [exact E |].
  vm_compute in E. inversion E. reflexivity.
Defined.

(** For every frequency from 1 to 3500, [setPWMFreq] writes the prescale
    of that frequency to PRESCALE and ends with a read of PRESCALE;
    [isFreqSet] of the same frequency, called next, changes nothing and
    returns [true] exactly when that read succeeded and returned the
    prescale written. *)
Theorem isFreqSet_true_after_setPWMFreq :
  forall (T : Transport) (freq : spec_float) (w : world T),
    held T w ->
    valid_binary fprec femax freq = true ->
    SFleb (float_of_Z 1) freq = true ->
    SFleb freq (float_of_Z 3500) = true ->
    exists p (okr : bool) datar pre o post w',
      setPWMFreq T freq w = Some (tt, w')
      /\ calcPrescale (drv w) freq = Some p
      /\ trace w'
         = trace w ++ pre ++ EvWrite [PCA9685_PRESCALE; p] o :: post
           ++ [EvWriteThenRead [PCA9685_PRESCALE] 1 okr datar]
      /\ isFreqSet T freq w'
         = Some (okr && (byte_read PCA9685_PRESCALE datar =? p), w').
Proof.
  intros T freq w Hw Hv H1 H2.
  assert (Hn : is_nan freq = false)
    by (destruct freq; try discriminate; reflexivity).
  destruct (setPWMFreq_run T freq w Hw Hv Hn)
    as (p & ok & data & o1 & o2 & o3 & o4 & okr & datar & w'
        & E & Hc & D & Tr).
  rewrite (clamp_freq_in_range freq Hv H1 H2) in Hc.
  exists p, okr, datar. eexists _, o2, _, w'.
  split; [exact E |]. split; [exact Hc |]. split.
  - rewrite Tr.
    change (?a :: ?b :: EvWrite [PCA9685_PRESCALE; p] o2
              :: ?c :: ?d :: ?e :: [?g])
      with ([a; b] ++ EvWrite [PCA9685_PRESCALE; p] o2 :: [c; d; e] ++ [g]).
    reflexivity.
  - rewrite isFreqSet_run.
    rewrite (calcPrescale_oscillator (drv w') (drv w))
      by (rewrite D; reflexivity).
    rewrite Hc, D. cbn [_prescale]. f_equal. f_equal.
    destruct okr; cbn [andb].
    + apply Z.eqb_sym.
    + apply calcPrescale_Some_range in Hc.
      unfold PCA9685_PRESCALE_MIN in Hc. apply Z.eqb_neq. lia.
Qed.

Lemma isFreqSet_true_after_setPWMFreq_witness :
  exists p (okr : bool) datar pre o post w',
    setPWMFreq Chip.transport (float_of_Z 50) world121 = Some (tt, w')
    /\ calcPrescale (drv world121) (float_of_Z 50) = Some p
    /\ trace w'
       = trace world121 ++ pre ++ EvWrite [PCA9685_PRESCALE; p] o :: post
         ++ [EvWriteThenRead [PCA9685_PRESCALE] 1 okr datar]
    /\ isFreqSet Chip.transport (float_of_Z 50) w'
       = Some (okr && (byte_read PCA9685_PRESCALE datar =? p), w').
Proof.
  exact (isFreqSet_true_after_setPWMFreq Chip.transport (float_of_Z 50)
           world121 eq_refl eq_refl eq_refl eq_refl).
Defined.

(** ** [begin] and [beginBarebones] *)

Section Acquire.

Variable T : Transport.

Lemma renew_dev_full (w : world T) :
  exists w1,
    renew_dev T w = Some (tt, w1)
    /\ drv w1 = mkDriver (_i2caddr (drv w)) true (_oscillator_freq (drv w))
                         (_prescale (drv w))
    /\ bus w1 = bus w
    /\ trace w1 = trace w ++ renewal (drv w).
Proof.
  destruct w as [d b tr].
  unfold renew_dev, renewal, bind, get_drv, set_i2c_dev, put_drv, log, ret.
  cbn. destruct (i2c_dev d); cbn; eexists; repeat split.
  now rewrite <- app_assoc.
Qed.

Lemma dev_begin_full ad (w : world T) :
  held T w ->
  exists w1,
    dev_begin T ad w = Some (fst (t_begin T ad (bus w)), w1)
    /\ drv w1 = drv w
    /\ trace w1 = trace w ++ [EvBegin ad (fst (t_begin T ad (bus w)))].
Proof.
  intros Hw. destruct (dev_begin_run T ad w Hw) as (w1 & E & _).
  exists w1. split; [exact E |]. now apply dev_begin_inv in E.
Qed.

Lemma readPrescale_run (w : world T) :
  held T w ->
  exists (okr : bool) datar w1,
    readPrescale T w
    = Some (if okr then byte_read PCA9685_PRESCALE datar else 0, w1)
    /\ drv w1 = drv w
    /\ trace w1
       = trace w ++ [EvWriteThenRead [PCA9685_PRESCALE] 1 okr datar].
Proof.
  intros Hw.
  destruct (read8_run T PCA9685_PRESCALE w Hw)
    as (okr & datar & w1 & E & D & Tr).
  exists okr, datar, w1. split; [| auto].
  unfold readPrescale. rewrite (bind_run T _ _ _ _ _ E).
  cbn [success val]. destruct okr; reflexivity.
Qed.

(** The mode of [beginBarebones] differs from the one read exactly when
    the chip sleeps or auto-increment is off. *)
Lemma barebones_mode_same old :
  (u8 (Z.lor (Z.land (u8 old) (Z.lnot MODE1_SLEEP)) MODE1_AI) =? u8 old)
  = negb (Z.testbit (u8 old) 4) && Z.testbit (u8 old) 5.
Proof.
  destruct (Z.eqb_spec
              (u8 (Z.lor (Z.land (u8 old) (Z.lnot MODE1_SLEEP)) MODE1_AI))
              (u8 old)) as [E | N].
  - assert (B4 := f_equal (fun z => Z.testbit z 4) E).
    assert (B5 := f_equal (fun z => Z.testbit z 5) E).
    cbv beta in B4, B5. revert B4 B5. mode_bits. cbn.
    rewrite andb_false_r, orb_true_r. cbn. intros <- <-. reflexivity.
  - destruct (Z.testbit (u8 old) 4) eqn:B4; [reflexivity |].
    destruct (Z.testbit (u8 old) 5) eqn:B5; [| reflexivity].
    exfalso. apply N. apply Z.bits_inj'. intros i Hi.
    rewrite testbit_u8 in B4, B5 by lia.
    destruct (Z_lt_ge_dec i 8) as [L | G].
    + mode_bits. bit_cases i; subst; rewrite ?B4, ?B5; reflexivity.
    + unfold u8 at 1 3. change 256 with (2 ^ 8).
      rewrite !Z.mod_pow2_bits_high by lia. reflexivity.
Qed.

End Acquire.

Section ReadBack.

Variable T : Transport.

(** What [begin] does once the bus is acquired: its last transaction is
    the read of PRESCALE, it stores what that read gives, and returns
    [false] exactly when that is 0. *)
Lemma begin_read_back prescale :
  triple T (held T)
    (bind T (reset T) (fun _ =>
     bind T (if prescale =? 0 then setPWMFreq T (float_of_Z 1000)
             else setExtClk T prescale) (fun _ =>
     bind T (setOscillatorFrequency T FREQUENCY_OSCILLATOR) (fun _ =>
     bind T (readPrescale T) (fun p =>
     bind T (set_prescale T p) (fun _ =>
     if p =? 0 then ret T false else ret T true))))))
    (fun ok w' =>
       exists (okr : bool) datar pre,
         trace w' = pre ++ [EvWriteThenRead [PCA9685_PRESCALE] 1 okr datar]
         /\ _prescale (drv w')
            = (if okr then byte_read PCA9685_PRESCALE datar else 0)
         /\ (ok = false <-> _prescale (drv w') = 0)).
Proof.
  eapply triple_bind; [apply held_reset | intros ?].
  eapply triple_bind.
  { apply held_if; [apply held_setPWMFreq; reflexivity
                   | apply held_setExtClk]. }
  intros ?.
  eapply triple_bind; [apply held_setOscillatorFrequency | intros ?].
  intros w6 H6.
  destruct (readPrescale_run T w6 H6) as (okr & datar & w7 & E7 & D7 & T7).
  rewrite (bind_run T _ _ _ _ _ E7).
  unfold set_prescale, bind, get_drv, put_drv, ret.
  set (rb := if okr then byte_read PCA9685_PRESCALE datar else 0).
  destruct (Z.eqb_spec rb 0) as [Hz | Hz]; eexists _, _;
    (split; [reflexivity |]); exists okr, datar, (trace w6);
    cbn [drv trace _prescale]; fold rb;
    (split; [exact T7 |]); (split; [reflexivity |]); split; auto;
    intros; congruence.
Qed.

End ReadBack.

(** Claim C9.  [readPrescale] returns 0 when the read of the bus fails, a
    value [calcPrescale] never computes; [begin] returns in every world and
    on every transport, and it returns [false] exactly when the acquisition
    of the bus fails or the prescale it read back and stored is 0.  Once
    the bus is acquired the last transaction of [begin] is that read of
    PRESCALE, and the prescale stored is what the read returns: the byte
    read, or 0 when the read fails. *)
Theorem begin_reports_failure :
  forall (T : Transport) (w : world T) (prescale : Z),
    (held T w ->
     fst (fst (t_write_then_read T [PCA9685_PRESCALE] 1 (bus w))) = false ->
     exists w', readPrescale T w = Some (0, w'))
    /\ (forall freq p, calcPrescale (drv w) freq = Some p -> p <> 0)
    /\ (exists ok w',
          begin T prescale w = Some (ok, w')
          /\ (ok = false <->
              fst (t_begin T true (bus w)) = false
              \/ _prescale (drv w') = 0)
          /\ (fst (t_begin T true (bus w)) = true ->
              exists (okr : bool) datar pre,
                trace w'
                = pre ++ [EvWriteThenRead [PCA9685_PRESCALE] 1 okr datar]
                /\ _prescale (drv w')
                   = (if okr then byte_read PCA9685_PRESCALE datar
                      else 0))).
Proof.
  intros T w prescale. split; [| split].
  - apply readPrescale_failed.
  - intros freq p H. apply calcPrescale_Some_range in H.
    unfold PCA9685_PRESCALE_MIN in H. lia.
  - destruct (renew_dev_run T w) as (w1 & E1 & H1 & B1).
    destruct (dev_begin_run T true w1 H1) as (w2 & E2 & H2).
    unfold begin.
    rewrite (bind_run T _ _ _ _ _ E1), (bind_run T _ _ _ _ _ E2).
    rewrite B1. destruct (fst (t_begin T true (bus w))) eqn:Ok; cbn [negb].
    + destruct (begin_read_back T prescale w2 H2)
        as (ok & w' & E & okr & datar & pre & Tr & P & Hok).
      exists ok, w'. split; [exact E |]. split.
      * rewrite Hok.
        split; [auto | intros [C | C]; [discriminate | exact C]].
      * intros _. exists okr, datar, pre. auto.
    + exists false, w2. split; [reflexivity |]. split.
      * split; auto.
      * discriminate.
Qed.

Lemma begin_reports_failure_witness :
  (exists w',
      readPrescale Dead.transport
        (after (renew_dev Dead.transport) Dead.fresh) = Some (0, w'))
  /\ 121 <> 0
  /\ (exists ok w',
        begin Chip.transport 0 Chip.fresh = Some (ok, w')
        /\ (ok = false <->
            fst (t_begin Chip.transport true (bus Chip.fresh)) = false
            \/ _prescale (drv w') = 0)
        /\ (fst (t_begin Chip.transport true (bus Chip.fresh)) = true ->
            exists (okr : bool) datar pre,
              trace w'
              = pre ++ [EvWriteThenRead [PCA9685_PRESCALE] 1 okr datar]
              /\ _prescale (drv w')
                 = (if okr then byte_read PCA9685_PRESCALE datar else 0)))
  /\ result (begin Dead.transport 0) Dead.fresh = Some false.
Proof.
  split; [| split; [| split]].
  - apply (proj1 (begin_reports_failure Dead.transport
                    (after (renew_dev Dead.transport) Dead.fresh) 0));
      reflexivity.
  - apply (proj1 (proj2 (begin_reports_failure Chip.transport world121 0))
             (float_of_Z 50)).
    reflexivity.
  - exact (proj2 (proj2 (begin_reports_failure Chip.transport Chip.fresh 0))).
  - reflexivity.
Defined.

(** [beginBarebones] returns [true] on every transport, sets the stored
    oscillator frequency to the default and leaves the stored prescale
    alone.  After the acquisition it reads MODE1 and writes it, sleep
    cleared and auto-increment set, only when the chip sleeps or
    auto-increment is off; otherwise it writes no register at all. *)
Theorem beginBarebones_writes_if_needed :
  forall (T : Transport) (w : world T),
    exists ok okr data okw mode w',
      beginBarebones T w = Some (true, w')
      /\ drv w' = mkDriver (_i2caddr (drv w)) true FREQUENCY_OSCILLATOR
                           (_prescale (drv w))
      /\ trace w'
         = trace w ++ renewal (drv w)
           ++ [EvBegin false ok; EvWriteThenRead [PCA9685_MODE1] 1 okr data]
           ++ (if Z.testbit (byte_read PCA9685_MODE1 data) 4
                  || negb (Z.testbit (byte_read PCA9685_MODE1 data) 5)
               then [EvWrite [PCA9685_MODE1; mode] okw] else [])
      /\ Z.testbit mode 4 = false /\ Z.testbit mode 5 = true
      /\ (forall i, 0 <= i < 8 -> i <> 4 -> i <> 5 ->
          Z.testbit mode i = Z.testbit (byte_read PCA9685_MODE1 data) i).
Proof.
  intros T w.
  destruct (renew_dev_full T w) as (w1 & E1 & D1 & B1 & T1).
  assert (H1 : held T w1) by (unfold held; rewrite D1; reflexivity).
  destruct (dev_begin_full T false w1 H1) as (w2 & E2 & D2 & T2).
  assert (H2 : held T w2) by (apply (held_drv T w1); assumption).
  destruct (read8_run T PCA9685_MODE1 w2 H2)
    as (okr & data & w3 & E3 & D3 & T3).
  assert (H3 : held T w3) by (apply (held_drv T w2); assumption).
  set (old := byte_read PCA9685_MODE1 data) in *.
  set (new := u8 (Z.lor (Z.land old (Z.lnot MODE1_SLEEP)) MODE1_AI)).
  destruct (write8_run T PCA9685_MODE1 new w3 H3) as (okw & w4 & E4 & D4 & T4).
  exists (fst (t_begin T false (bus w1))), okr, data, okw, (u8 new).
  assert (Hsame : (new =? old)
                  = negb (Z.testbit old 4) && Z.testbit old 5)
    by apply barebones_mode_same.
  assert (Hbits : Z.testbit (u8 new) 4 = false /\ Z.testbit (u8 new) 5 = true
                  /\ (forall i, 0 <= i < 8 -> i <> 4 -> i <> 5 ->
                      Z.testbit (u8 new) i = Z.testbit old i)).
  { unfold new. repeat split;
      try (mode_bits; cbn; rewrite ?orb_true_r, ?andb_false_r; reflexivity).
    intros i Hi N4 N5. mode_bits. bit_cases i. }
  unfold beginBarebones.
  rewrite (bind_run T _ _ _ _ _ E1), (bind_run T _ _ _ _ _ E2),
    (bind_run T _ _ _ _ _ E3).
  cbv zeta. cbn [val]. fold old. fold new.
  destruct (new =? old) eqn:Enew; symmetry in Hsame; cbn [negb].
  - apply andb_true_iff in Hsame as [B4 B5].
    apply negb_true_iff in B4. rewrite B4, B5. cbn [negb orb].
    eexists. split; [reflexivity |]. split; [| split; [| exact Hbits]].
    + cbn [drv _i2caddr i2c_dev _prescale]. rewrite D3, D2, D1. reflexivity.
    + cbn [trace]. rewrite T3, T2, T1, app_nil_r, <- !app_assoc.
      reflexivity.
  - rewrite (bind_run T _ _ _ _ _ E4).
    assert (C : Z.testbit old 4 || negb (Z.testbit old 5) = true).
    { destruct (Z.testbit old 4), (Z.testbit old 5);
        try reflexivity; discriminate. }
    rewrite C. eexists. split; [reflexivity |].
    split; [| split; [| exact Hbits]].
    + cbn [drv _i2caddr i2c_dev _prescale]. rewrite D4, D3, D2, D1.
      reflexivity.
    + cbn [trace]. rewrite T4, T3, T2, T1, <- !app_assoc. reflexivity.
Qed.

(** When the acquisition of the bus fails, [begin] returns [false] at
    once: it has accessed no register, the stored oscillator frequency and
    prescale are as before, and the device object it made stays in
    place. *)
Theorem begin_acquisition_failure :
  forall (T : Transport) (prescale : Z) (w : world T),
    fst (t_begin T true (bus w)) = false ->
    exists w',
      begin T prescale w = Some (false, w')
      /\ trace w' = trace w ++ renewal (drv w) ++ [EvBegin true false]
      /\ drv w' = mkDriver (_i2caddr (drv w)) true
                           (_oscillator_freq (drv w)) (_prescale (drv w)).
Proof.
  intros T prescale w Hf.
  destruct (renew_dev_full T w) as (w1 & E1 & D1 & B1 & T1).
  assert (H1 : held T w1) by (unfold held; rewrite D1; reflexivity).
  destruct (dev_begin_full T true w1 H1) as (w2 & E2 & D2 & T2).
  rewrite B1, Hf in E2, T2.
  exists w2. unfold begin.
  rewrite (bind_run T _ _ _ _ _ E1), (bind_run T _ _ _ _ _ E2).
  cbn [negb]. split; [reflexivity |]. split.
  - rewrite T2, T1, <- app_assoc. reflexivity.
  - congruence.
Qed.

Lemma begin_acquisition_failure_witness :
  exists w',
    begin Dead.transport 0 Dead.fresh = Some (false, w')
    /\ trace w' = [EvNew PCA9685_I2C_ADDRESS; EvBegin true false].
Proof.
  destruct (begin_acquisition_failure Dead.transport 0 Dead.fresh eq_refl)
    as (w' & E & Tr & _).
  exists w'. split; [exact E | exact Tr].
Defined.

(** [begin] without an external clock programs the default 1000 Hz with
    the prescale computed from the oscillator frequency that was stored
    before the call, and sets the stored frequency to the default 25 MHz
    only afterwards. *)
Theorem begin_default_frequency :
  forall (T : Transport) (w : world T),
    fst (t_begin T true (bus w)) = true ->
    exists ok w' p o pre post,
      begin T 0 w = Some (ok, w')
      /\ calcPrescale (drv w) (float_of_Z 1000) = Some p
      /\ trace w' = trace w ++ pre ++ EvWrite [PCA9685_PRESCALE; p] o :: post
      /\ _oscillator_freq (drv w') = FREQUENCY_OSCILLATOR.
Proof.
  intros T w Hok.
  destruct (renew_dev_full T w) as (w1 & E1 & D1 & B1 & T1).
  assert (H1 : held T w1) by (unfold held; rewrite D1; reflexivity).
  destruct (dev_begin_full T true w1 H1) as (w2 & E2 & D2 & T2).
  rewrite B1, Hok in E2, T2.
  assert (H2 : held T w2) by (apply (held_drv T w1); assumption).
  destruct (write8_run T PCA9685_MODE1 MODE1_RESTART w2 H2)
    as (or & w3 & E3 & D3 & T3).
  destruct (delay_run T 10 w3) as (w4 & E4 & D4 & T4).
  assert (H4 : held T w4) by (apply (held_drv T w2); congruence).
  destruct (setPWMFreq_run T (float_of_Z 1000) w4 H4 eq_refl eq_refl)
    as (p & ok & data & o1 & o2 & o3 & o4 & okr & datar & w5
        & E5 & Hc & D5 & T5).
  assert (Ereset : reset T w2 = Some (tt, w4)).
  { unfold reset. rewrite (bind_run T _ _ _ _ _ E3). exact E4. }
  set (w6 := mkWorld (mkDriver (_i2caddr (drv w5)) (i2c_dev (drv w5))
                               (u32 FREQUENCY_OSCILLATOR)
                               (_prescale (drv w5)))
                     (bus w5) (trace w5)).
  assert (E6 : setOscillatorFrequency T FREQUENCY_OSCILLATOR w5
               = Some (tt, w6)) by reflexivity.
  assert (H6 : held T w6).
  { unfold held, w6. cbn. rewrite D5. cbn.
    replace (drv w4) with (drv w1) by congruence. rewrite D1. reflexivity. }
  destruct (readPrescale_run T w6 H6) as (okp & datap & w7 & E7 & D7 & T7).
  set (pval := if okp then byte_read PCA9685_PRESCALE datap else 0) in *.
  exists (negb (pval =? 0)),
    (mkWorld (mkDriver (_i2caddr (drv w7)) (i2c_dev (drv w7))
                       (_oscillator_freq (drv w7)) pval)
             (bus w7) (trace w7)), p, o2.
  eexists _, _.
  split.
  - unfold begin.
    rewrite (bind_run T _ _ _ _ _ E1), (bind_run T _ _ _ _ _ E2).
    cbn [negb]. rewrite (bind_run T _ _ _ _ _ Ereset).
    change (0 =? 0) with true. cbv iota.
    rewrite (bind_run T _ _ _ _ _ E5), (bind_run T _ _ _ _ _ E6),
      (bind_run T _ _ _ _ _ E7).
    unfold set_prescale, bind, get_drv, put_drv.
    destruct (_ =? 0); reflexivity.
  - split; [| split].
    + rewrite <- Hc.
      apply calcPrescale_oscillator.
      replace (drv w4) with (drv w1) by congruence. rewrite D1. reflexivity.
    + assert (Tr : trace w7
                   = trace w
                     ++ (renewal (drv w)
                         ++ [EvBegin true true;
                             EvWrite [u8 PCA9685_MODE1; u8 MODE1_RESTART] or;
                             EvDelay 10;
                             EvWriteThenRead [PCA9685_MODE1] 1 ok data;
                             EvWrite
                               [PCA9685_MODE1;
                                u8 (Z.lor
                                      (Z.land (byte_read PCA9685_MODE1 data)
                                              (Z.lnot MODE1_RESTART))
                                      MODE1_SLEEP)] o1])
                     ++ EvWrite [PCA9685_PRESCALE; p] o2
                        :: [EvWrite [PCA9685_MODE1;
                                     byte_read PCA9685_MODE1 data] o3;
                            EvDelay 5;
                            EvWrite
                              [PCA9685_MODE1;
                               u8 (Z.lor (Z.lor (byte_read PCA9685_MODE1 data)
                                                MODE1_RESTART) MODE1_AI)] o4;
                            EvWriteThenRead [PCA9685_PRESCALE] 1 okr datar;
                            EvWriteThenRead [PCA9685_PRESCALE] 1 okp datap]).
      { rewrite T7. unfold w6. cbn [trace].
        rewrite T5, T4, T3, T2, T1, <- !app_assoc. reflexivity. }
      cbn [trace]. exact Tr.
    + cbn [drv _oscillator_freq]. rewrite D7. reflexivity.
Qed.

Lemma begin_default_frequency_witness :
  exists ok w' p o pre post,
    begin Chip.transport 0
          (after (setOscillatorFrequency Chip.transport 27000000) Chip.fresh)
    = Some (ok, w')
    /\ calcPrescale (mkDriver PCA9685_I2C_ADDRESS false 27000000 0)
                    (float_of_Z 1000) = Some p
    /\ trace w' = [] ++ pre ++ EvWrite [PCA9685_PRESCALE; p] o :: post
    /\ _oscillator_freq (drv w') = FREQUENCY_OSCILLATOR.
Proof.
  apply (begin_default_frequency Chip.transport
           (after (setOscillatorFrequency Chip.transport 27000000)
                  Chip.fresh)).
  reflexivity.
Defined.

(** ** [setPWM] and [getPWM] *)

(** The two bytes of a 16-bit value, low byte first, give the value
    back. *)
Lemma le16_decode v :
  0 <= v < 65536 ->
  Z.lor (u8 (u8 v)) (Z.shiftl (u8 (u8 (Z.shiftr v 8))) 8) = v.
Proof.
  intros Hv. rewrite !u8_idem. apply Z.bits_inj'. intros i Hi.
  rewrite Z.lor_spec, Z.shiftl_spec by lia.
  destruct (Z_lt_ge_dec i 8) as [L | G].
  - rewrite testbit_u8 by lia.
    rewrite (Z.testbit_neg_r _ (i - 8)) by lia. apply orb_false_r.
  - unfold u8 at 1. change 256 with (2 ^ 8).
    rewrite Z.mod_pow2_bits_high by lia. cbn [orb].
    destruct (Z_lt_ge_dec i 16) as [L | G'].
    + rewrite testbit_u8, Z.shiftr_spec by lia. f_equal. lia.
    + unfold u8. change 256 with (2 ^ 8).
      rewrite Z.mod_pow2_bits_high by lia.
      symmetry. rewrite <- (Z.mod_small v (2 ^ 16)) by lia.
      apply Z.mod_pow2_bits_high. lia.
Qed.

(** [getPWM] on the register file: the two registers from the address of
    the channel on. *)
Lemma getPWM_chip num (off : bool) d b tr :
  i2c_dev d = true ->
  let addr := if off then u8 (u8 (PCA9685_LED0_ON_L + 4 * num) + 2)
              else u8 (PCA9685_LED0_ON_L + 4 * num) in
  getPWM Chip.transport num off (@mkWorld Chip.transport d b tr)
  = Some (Z.lor (u8 (b addr)) (Z.shiftl (u8 (b (u8 (addr + 1)))) 8),
          @mkWorld Chip.transport d b
            (tr ++ [EvWriteThenRead [addr] 2 true
                      [b addr; b (u8 (addr + 1))]])).
Proof.
  intros Hd addr.
  unfold getPWM, dev_write_then_read, with_dev, bind, get_drv, ret.
  cbn [drv bus trace]. rewrite Hd. fold addr. reflexivity.
Qed.

(** On a chip that keeps what is written (a register file with
    auto-increment), [getPWM] reads back the pair [setPWM] wrote: the ON
    count with [off = false], the OFF count with [off = true]. *)
Theorem getPWM_after_setPWM :
  forall (num on off : Z) (w : world Chip.transport),
    held Chip.transport w ->
    0 <= num <= 15 -> 0 <= on < 65536 -> 0 <= off < 65536 ->
    exists w1 w2 w3,
      setPWM Chip.transport num on off w = Some (true, w1)
      /\ getPWM Chip.transport num false w1 = Some (on, w2)
      /\ getPWM Chip.transport num true w2 = Some (off, w3).
Proof.
  intros num on off [d b tr] Hw Hnum Hon Hoff.
  unfold held in Hw. cbn [drv] in Hw.
  assert (Ha : u8 (PCA9685_LED0_ON_L + 4 * num) = 6 + 4 * num).
  { unfold u8, PCA9685_LED0_ON_L. apply Z.mod_small. lia. }
  assert (N0 : u8 (6 + 4 * num + 2) = 6 + 4 * num + 2)
    by (unfold u8; apply Z.mod_small; lia).
  assert (N1 : u8 (6 + 4 * num + 1) = 6 + 4 * num + 1)
    by (unfold u8; apply Z.mod_small; lia).
  assert (N2 : u8 (6 + 4 * num + 1 + 1) = 6 + 4 * num + 2)
    by (unfold u8; rewrite Z.mod_small; lia).
  assert (N3 : u8 (6 + 4 * num + 2 + 1) = 6 + 4 * num + 3)
    by (unfold u8; rewrite Z.mod_small; lia).
  eexists _, _, _. split; [| split].
  - unfold setPWM, dev_write, with_dev, bind, get_drv.
    cbn [drv bus trace]. rewrite Hw. reflexivity.
  - rewrite (getPWM_chip num false d _ _ Hw). cbv zeta. rewrite Ha.
    f_equal. f_equal.
    cbn [Chip.store]. rewrite ?N0, ?N1, ?N2, ?N3.
    repeat match goal with
           | |- context [?x =? ?y] =>
               destruct (Z.eqb_spec x y); try lia
           end.
    apply le16_decode. exact Hon.
  - rewrite (getPWM_chip num true d _ _ Hw). cbv zeta. rewrite Ha.
    f_equal. f_equal.
    cbn [Chip.store]. rewrite ?N0, ?N1, ?N2, ?N3.
    repeat match goal with
           | |- context [?x =? ?y] =>
               destruct (Z.eqb_spec x y); try lia
           end.
    apply le16_decode. exact Hoff.
Qed.

Lemma getPWM_after_setPWM_witness :
  exists w1 w2 w3,
    setPWM Chip.transport 3 100 2000 world121 = Some (true, w1)
    /\ getPWM Chip.transport 3 false w1 = Some (100, w2)
    /\ getPWM Chip.transport 3 true w2 = Some (2000, w3).
Proof.
  apply (getPWM_after_setPWM 3 100 2000 world121); try reflexivity; lia.
Defined.

(** For a channel from 0 to 15 [setPWM] issues one write, of five bytes,
    that reaches the four registers of that channel and no other: the
    registers [LED0_ON_L + 4 * num] to [LED0_ON_L + 4 * num + 3].  It
    returns the success of that write and leaves the driver as it was. *)
Theorem setPWM_registers :
  forall (T : Transport) (num on off : Z) (w : world T),
    held T w -> 0 <= num <= 15 ->
    exists r w' buffer,
      setPWM T num on off w = Some (r, w')
      /\ drv w' = drv w
      /\ trace w' = trace w ++ [EvWrite buffer r]
      /\ r = fst (t_write T buffer (bus w))
      /\ length buffer = 5%nat
      /\ (forall reg,
            writes_register reg (EvWrite buffer r) = true
            <-> PCA9685_LED0_ON_L + 4 * num <= reg
                <= PCA9685_LED0_ON_L + 4 * num + 3).
Proof.
  intros T num on off [d b tr] Hw Hnum. unfold held in Hw. cbn [drv] in Hw.
  assert (Ha : u8 (PCA9685_LED0_ON_L + 4 * num)
               = PCA9685_LED0_ON_L + 4 * num).
  { unfold u8, PCA9685_LED0_ON_L. apply Z.mod_small. lia. }
  unfold setPWM, dev_write, with_dev, bind, get_drv.
  cbn [drv bus trace]. rewrite Hw, Ha. cbn [drv bus trace].
  set (buffer := [PCA9685_LED0_ON_L + 4 * num; u8 on; u8 (Z.shiftr on 8);
                  u8 off; u8 (Z.shiftr off 8)]).
  destruct (t_write T buffer b) as [ok b'] eqn:E.
  eexists ok, _, buffer. split; [reflexivity |].
  cbn [drv trace]. split; [reflexivity |]. split; [reflexivity |].
  split; [now rewrite E |]. split; [reflexivity |].
  intros reg. unfold buffer. cbn [writes_register length].
  rewrite andb_true_iff, Z.leb_le, Z.ltb_lt.
  change (Z.of_nat 4) with 4. lia.
Qed.

Lemma setPWM_registers_witness :
  exists r w', setPWM Chip.transport 15 0 2048 world121 = Some (r, w').
Proof.
  destruct (setPWM_registers Chip.transport 15 0 2048 world121 eq_refl)
    as (r & w' & buffer & E & _); [lia |].
  exists r, w'. exact E.
Defined.

(** [setPWM] does not check the channel: the register address is a byte,
    so channels 64 apart are the same, channel 61 is the all-channel
    register block (with the fully-off pair the call is [setAllOff]) and
    channel 62 starts at the PRESCALE register. *)
Theorem setPWM_channel_wraps :
  forall (T : Transport) (num on off : Z) (w : world T),
    setPWM T (num + 64) on off w = setPWM T num on off w
    /\ setPWM T 61 0 4096 w = setAllOff T w
    /\ setPWM T 62 on off w
       = dev_write T [PCA9685_PRESCALE; u8 on; u8 (Z.shiftr on 8);
                      u8 off; u8 (Z.shiftr off 8)] w.
Proof.
  intros T num on off w. split; [| split; reflexivity].
  unfold setPWM. f_equal. f_equal. unfold u8.
  replace (PCA9685_LED0_ON_L + 4 * (num + 64))
    with (PCA9685_LED0_ON_L + 4 * num + 1 * 256) by lia.
  apply Z_mod_plus_full.
Qed.

(** ** [setPin] *)

(** Inverting is complementing: for a value within 0..4095, [setPin]
    inverted is [setPin] of [4095 - val] not inverted; and every value
    from 4095 up is taken as 4095. *)
Theorem setPin_invert_complements :
  forall (T : Transport) (num val : Z) (invert : bool) (w : world T),
    (0 <= val <= 4095 ->
     setPin T num val true w = setPin T num (4095 - val) false w)
    /\ (4095 <= val -> setPin T num val invert w = setPin T num 4095 invert w).
Proof.
  intros T num val invert w. split; intros Hv; unfold setPin.
  - rewrite !Z.min_l by lia.
    destruct (Z.eqb_spec val 0); destruct (Z.eqb_spec val 4095);
      destruct (Z.eqb_spec (4095 - val) 4095);
      destruct (Z.eqb_spec (4095 - val) 0); try lia; reflexivity.
  - rewrite Z.min_r by lia. reflexivity.
Qed.

Lemma setPin_invert_complements_witness :
  setPin Chip.transport 3 1000 true world121
  = setPin Chip.transport 3 3095 false world121
  /\ setPin Chip.transport 3 60000 false world121
     = setPin Chip.transport 3 4095 false world121.
Proof.
  split.
  - apply (proj1 (setPin_invert_complements Chip.transport 3 1000 false
                    world121)). lia.
  - apply (proj2 (setPin_invert_complements Chip.transport 3 60000 false
                    world121)). lia.
Defined.

(** [setPin] issues exactly one write, to the registers of its channel,
    and returns whether that write succeeded; the ON count it sends is 0
    or 4096 and the OFF count is at most 4096. *)
Theorem setPin_one_write :
  forall (T : Transport) (num val : Z) (invert : bool) (w : world T),
    held T w -> 0 <= val ->
    exists r w' on off,
      setPin T num val invert w = Some (r, w')
      /\ drv w' = drv w
      /\ trace w'
         = trace w
           ++ [EvWrite [u8 (PCA9685_LED0_ON_L + 4 * num);
                        u8 on; u8 (Z.shiftr on 8);
                        u8 off; u8 (Z.shiftr off 8)] r]
      /\ (on = 0 \/ on = 4096) /\ 0 <= off <= 4096
      /\ (on = 4096 -> off = 0).
Proof.
  intros T num val invert w Hw Hv.
  assert (G : forall on off,
             (on = 0 \/ on = 4096) -> 0 <= off <= 4096 ->
             (on = 4096 -> off = 0) ->
             exists r w' on' off',
               setPWM T num on off w = Some (r, w')
               /\ drv w' = drv w
               /\ trace w'
                  = trace w
                    ++ [EvWrite [u8 (PCA9685_LED0_ON_L + 4 * num);
                                 u8 on'; u8 (Z.shiftr on' 8);
                                 u8 off'; u8 (Z.shiftr off' 8)] r]
               /\ (on' = 0 \/ on' = 4096) /\ 0 <= off' <= 4096
               /\ (on' = 4096 -> off' = 0)).
  { intros on off H1 H2 H3.
    destruct (dev_write_run T
                [u8 (PCA9685_LED0_ON_L + 4 * num);
                 u8 on; u8 (Z.shiftr on 8); u8 off; u8 (Z.shiftr off 8)]
                w Hw) as (r & w' & E & D & Tr).
    exists r, w', on, off.
    split; [exact E |]. split; [exact D |]. split; [exact Tr |]. auto. }
  unfold setPin.
  destruct invert;
    destruct (Z.eqb_spec (Z.min val 4095) 0);
    destruct (Z.eqb_spec (Z.min val 4095) 4095);
    apply G; lia.
Qed.

Lemma setPin_one_write_witness :
  exists r w', setPin Chip.transport 0 4095 false world121 = Some (r, w').
Proof.
  destruct (setPin_one_write Chip.transport 0 4095 false world121 eq_refl)
    as (r & w' & on & off & E & _); [lia |].
  exists r, w'. exact E.
Defined.

(** ** [writeMicroseconds], called again and at the top prescale *)

Section MicrosecondsAgain.

Variable T : Transport.

Lemma writeMicroseconds_step num us (w w' : world T) r :
  writeMicroseconds T num us w = Some (r, w') ->
  _prescale (drv w') = u8 (_prescale (drv w) + 1)
  /\ _oscillator_freq (drv w') = _oscillator_freq (drv w).
Proof.
  rewrite writeMicroseconds_run. intros H.
  destruct (to_unsigned 16 _) as [off |]; [| discriminate].
  apply setPWM_inv in H. rewrite H. split; reflexivity.
Qed.

Lemma u8_add_l a b : u8 (u8 a + b) = u8 (a + b).
Proof. unfold u8. apply Z.add_mod_idemp_l. lia. Qed.

End MicrosecondsAgain.

(** Each call of [writeMicroseconds] computes the ticks from a stored
    prescale one higher than the call before: after [n] calls the stored
    prescale is up by [n] (as a [uint8_t]), though the chip was not
    reprogrammed, and the oscillator frequency is as before. *)
Theorem writeMicroseconds_repeated :
  forall (T : Transport) (num us : Z) (n : nat) (w w' : world T),
    0 <= _prescale (drv w) < 256 ->
    times n (writeMicroseconds T num us) w = Some (tt, w') ->
    _prescale (drv w') = u8 (_prescale (drv w) + Z.of_nat n)
    /\ _oscillator_freq (drv w') = _oscillator_freq (drv w).
Proof.
  intros T num us n. induction n as [| n IH]; intros w w' Hp H.
  - cbn in H. inversion H; subst. split; [| reflexivity].
    rewrite Z.add_0_r. unfold u8. symmetry. apply Z.mod_small. exact Hp.
  - cbn [times] in H. apply bind_Some in H as (r & w1 & H1 & H2).
    apply writeMicroseconds_step in H1 as [P1 O1].
    apply IH in H2 as [P2 O2]; [| rewrite P1; apply u8_range'].
    split; [| congruence].
    rewrite P2, P1, u8_add_l. f_equal. lia.
Qed.

Lemma writeMicroseconds_repeated_witness :
  _prescale (drv (after (times 2 (writeMicroseconds Chip.transport 0 1500))
                        world121)) = 123
  /\ trace (after (times 2 (writeMicroseconds Chip.transport 0 1500))
                  world121)
     = [EvWrite [PCA9685_LED0_ON_L; 0; 0; 51; 1] true;
        EvWrite [PCA9685_LED0_ON_L; 0; 0; 48; 1] true].
Proof.
  destruct (writeMicroseconds_repeated Chip.transport 0 1500 2 world121
              (after (times 2 (writeMicroseconds Chip.transport 0 1500))
                     world121)) as [H _].
  - cbn. lia.
  - vm_compute. reflexivity.
  - split; [rewrite H; reflexivity | vm_compute; reflexivity].
Defined.

(** With a stored prescale of 255 the increment wraps to 0, the tick
    duration is 0 (or a NaN, with an oscillator frequency of 0) and the
    quotient an infinity or a NaN: its conversion to [uint16_t] is
    undefined, whatever the pulse width. *)
Theorem writeMicroseconds_prescale_255 :
  forall (T : Transport) (num us : Z) (w : world T),
    _prescale (drv w) = 255 ->
    0 <= us < 65536 ->
    0 <= _oscillator_freq (drv w) < 2 ^ 32 ->
    writeMicroseconds T num us w = None.
Proof.
  intros T num us w Hp Hus Hosc.
  rewrite writeMicroseconds_run, Hp.
  change (u8 (255 + 1)) with 0.
  change (dmul (double_of_Z 1000000) (double_of_Z 0))
    with (S754_zero false).
  assert (Hd : ddiv (S754_zero false)
                    (double_of_Z (_oscillator_freq (drv w))) = S754_nan
               \/ ddiv (S754_zero false)
                       (double_of_Z (_oscillator_freq (drv w)))
                  = S754_zero false).
  { destruct (Z.eq_dec (_oscillator_freq (drv w)) 0) as [-> | Hn].
    - left. reflexivity.
    - destruct (double_of_Z_pos (_oscillator_freq (drv w)))
        as (m & e & ->); [lia |]. right. reflexivity. }
  assert (Hu : double_of_Z us = S754_zero false
               \/ exists m e, double_of_Z us = S754_finite false m e).
  { destruct (Z.eq_dec us 0) as [-> | Hn].
    - left. reflexivity.
    - right. apply double_of_Z_pos. lia. }
  destruct Hd as [-> | ->]; destruct Hu as [-> | (m & e & ->)]; reflexivity.
Qed.

Lemma writeMicroseconds_prescale_255_witness :
  writeMicroseconds Chip.transport 0 1500
    (with_prescale 255 world121) = None.
Proof.
  apply (writeMicroseconds_prescale_255 Chip.transport 0 1500
           (with_prescale 255 world121)).
  - reflexivity.
  - lia.
  - cbn. lia.
Defined.

(** ** The device object along a run *)

Section Balance.

Variable T : Transport.

Local Abbreviation keeps := (preserves T (balanced T)).

Lemma live_app tr1 tr2 : live (tr1 ++ tr2) = live tr1 + live tr2.
Proof.
  induction tr1 as [| ev tr1 IH]; [reflexivity |].
  destruct ev; cbn [app live]; rewrite IH; lia.
Qed.

Lemma balanced_same (w w' : world T) seg :
  drv w' = drv w -> trace w' = trace w ++ seg -> live seg = 0 ->
  balanced T w -> balanced T w'.
Proof.
  unfold balanced. intros -> -> Hs H. rewrite live_app, Hs. lia.
Qed.

Lemma keeps_bind' {A B} (c : M T A) (k : A -> M T B) :
  keeps c -> (forall a, keeps (k a)) -> keeps (bind T c k).
Proof.
  intros Hc Hk w b w'' H Hw. apply bind_Some in H as (a & w' & H1 & H2).
  exact (Hk a _ _ _ H2 (Hc _ _ _ H1 Hw)).
Qed.

Lemma keeps_ret' {A} (a : A) : keeps (ret T a).
Proof. intros w b w' H Hw. inversion H; subst. exact Hw. Qed.

Lemma keeps_get_drv' : keeps (get_drv T).
Proof. intros w b w' H Hw. inversion H; subst. exact Hw. Qed.

Lemma keeps_lift_option' {A} (o : option A) : keeps (lift_option T o).
Proof. intros w b w' H Hw. apply lift_option_inv in H as [_ ->]. exact Hw. Qed.

Lemma keeps_dev_write' buf : keeps (dev_write T buf).
Proof.
  intros w b w' H. apply dev_write_inv in H as [D Tr].
  now apply (balanced_same w w' _ D Tr).
Qed.

Lemma keeps_dev_write_then_read' buf len :
  keeps (dev_write_then_read T buf len).
Proof.
  intros w b w' H. apply dev_write_then_read_inv in H as [D Tr].
  now apply (balanced_same w w' _ D Tr).
Qed.

Lemma keeps_dev_begin' ad : keeps (dev_begin T ad).
Proof.
  intros w b w' H. apply dev_begin_inv in H as [D Tr].
  now apply (balanced_same w w' _ D Tr).
Qed.

Lemma keeps_delay' ms : keeps (delay T ms).
Proof.
  intros w b w' H. inversion H; subst.
  now apply (balanced_same w _ [EvDelay ms]).
Qed.

Lemma keeps_set_prescale' p : keeps (set_prescale T p).
Proof. intros w b w' H Hw. inversion H; subst. exact Hw. Qed.

Lemma keeps_setOscillatorFrequency' f : keeps (setOscillatorFrequency T f).
Proof. intros w b w' H Hw. inversion H; subst. exact Hw. Qed.

(** The one place where devices are made and deleted. *)
Lemma keeps_renew_dev' : keeps (renew_dev T).
Proof.
  intros w b w' H Hw. destruct (renew_dev_full T w) as (w1 & E & D & _ & Tr).
  rewrite E in H. inversion H; subst w1.
  unfold balanced in *. rewrite Tr, D, live_app, Hw. unfold renewal.
  destruct (i2c_dev (drv w)); reflexivity.
Qed.

End Balance.

(** Steps through a method for the balance of the log. *)
Ltac balance_steps :=
  cbv zeta;
  repeat first
    [ apply keeps_ret' | apply keeps_get_drv' | apply keeps_lift_option'
    | apply keeps_dev_write' | apply keeps_dev_write_then_read'
    | apply keeps_dev_begin' | apply keeps_delay' | apply keeps_set_prescale'
    | apply keeps_setOscillatorFrequency' | apply keeps_renew_dev'
    | match goal with
      | |- preserves _ _ (bind _ _ _) =>
          apply keeps_bind'; [| intros ?]
      | |- preserves _ _ (if ?b then _ else _) => destruct b
      end ].

Section BalanceMethods.

Variable T : Transport.

Local Abbreviation keeps := (preserves T (balanced T)).

Lemma keeps_read8' addr : keeps (read8 T addr).
Proof. unfold read8. balance_steps. Qed.

Lemma keeps_write8' addr d : keeps (write8 T addr d).
Proof. unfold write8. balance_steps. Qed.

Lemma keeps_readPrescale' : keeps (readPrescale T).
Proof.
  unfold readPrescale. apply keeps_bind'; [apply keeps_read8' | intros r].
  balance_steps.
Qed.



End BalanceMethods.



(** ** No call through a null pointer after [begin] *)

Section Safety.

Variable T : Transport.

Local Abbreviation holds := (triple T (held T)).

Lemma held_get_drv : holds (get_drv T) (fun _ => held T).
Proof. intros w Hw. exists (drv w), w. auto. Qed.

Lemma held_setPWM num on off : holds (setPWM T num on off) (fun _ => held T).
Proof. unfold setPWM. apply held_dev_write. Qed.

Lemma held_setPin num val invert :
  holds (setPin T num val invert) (fun _ => held T).
Proof.
  unfold setPin. cbv zeta.
  destruct invert; destruct (Z.min val 4095 =? 0);
    destruct (Z.min val 4095 =? 4095); apply held_setPWM.
Qed.

Lemma held_setAllOff : holds (setAllOff T) (fun _ => held T).
Proof. unfold setAllOff. apply held_dev_write. Qed.

Lemma held_getPWM num off : holds (getPWM T num off) (fun _ => held T).
Proof. unfold getPWM. cbv zeta. held_steps. auto with held. Qed.

Lemma held_sleep : holds (sleep T) (fun _ => held T).
Proof. unfold sleep. held_steps. auto with held. Qed.

Lemma held_wakeup : holds (wakeup T) (fun _ => held T).
Proof. unfold wakeup. held_steps. auto with held. Qed.

Lemma held_setOutputMode b : holds (setOutputMode T b) (fun _ => held T).
Proof. unfold setOutputMode. held_steps. auto with held. Qed.

Lemma held_getOscillatorFrequency :
  holds (getOscillatorFrequency T) (fun _ => held T).
Proof. intros w Hw. eexists _, w. split; [reflexivity | exact Hw]. Qed.

Lemma held_isFreqSet f :
  valid_binary fprec femax f = true ->
  SFltb (float_of_Z 0) f = true -> is_finite f = true ->
  holds (isFreqSet T f) (fun _ => held T).
Proof.
  intros Hv Hp Hf w Hw.
  destruct f as [s|s| |[] m e]; try discriminate.
  rewrite isFreqSet_run, (calcPrescale_positive _ m e Hv).
  eexists _, w. split; [reflexivity | exact Hw].
Qed.

Lemma held_begin prescale :
  triple T (fun _ => True) (begin T prescale) (fun _ => held T).
Proof.
  intros w _. destruct (renew_dev_run T w) as (w1 & E1 & H1 & _).
  unfold begin. rewrite (bind_run T _ _ _ _ _ E1).
  assert (G : holds
            (bind T (dev_begin T true) (fun ok =>
             if negb ok then ret T false
             else
               bind T (reset T) (fun _ =>
               bind T (if prescale =? 0
                       then setPWMFreq T (float_of_Z 1000)
                       else setExtClk T prescale) (fun _ =>
               bind T (setOscillatorFrequency T FREQUENCY_OSCILLATOR)
                 (fun _ =>
               bind T (readPrescale T) (fun p =>
               bind T (set_prescale T p) (fun _ =>
               if p =? 0 then ret T false else ret T true)))))))
            (fun _ => held T)).
  { eapply triple_bind; [apply held_dev_begin | intros ok].
    apply held_if; [apply held_ret |].
    eapply triple_bind; [apply held_reset | intros ?].
    eapply triple_bind.
    { apply held_if; [apply held_setPWMFreq; reflexivity
                     | apply held_setExtClk]. }
    intros ?.
    eapply triple_bind; [apply held_setOscillatorFrequency | intros ?].
    eapply triple_bind; [apply held_readPrescale | intros p].
    eapply triple_bind; [apply held_set_prescale | intros ?].
    apply held_if; apply held_ret. }
  exact (G w1 H1).
Qed.

Lemma held_beginBarebones :
  triple T (fun _ => True) (beginBarebones T) (fun _ => held T).
Proof.
  intros w _. destruct (renew_dev_run T w) as (w1 & E1 & H1 & _).
  unfold beginBarebones. rewrite (bind_run T _ _ _ _ _ E1).
  assert (G : holds
            (bind T (dev_begin T false) (fun _ =>
             bind T (read8 T PCA9685_MODE1) (fun r =>
             bind T (if negb (u8 (Z.lor (Z.land (val r) (Z.lnot MODE1_SLEEP))
                                        MODE1_AI) =? val r)
                     then write8 T PCA9685_MODE1
                            (u8 (Z.lor (Z.land (val r) (Z.lnot MODE1_SLEEP))
                                       MODE1_AI))
                     else ret T tt) (fun _ =>
             bind T (setOscillatorFrequency T FREQUENCY_OSCILLATOR) (fun _ =>
             ret T true)))))
            (fun _ => held T)).
  { held_steps; auto with held. }
  exact (G w1 H1).
Qed.

Lemma held_weaken {A} (c : M T A) :
  triple T (fun _ => True) c (fun _ => held T) -> holds c (fun _ => held T).
Proof. intros H w _. exact (H w I). Qed.

Lemma held_done {A} P (c : M T A) :
  triple T P c (fun _ => held T) -> triple T P (done c) (fun _ => held T).
Proof.
  intros H. unfold done. eapply triple_bind; [exact H | intros ?].
  apply held_ret.
Qed.

Lemma held_exec c : safe c -> holds (exec T c) (fun _ => held T).
Proof.
  destruct c; cbn [exec safe]; intros Hs; try contradiction;
    try apply held_done.
  - apply held_weaken, held_begin.
  - apply held_reset.
  - apply held_sleep.
  - apply held_wakeup.
  - apply held_setExtClk.
  - destruct Hs. now apply held_setPWMFreq.
  - apply held_setOutputMode.
  - apply held_readPrescale.
  - apply held_getPWM.
  - apply held_setPWM.
  - apply held_setPin.
  - apply held_weaken, held_beginBarebones.
  - apply held_setAllOff.
  - destruct Hs as (? & ? & ?). now apply held_isFreqSet.
  - apply held_getOscillatorFrequency.
  - apply held_setOscillatorFrequency.
Qed.

Lemma held_run cs : Forall safe cs -> holds (run T cs) (fun _ => held T).
Proof.
  induction 1 as [| c cs Hc _ IH]; cbn [run].
  - apply held_ret.
  - eapply triple_bind; [apply held_exec, Hc | intros ?; exact IH].
Qed.

End Safety.

(** Once the device is held, every sequence of calls of the methods other
    than [writeMicroseconds] ([setPWMFreq] with a frequency that is not a
    NaN, [isFreqSet] with a positive finite one) is defined and leaves the
    device held: no call goes through a null pointer and no conversion is
    out of range.  [begin] and [beginBarebones] make the device held from
    any state. *)
Theorem run_defined_once_held :
  forall (T : Transport) (cs : list command) (w : world T),
    Forall safe cs ->
    (held T w -> exists w', run T cs w = Some (tt, w') /\ held T w')
    /\ (forall prescale,
          exists w', run T (CBegin prescale :: cs) w = Some (tt, w')
                     /\ held T w')
    /\ (exists w', run T (CBeginBarebones :: cs) w = Some (tt, w')
                   /\ held T w').
Proof.
  intros T cs w Hs. split; [| split].
  - intros Hw. destruct (held_run T cs Hs w Hw) as ([] & w' & E & H).
    eauto.
  - intros prescale.
    destruct (held_done T _ _ (held_begin T prescale) w I)
      as ([] & w1 & E1 & H1).
    destruct (held_run T cs Hs w1 H1) as ([] & w' & E & H).
    exists w'. cbn [run exec]. rewrite (bind_run T _ _ _ _ _ E1). auto.
  - destruct (held_done T _ _ (held_beginBarebones T) w I)
      as ([] & w1 & E1 & H1).
    destruct (held_run T cs Hs w1 H1) as ([] & w' & E & H).
    exists w'. cbn [run exec]. rewrite (bind_run T _ _ _ _ _ E1). auto.
Qed.

Lemma run_defined_once_held_witness :
  exists w',
    run Chip.transport
        [CBegin 0; CSetPWMFreq (float_of_Z 50); CSetPin 0 100 false;
         CIsFreqSet (float_of_Z 50); CSleep] Chip.fresh = Some (tt, w')
    /\ held Chip.transport w'.
Proof.
  assert (Hs : Forall safe
                 [CSetPWMFreq (float_of_Z 50); CSetPin 0 100 false;
                  CIsFreqSet (float_of_Z 50); CSleep])
    by (repeat constructor).
  exact (proj1 (proj2 (run_defined_once_held Chip.transport _ Chip.fresh
                         Hs)) 0).
Defined.

(** ** On a chip that answers *)

(** Resolves the comparisons of the two register addresses. *)
Ltac two_registers :=
  change (u8 PCA9685_PRESCALE =? u8 PCA9685_MODE1) with false;
  change (u8 PCA9685_PRESCALE =? u8 PCA9685_PRESCALE) with true;
  change (u8 PCA9685_MODE1 =? u8 PCA9685_MODE1) with true;
  change (PCA9685_PRESCALE =? u8 PCA9685_MODE1) with false;
  change (PCA9685_PRESCALE =? u8 PCA9685_PRESCALE) with true;
  change (PCA9685_MODE1 =? u8 PCA9685_MODE1) with true;
  change (PCA9685_MODE1 =? u8 PCA9685_PRESCALE) with false;
  cbv iota.

(** Steps through the calls on the register file. *)
Ltac chip_steps H :=
  repeat (progress
            (cbn [drv bus trace i2c_dev _i2caddr _oscillator_freq _prescale
                  t_begin t_write t_write_then_read Chip.transport negb
                  fst snd Chip.store Chip.load nth val success];
             rewrite ?H)).

(** On a chip that keeps what is written, [setPWMFreq] of a frequency that
    is not a NaN leaves the prescale of the clamped frequency both in the
    PRESCALE register and in the driver, and [isFreqSet] of the clamped
    frequency then returns [true]. *)
Theorem setPWMFreq_on_chip :
  forall (freq : spec_float) (w : world Chip.transport),
    held Chip.transport w ->
    valid_binary fprec femax freq = true -> is_nan freq = false ->
    exists p w',
      calcPrescale (drv w) (clamp_freq freq) = Some p
      /\ setPWMFreq Chip.transport freq w = Some (tt, w')
      /\ _prescale (drv w') = p
      /\ bus w' PCA9685_PRESCALE = p
      /\ isFreqSet Chip.transport (clamp_freq freq) w' = Some (true, w').
Proof.
  intros f [d b tr] Hw Hv Hn. unfold held in Hw. cbn [drv] in Hw.
  destruct (clamp_freq_shape f Hv Hn) as (m & e & Ef & Hb).
  pose proof (calcPrescale_positive d m e Hb) as Hc.
  rewrite <- Ef in Hc.
  set (p := prescale_of (prescaleval d (clamp_freq f))) in *.
  assert (Hu : u8 p = p).
  { pose proof (calcPrescale_Some_range _ _ _ Hc) as R.
    unfold PCA9685_PRESCALE_MIN, PCA9685_PRESCALE_MAX in R.
    unfold u8. apply Z.mod_small. lia. }
  assert (E : setPWMFreq Chip.transport f (@mkWorld Chip.transport d b tr)
              = Some (tt, after (setPWMFreq Chip.transport f)
                                (@mkWorld Chip.transport d b tr))
              /\ _prescale (drv (after (setPWMFreq Chip.transport f)
                                  (@mkWorld Chip.transport d b tr))) = p
              /\ bus (after (setPWMFreq Chip.transport f)
                        (@mkWorld Chip.transport d b tr))
                     PCA9685_PRESCALE = p).
  { unfold after, setPWMFreq. cbv zeta. fold (clamp_freq f).
    unfold readPrescale, read8, write8, dev_write,
      dev_write_then_read, with_dev, delay, log, set_prescale,
      put_drv, get_drv, bind, ret.
    cbn [drv bus trace i2c_dev _i2caddr _oscillator_freq _prescale].
    rewrite Hc. unfold lift_option, ret.
    chip_steps Hw.
    two_registers. rewrite ?u8_idem, ?Hu.
    cbn [drv bus _prescale]. two_registers. rewrite ?u8_idem, ?Hu.
    repeat split. }
  destruct E as (E & P & B).
  exists p, (after (setPWMFreq Chip.transport f)
                   (@mkWorld Chip.transport d b tr)).
  split; [exact Hc |]. split; [exact E |]. split; [exact P |].
  split; [exact B |].
  apply (isFreqSet_after_setPWMFreq Chip.transport f _ _ E).
  cbn [drv]. rewrite P. exact Hc.
Qed.

Lemma setPWMFreq_on_chip_witness :
  exists p w',
    calcPrescale (drv world121) (clamp_freq (float_of_Z 50)) = Some p
    /\ setPWMFreq Chip.transport (float_of_Z 50) world121 = Some (tt, w')
    /\ _prescale (drv w') = p
    /\ bus w' PCA9685_PRESCALE = p
    /\ isFreqSet Chip.transport (clamp_freq (float_of_Z 50)) w'
       = Some (true, w').
Proof.
  exact (setPWMFreq_on_chip (float_of_Z 50) world121
           eq_refl eq_refl eq_refl).
Defined.

(** On a chip that keeps what is written, [begin] with an external-clock
    prescale from 1 to 255 returns [true] from every state: the PRESCALE
    register and the stored prescale hold that prescale, MODE1 has the
    external clock on and the sleep bit off, and the stored oscillator
    frequency is the default, whatever the external clock is. *)
Theorem begin_external_clock :
  forall (prescale : Z) (w : world Chip.transport),
    1 <= prescale <= 255 ->
    exists w',
      begin Chip.transport prescale w = Some (true, w')
      /\ _prescale (drv w') = prescale
      /\ _oscillator_freq (drv w') = FREQUENCY_OSCILLATOR
      /\ bus w' PCA9685_PRESCALE = prescale
      /\ Z.testbit (bus w' PCA9685_MODE1) 6 = true
      /\ Z.testbit (bus w' PCA9685_MODE1) 4 = false.
Proof.
  intros p [d b tr] Hp.
  assert (Hu : u8 p = p) by (unfold u8; apply Z.mod_small; lia).
  unfold begin, renew_dev, dev_begin, reset, setExtClk,
    setOscillatorFrequency, readPrescale, read8, write8, dev_write,
    dev_write_then_read, with_dev, delay, log, set_prescale, set_i2c_dev,
    put_drv, get_drv, bind, ret.
  cbn [drv bus trace i2c_dev _i2caddr _oscillator_freq _prescale].
  destruct (i2c_dev d); chip_steps Hu.
  all: destruct (Z.eqb_spec p 0) as [-> | Hn]; [lia |].
  all: chip_steps Hu.
  all: two_registers; rewrite ?u8_idem, ?Hu.
  all: destruct (Z.eqb_spec p 0) as [-> | _]; [lia |].
  all: eexists; split; [reflexivity |].
  all: cbn [drv bus _prescale _oscillator_freq]; two_registers.
  all: repeat split; try (mode_bits; cbn; reflexivity).
Qed.

Lemma begin_external_clock_witness :
  exists w',
    begin Chip.transport 30 Chip.fresh = Some (true, w')
    /\ _prescale (drv w') = 30
    /\ _oscillator_freq (drv w') = FREQUENCY_OSCILLATOR
    /\ bus w' PCA9685_PRESCALE = 30
    /\ Z.testbit (bus w' PCA9685_MODE1) 6 = true
    /\ Z.testbit (bus w' PCA9685_MODE1) 4 = false.
Proof.
  apply (begin_external_clock 30 Chip.fresh). lia.
Defined.
